(** * Cylindrify: a shallow embedding of the add-on's own logic

    The add-on ([src/_init_.py]) is a Blender plug-in: four operators that
    sequence host calls around three arithmetic formulas.  This file embeds

    - [_to_meters] and the helpers [_ensure_subsurf], [_apply_modifiers],
      [_world_bbox], [_world_bbox_min_max_z], [_world_bbox_center_xy],
      [_world_bbox_size] and [_move_by];
    - the settings record [CYLSVG_Props];
    - the operators [CYLSVG_OT_AddCubeFromCylinder.execute] and
      [CYLSVG_OT_PlaceSvgOnCubeTopJoin.execute], and the line of
      [CYLSVG_OT_ImportSVG.execute] that records the original width.

    Conventions.

    - Python floats are idealised as real numbers ([R]); [pi] is [PI] and
      [math.asin] is [asin] on its domain [[-1, 1]].  The partial
      operations of the source ([asin], [/], [min] and [max]) raise the
      exceptions Python raises outside their domain.
    - Operators run in a small state-and-exception monad over the scene.
    - The host scene graph is a finite map from object identities to
      objects; the settings hold identities (non-owning references), so two
      references may alias.
    - What the model takes from the host.  An object has transform
      channels and a cached world matrix; the cache is refreshed by
      [view_layer.update()] and at the start of every [bpy.ops] call, and
      is stale in between (this is why line 247 updates explicitly).
      Objects have no parent, constraints or delta transforms, so the world
      matrix is translation * rotation * scale.  Mesh geometry is
      represented by its local bounding box only; what modifiers and joins
      do to it is a parameter.  Host calls are taken in object mode on
      objects of the active view layer; the host's clamping of assigned
      property values is not modelled (the declared ranges appear as
      [in_range] where a statement needs them). *)

From Stdlib Require Import Reals Lra String Ascii List ZArith.
From stdpp Require Import base gmap strings.

#[local] Open Scope R_scope.

(** ** Strings: [str.lower] on the ASCII range *)

(** [str.lower] maps [A]..[Z] to [a]..[z]; every other byte is kept.  On
    text outside ASCII Python may change more, but never into one of the
    letters [m] and [c] that [_to_meters] looks for. *)
Definition ascii_lower (c : ascii) : ascii :=
  let n := nat_of_ascii c in
  if ((65 <=? n)%nat && (n <=? 90)%nat)%bool then ascii_of_nat (n + 32) else c.

Fixpoint lower (s : string) : string :=
  match s with
  | EmptyString => EmptyString
  | String c r => String (ascii_lower c) (lower r)
  end.

(** [unit or "m"]: [None] and the empty string are falsy. *)
Definition or_m (unit : option string) : string :=
  match unit with
  | None => "m"
  | Some EmptyString => "m"
  | Some s => s
  end.

(** ** Helpers *)

(** [_to_meters] (lines 21-25). *)
Definition _to_meters (value : R) (unit : option string) : R :=
  let unit := lower (or_m unit) in
  if String.eqb unit "mm" then value / 1000
  else if String.eqb unit "cm" then value / 100
  else value.

(** ** Numbers *)

#[local] Instance Rlt_decision (a b : R) : Decision (a < b) := Rlt_dec a b.
#[local] Instance Rle_decision (a b : R) : Decision (a <= b) := Rle_dec a b.
#[local] Instance Rgt_decision (a b : R) : Decision (a > b) := Rgt_dec a b.
#[local] Instance Rge_decision (a b : R) : Decision (a >= b) := Rge_dec a b.
#[local] Instance Req_decision : EqDecision R := Req_dec_T.

(** Exceptions the modelled code can raise. *)
Inductive Exn : Type :=
  | ValueError_math_domain      (* ValueError: math domain error *)
  | ValueError_empty_sequence  (* ValueError: min()/max() of an empty sequence *)
  | ZeroDivisionError          (* float division by zero *)
  | ReferenceError             (* a reference to an object that is gone *)
  | AttributeError             (* attribute access on None *)
  | RuntimeError.              (* a host operator reported an error *)

(** Results of pure partial computations. *)
Definition Partial (A : Type) : Type := (Exn + A)%type.

Definition pbind {A B} (m : Partial A) (k : A -> Partial B) : Partial B :=
  match m with
  | inl e => inl e
  | inr a => k a
  end.

(** [math.asin]: raises [ValueError] outside [[-1, 1]]. *)
Definition py_asin (x : R) : Partial R :=
  if bool_decide (-1 <= x) && bool_decide (x <= 1) then inr (asin x)
  else inl ValueError_math_domain.

(** Float division [a / b]: raises [ZeroDivisionError] when [b] is zero. *)
Definition py_div (a b : R) : Partial R :=
  if bool_decide (b = 0) then inl ZeroDivisionError else inr (a / b).

(** [min(l)] and [max(l)]: raise [ValueError] on the empty list. *)
Definition py_min (l : list R) : Partial R :=
  match l with
  | [] => inl ValueError_empty_sequence
  | a :: r => inr (fold_left Rmin r a)
  end.

Definition py_max (l : list R) : Partial R :=
  match l with
  | [] => inl ValueError_empty_sequence
  | a :: r => inr (fold_left Rmax r a)
  end.

(** Evaluates [Rmin] and [Rmax] of terms that linear arithmetic can compare. *)
Ltac minmax_eval :=
  repeat match goal with
    | |- context [Rmax ?a ?b] =>
        first [rewrite (Rmax_left a b) by lra | rewrite (Rmax_right a b) by lra]
    | |- context [Rmin ?a ?b] =>
        first [rewrite (Rmin_left a b) by lra | rewrite (Rmin_right a b) by lra]
    end.

(** [int(r)]: truncation towards zero. *)
Definition py_int (r : R) : Z :=
  if bool_decide (0 <= r) then Int_part r else (- Int_part (- r))%Z.

(** ** Vectors and matrices ([mathutils]) *)

Record Vector : Type := mkVector { vx : R; vy : R; vz : R }.

Definition vadd (a b : Vector) : Vector :=
  mkVector (vx a + vx b) (vy a + vy b) (vz a + vz b).

Definition vdiv (a : Vector) (k : R) : Vector :=
  mkVector (vx a / k) (vy a / k) (vz a / k).

Definition vdot (a b : Vector) : R := vx a * vx b + vy a * vy b + vz a * vz b.

(** A 4x4 matrix whose last row is [0 0 0 1]: the three rows of its linear
    part and its translation column. *)
Record Matrix : Type := mkMatrix {
  row_x : Vector; row_y : Vector; row_z : Vector; translation : Vector }.

(** [M @ v]. *)
Definition mat_apply (M : Matrix) (v : Vector) : Vector :=
  mkVector (vdot (row_x M) v + vx (translation M))
           (vdot (row_y M) v + vy (translation M))
           (vdot (row_z M) v + vz (translation M)).

(** ** The host's objects *)

Inductive ObjectType : Type := MESH | CURVE | OTHER_TYPE.
Inductive ModifierType : Type := SUBSURF | SOLIDIFY | SIMPLE_DEFORM | OTHER_MODIFIER.
Inductive SubdivisionType : Type := CATMULL_CLARK | SIMPLE.

#[local] Instance ObjectType_eq_dec : EqDecision ObjectType.
Proof. solve_decision. Defined.

Record Modifier : Type := mkModifier {
  mod_name : string;
  mod_type : ModifierType;
  levels : Z;
  render_levels : Z;
  subdivision_type : SubdivisionType }.

(** An object of [bpy.data.objects].  [rotation] is the rotation matrix of
    the object's rotation channels (rows, translation unused);
    [bound_box] is the local-space bounding box of its geometry (eight
    corners in the host); [matrix_world] is the cached world matrix, which
    the host refreshes from the transform channels on a view-layer update. *)
Record Object : Type := mkObject {
  name : string;
  type : ObjectType;
  location : Vector;
  rotation : Matrix;
  scale : Vector;
  bound_box : list Vector;
  matrix_world : Matrix;
  selected : bool;
  modifiers : list Modifier }.

Definition with_name (v : string) (o : Object) : Object :=
  mkObject v (type o) (location o) (rotation o) (scale o) (bound_box o)
           (matrix_world o) (selected o) (modifiers o).
Definition with_location (v : Vector) (o : Object) : Object :=
  mkObject (name o) (type o) v (rotation o) (scale o) (bound_box o)
           (matrix_world o) (selected o) (modifiers o).
Definition with_scale (v : Vector) (o : Object) : Object :=
  mkObject (name o) (type o) (location o) (rotation o) v (bound_box o)
           (matrix_world o) (selected o) (modifiers o).
Definition with_bound_box (v : list Vector) (o : Object) : Object :=
  mkObject (name o) (type o) (location o) (rotation o) (scale o) v
           (matrix_world o) (selected o) (modifiers o).
Definition with_matrix_world (v : Matrix) (o : Object) : Object :=
  mkObject (name o) (type o) (location o) (rotation o) (scale o) (bound_box o)
           v (selected o) (modifiers o).
Definition with_selected (v : bool) (o : Object) : Object :=
  mkObject (name o) (type o) (location o) (rotation o) (scale o) (bound_box o)
           (matrix_world o) v (modifiers o).
Definition with_modifiers (v : list Modifier) (o : Object) : Object :=
  mkObject (name o) (type o) (location o) (rotation o) (scale o) (bound_box o)
           (matrix_world o) (selected o) v.

(** The world matrix of an object without parent, constraints or delta
    transforms: translation * rotation * scale. *)
Definition scale_columns (r s : Vector) : Vector :=
  mkVector (vx r * vx s) (vy r * vy s) (vz r * vz s).

Definition world_matrix_of (o : Object) : Matrix :=
  mkMatrix (scale_columns (row_x (rotation o)) (scale o))
           (scale_columns (row_y (rotation o)) (scale o))
           (scale_columns (row_z (rotation o)) (scale o))
           (location o).

Definition refresh (o : Object) : Object := with_matrix_world (world_matrix_of o) o.

(** Object identities: what a Python reference to an object denotes. *)
Abbreviation ident := positive.

(** ** Properties (lines 79-104) *)

Record CYLSVG_Props : Type := mkProps {
  flat_obj : option ident;
  cube_obj : option ident;
  svg_orig_x : R;
  thk_value : R;
  thk_unit : string;
  cyl_outer_r : R;
  cyl_inner_r : R;
  cyl_height : R;
  cyl_unit : string;
  cyl_subdiv : R;
  preserve_apparent_width : bool }.

Definition with_flat_obj (v : option ident) (p : CYLSVG_Props) : CYLSVG_Props :=
  mkProps v (cube_obj p) (svg_orig_x p) (thk_value p) (thk_unit p)
          (cyl_outer_r p) (cyl_inner_r p) (cyl_height p) (cyl_unit p)
          (cyl_subdiv p) (preserve_apparent_width p).
Definition with_cube_obj (v : option ident) (p : CYLSVG_Props) : CYLSVG_Props :=
  mkProps (flat_obj p) v (svg_orig_x p) (thk_value p) (thk_unit p)
          (cyl_outer_r p) (cyl_inner_r p) (cyl_height p) (cyl_unit p)
          (cyl_subdiv p) (preserve_apparent_width p).
Definition with_svg_orig_x (v : R) (p : CYLSVG_Props) : CYLSVG_Props :=
  mkProps (flat_obj p) (cube_obj p) v (thk_value p) (thk_unit p)
          (cyl_outer_r p) (cyl_inner_r p) (cyl_height p) (cyl_unit p)
          (cyl_subdiv p) (preserve_apparent_width p).

(** ** The state an operator runs in *)

Inductive ReportLevel : Type := ERROR | INFO.

(** A report: its level, its text, and the numbers formatted into it. *)
Record Report : Type := mkReport {
  report_level : ReportLevel; report_text : string; report_args : list R }.

(** [bpy.data.objects], [context.view_layer.objects.active],
    [context.scene.cylsvg_props], and what [self.report] has collected. *)
Record Context : Type := mkContext {
  objects : gmap positive Object;
  active : option ident;
  cylsvg_props : CYLSVG_Props;
  reports : list Report }.

Definition with_objects (v : gmap positive Object) (c : Context) : Context :=
  mkContext v (active c) (cylsvg_props c) (reports c).
Definition with_active (v : option ident) (c : Context) : Context :=
  mkContext (objects c) v (cylsvg_props c) (reports c).
Definition with_props (v : CYLSVG_Props) (c : Context) : Context :=
  mkContext (objects c) (active c) v (reports c).
Definition with_reports (v : list Report) (c : Context) : Context :=
  mkContext (objects c) (active c) (cylsvg_props c) v.

(** ** The operator monad: state and exceptions *)

Inductive Result (A : Type) : Type :=
  | Ok (a : A) (c : Context)
  | Raise (e : Exn) (c : Context).
Arguments Ok {A} a c.
Arguments Raise {A} e c.

Definition M (A : Type) : Type := Context -> Result A.

Definition ret {A} (a : A) : M A := fun c => Ok a c.
Definition raise {A} (e : Exn) : M A := fun c => Raise e c.
Definition bind {A B} (m : M A) (k : A -> M B) : M B :=
  fun c => match m c with
           | Ok a c' => k a c'
           | Raise e c' => Raise e c'
           end.
Definition lift {A} (m : Partial A) : M A :=
  match m with
  | inl e => raise e
  | inr a => ret a
  end.
Definition get : M Context := fun c => Ok c c.
Definition modify (f : Context -> Context) : M unit := fun c => Ok tt (f c).
(** [try: m  except Exception: pass]. *)
Definition try_pass (m : M unit) : M unit :=
  fun c => match m c with
           | Ok a c' => Ok a c'
           | Raise _ c' => Ok tt c'
           end.

Declare Scope op_scope.
Delimit Scope op_scope with op.
Notation "x <- m ;; k" := (bind m (fun x => k))
  (at level 100, m at next level, right associativity) : op_scope.
Notation "m ;; k" := (bind m (fun _ => k))
  (at level 100, right associativity) : op_scope.
#[local] Open Scope op_scope.

Inductive Status : Type := FINISHED | CANCELLED.

(** Reading and writing an object through a reference. *)
Definition deref (i : ident) : M Object :=
  c <- get ;;
  match objects c !! i with
  | Some o => ret o
  | None => raise ReferenceError
  end.

Definition update_obj (i : ident) (f : Object -> Object) : M unit :=
  o <- deref i ;;
  modify (fun c => with_objects (<[i := f o]> (objects c)) c).

Definition props : M CYLSVG_Props := c <- get ;; ret (cylsvg_props c).

(** [self.report({level}, text)]. *)
Definition report (l : ReportLevel) (text : string) (args : list R) : M unit :=
  modify (fun c => with_reports (reports c ++ [mkReport l text args]) c).

(** ** Host calls *)

(** [context.view_layer.update()]: every cached world matrix is recomputed. *)
Definition view_layer_update : M unit :=
  modify (fun c => with_objects (refresh <$> objects c) c).

(** A call [bpy.ops.*(...)] first updates the view layer, so that the
    operator sees the values the script has assigned. *)
Definition bpy_ops {A} (body : M A) : M A := view_layer_update ;; body.

(** [bpy.ops.object.select_all(action='DESELECT')]. *)
Definition select_all_DESELECT : M unit :=
  bpy_ops (modify (fun c => with_objects (with_selected false <$> objects c) c)).

(** [obj.select_set(True)]. *)
Definition select_set_True (i : ident) : M unit := update_obj i (with_selected true).

(** [context.view_layer.objects.active = obj]. *)
Definition set_active (i : ident) : M unit := modify (with_active (Some i)).

Fixpoint for_each {A} (l : list A) (body : A -> M unit) : M unit :=
  match l with
  | [] => ret tt
  | a :: r => body a ;; for_each r body
  end.

(** ** Helpers (lines 27-70)

    The helpers receive a Python reference; [_world_bbox] and the functions
    built on it only read the object, so they are functions of the object
    as it is when they are called. *)

(** [_world_bbox] (lines 48-49). *)
Definition _world_bbox (obj : Object) : list Vector :=
  map (mat_apply (matrix_world obj)) (bound_box obj).

(** [_world_bbox_min_max_z] (lines 51-53). *)
Definition _world_bbox_min_max_z (obj : Object) : Partial (R * R) :=
  let zs := map vz (_world_bbox obj) in
  pbind (py_min zs) (fun lo =>
  pbind (py_max zs) (fun hi => inr (lo, hi))).

(** [_world_bbox_center_xy] (lines 55-60). *)
Definition _world_bbox_center_xy (obj : Object) : R * R :=
  let coords := _world_bbox obj in
  let c := fold_left vadd coords (mkVector 0 0 0) in
  let c := vdiv c 8 in
  (vx c, vy c).

(** [_world_bbox_size] (lines 62-65). *)
Definition _world_bbox_size (obj : Object) : Partial (R * R * R) :=
  let coords := _world_bbox obj in
  let xs := map vx coords in
  let ys := map vy coords in
  let zs := map vz coords in
  pbind (py_max xs) (fun hx => pbind (py_min xs) (fun lx =>
  pbind (py_max ys) (fun hy => pbind (py_min ys) (fun ly =>
  pbind (py_max zs) (fun hz => pbind (py_min zs) (fun lz =>
  inr (hx - lx, hy - ly, hz - lz))))))).

(** [_move_by] (lines 67-70). *)
Definition add_location_x (d : R) (o : Object) : Object :=
  with_location (mkVector (vx (location o) + d) (vy (location o)) (vz (location o))) o.
Definition add_location_y (d : R) (o : Object) : Object :=
  with_location (mkVector (vx (location o)) (vy (location o) + d) (vz (location o))) o.
Definition add_location_z (d : R) (o : Object) : Object :=
  with_location (mkVector (vx (location o)) (vy (location o)) (vz (location o) + d)) o.

Definition _move_by (obj : ident) (dx dy dz : R) : M unit :=
  update_obj obj (add_location_x dx) ;;
  update_obj obj (add_location_y dy) ;;
  update_obj obj (add_location_z dz).

(** [_ensure_subsurf] (lines 27-34).  [obj.modifiers.get(name)] finds the
    modifier of that name; [obj.modifiers.new] appends one with the host's
    defaults.  The three assignments need a subdivision-surface modifier. *)
Definition new_subsurf (n : string) : Modifier := mkModifier n SUBSURF 1 2 CATMULL_CLARK.

Definition set_subsurf (lv : Z) (m : Modifier) : Modifier :=
  mkModifier (mod_name m) (mod_type m) lv lv SIMPLE.

Fixpoint replace_modifier (n : string) (m' : Modifier) (l : list Modifier) : list Modifier :=
  match l with
  | [] => []
  | m :: r => if String.eqb (mod_name m) n then m' :: r else m :: replace_modifier n m' r
  end.

Definition modifiers_get (n : string) (l : list Modifier) : option Modifier :=
  List.find (fun m => String.eqb (mod_name m) n) l.

Definition _ensure_subsurf (obj : ident) (n : string) (levels : Z) : M Modifier :=
  o <- deref obj ;;
  match modifiers_get n (modifiers o) with
  | Some m =>
      match mod_type m with
      | SUBSURF =>
          let m' := set_subsurf (Z.max 1 levels) m in
          update_obj obj (fun o => with_modifiers (replace_modifier n m' (modifiers o)) o) ;;
          ret m'
      | _ => raise AttributeError
      end
  | None =>
      let m' := set_subsurf (Z.max 1 levels) (new_subsurf n) in
      update_obj obj (fun o => with_modifiers (modifiers o ++ [m']) o) ;;
      ret m'
  end.

(** ** Geometry the host computes

    Two results of host operators depend on mesh geometry, which the model
    does not hold: the bounding box after a modifier has been applied, and
    the bounding box of joined meshes.  They are parameters, as is the
    host's choice of a free object name. *)
Section Host.

Variable host_modifier_apply : Modifier -> Object -> option (list Vector).
Variable host_join_bbox : Object -> list Object -> list Vector.
Variable host_unique_name : string -> gmap positive Object -> string.

(** [bpy.ops.object.modifier_apply(modifier=n)], on the active object:
    the geometry takes the modifier's result and the modifier leaves the
    stack; the operator raises when it cannot be applied. *)
Definition modifier_apply (n : string) : M unit :=
  bpy_ops (
    c <- get ;;
    match active c with
    | None => raise RuntimeError
    | Some a =>
        o <- deref a ;;
        match modifiers_get n (modifiers o) with
        | None => raise RuntimeError
        | Some m =>
            match host_modifier_apply m o with
            | None => raise RuntimeError
            | Some bb =>
                update_obj a (fun o =>
                  with_bound_box bb
                    (with_modifiers
                       (List.filter (fun m' => negb (String.eqb (mod_name m') n)) (modifiers o)) o))
            end
        end
    end).

(** [_apply_modifiers] (lines 36-46). *)
Definition _apply_modifiers (obj : option ident) : M unit :=
  match obj with
  | None => ret tt
  | Some obj =>
      select_all_DESELECT ;;
      select_set_True obj ;;
      set_active obj ;;
      o <- deref obj ;;
      for_each (modifiers o) (fun m => try_pass (modifier_apply (mod_name m)))
  end.

(** [bpy.ops.mesh.primitive_cube_add(size, align='WORLD', location)] in
    object mode: a new mesh object, selected and active, everything else
    deselected. *)
Definition cube_corners (size : R) : list Vector :=
  let h := size / 2 in
  [ mkVector (- h) (- h) (- h); mkVector (- h) (- h) h;
    mkVector (- h) h h;         mkVector (- h) h (- h);
    mkVector h (- h) (- h);     mkVector h (- h) h;
    mkVector h h h;             mkVector h h (- h) ].

Definition identity_matrix : Matrix :=
  mkMatrix (mkVector 1 0 0) (mkVector 0 1 0) (mkVector 0 0 1) (mkVector 0 0 0).

Definition new_cube (nm : string) (size : R) (loc : Vector) : Object :=
  refresh (mkObject nm MESH loc identity_matrix (mkVector 1 1 1)
                    (cube_corners size) identity_matrix true []).

Definition primitive_cube_add (size : R) (loc : Vector) : M unit :=
  bpy_ops (
    c <- get ;;
    let i := fresh (dom (objects c)) in
    let o := new_cube (host_unique_name "Cube" (objects c)) size loc in
    modify (fun c =>
      with_active (Some i)
        (with_objects (<[i := o]> (with_selected false <$> objects c)) c))).

(** [context.view_layer.objects.active], used as an object. *)
Definition active_object : M ident :=
  c <- get ;;
  match active c with
  | Some i => ret i
  | None => raise AttributeError
  end.

(** [obj.name = n]: the host stores a name no other object has. *)
Definition set_name (obj : ident) (n : string) : M unit :=
  c <- get ;;
  update_obj obj (with_name (host_unique_name n (delete obj (objects c)))).

(** [obj.dimensions]: the size of the local bounding box times the
    absolute scale.  Assigning it rescales each axis whose box extent is
    not zero, keeping the sign of the scale. *)
Definition extent (l : list R) : R :=
  match l with
  | [] => 0
  | a :: r => fold_left Rmax r a - fold_left Rmin r a
  end.

Definition copysign (v s : R) : R := if bool_decide (s < 0) then - Rabs v else Rabs v.

Definition rescale (value len s : R) : R :=
  if bool_decide (len = 0) then s else copysign (value / len) s.

Definition dimensions (o : Object) : Vector :=
  mkVector (Rabs (vx (scale o)) * extent (map vx (bound_box o)))
           (Rabs (vy (scale o)) * extent (map vy (bound_box o)))
           (Rabs (vz (scale o)) * extent (map vz (bound_box o))).

Definition set_dimensions (obj : ident) (d : Vector) : M unit :=
  update_obj obj (fun o =>
    with_scale
      (mkVector (rescale (vx d) (extent (map vx (bound_box o))) (vx (scale o)))
                (rescale (vy d) (extent (map vy (bound_box o))) (vy (scale o)))
                (rescale (vz d) (extent (map vz (bound_box o))) (vz (scale o)))) o).

(** [bpy.ops.object.join()]: the selected meshes other than the active
    object are merged into it and removed.  Nothing happens (a warning)
    when the active object is not a selected mesh or nothing else is.
    The host also empties pointer properties that referred to a removed
    object; the operator assigns both of its references right after the
    join, so this is left out. *)
Definition join_sources (a : ident) (objs : gmap positive Object) : gmap positive Object :=
  filter (fun io => io.1 <> a /\ selected io.2 = true /\ type io.2 = MESH) objs.

Definition join : M unit :=
  bpy_ops (
    c <- get ;;
    match active c with
    | None => raise RuntimeError
    | Some a =>
        o <- deref a ;;
        let src := join_sources a (objects c) in
        if selected o && bool_decide (type o = MESH) && negb (bool_decide (src = ∅)) then
          modify (fun c =>
            with_objects
              (<[a := with_bound_box (host_join_bbox o (snd <$> map_to_list src)) o]>
                 (objects c ∖ src)) c)
        else ret tt
    end).

(** ** Operators *)

Definition set_flat_obj (v : option ident) : M unit :=
  modify (fun c => with_props (with_flat_obj v (cylsvg_props c)) c).
Definition set_cube_obj (v : option ident) : M unit :=
  modify (fun c => with_props (with_cube_obj v (cylsvg_props c)) c).
Definition set_svg_orig_x (v : R) : M unit :=
  modify (fun c => with_props (with_svg_orig_x v (cylsvg_props c)) c).

(** [CYLSVG_OT_ImportSVG.execute], line 160 only:
    [props.svg_orig_x = _world_bbox_size(flat)[0]].  The rest of that
    operator (file import, conversion, solidify, subdivision, origin) is a
    sequence of host calls on geometry and is not modelled. *)
Definition ImportSVG_store_orig_x (flat : ident) : M unit :=
  o <- deref flat ;;
  sz <- lift (_world_bbox_size o) ;;
  set_svg_orig_x (sz.1.1).

(** [CYLSVG_OT_AddCubeFromCylinder.execute] (lines 194-220). *)
Definition AddCubeFromCylinder_execute : M Status :=
  p <- props ;;
  let outer := _to_meters (cyl_outer_r p) (Some (cyl_unit p)) in
  let inner := _to_meters (cyl_inner_r p) (Some (cyl_unit p)) in
  let height := _to_meters (cyl_height p) (Some (cyl_unit p)) in
  if bool_decide (inner >= outer) then
    report ERROR "Inner radius must be smaller than outer radius." [] ;;
    ret CANCELLED
  else
    (* Map cylinder -> cube *)
    let X := 2 * PI * outer in   (* circumference *)
    let Y := height in
    let Z := outer - inner in    (* wall thickness *)
    primitive_cube_add 1 (mkVector 0 0 0) ;;
    cube <- active_object ;;
    set_name cube "CYLSVG_Cube" ;;
    set_dimensions cube (mkVector X Y Z) ;;
    _ensure_subsurf cube "CYLSVG_CubeSubd" (py_int (cyl_subdiv p)) ;;
    _apply_modifiers (Some cube) ;;
    set_cube_obj (Some cube) ;;
    report INFO "Cylinder→Cube: X={X:.3f}m, Y={Y:.3f}m, Z={Z:.3f}m (applied)." [X; Y; Z] ;;
    ret FINISHED.

(** [CYLSVG_OT_PlaceSvgOnCubeTopJoin.execute], lines 234-247: the optional
    apparent-width pre-scaling of the flat object.  The block is written
    over the two partial float operations it uses, so that what it asks of
    them can be stated; the operator runs it with Python's. *)
Section PartialOps.

Variable asin_ : R -> Partial R.
Variable div_ : R -> R -> Partial R.

Definition prescale_with (flat : ident) : M unit :=
  p <- props ;;
  if preserve_apparent_width p && bool_decide (svg_orig_x p > 0) then
    let R_ := _to_meters (cyl_outer_r p) (Some (cyl_unit p)) in
    let W_orig := svg_orig_x p in
    (* Guard: chord can't exceed diameter *)
    let max_chord := 2 * R_ in
    if bool_decide (W_orig < max_chord) && bool_decide (R_ > 0) then
      (* chord = W_orig  =>  W_orig = 2R sin(L/(2R)) *)
      q <- lift (div_ W_orig (2 * R_)) ;;
      a <- lift (asin_ q) ;;
      let L_target := 2 * R_ * a in
      o <- deref flat ;;
      sz <- lift (_world_bbox_size o) ;;
      let cur_X := sz.1.1 in
      if bool_decide (cur_X > 0) then
        k <- lift (div_ L_target cur_X) ;;
        update_obj flat (fun o =>
          with_scale (mkVector (vx (scale o) * k) (vy (scale o)) (vz (scale o))) o) ;;
        view_layer_update
      else ret tt
    else ret tt
  else ret tt.

End PartialOps.

Definition PlaceSvgOnCubeTopJoin_prescale : ident -> M unit :=
  prescale_with py_asin py_div.

(** Lines 249-262: the flat object is moved over the cube and onto its
    top, and both are selected for the join. *)
Definition PlaceSvgOnCubeTopJoin_align (flat cube : ident) : M unit :=
  (* Align XY centers *)
  oc <- deref cube ;;
  let c_xy := _world_bbox_center_xy oc in
  ofl <- deref flat ;;
  let s_xy := _world_bbox_center_xy ofl in
  _move_by flat (c_xy.1 - s_xy.1) (c_xy.2 - s_xy.2) 0 ;;
  (* Sit on top Z *)
  oc <- deref cube ;;
  cz <- lift (_world_bbox_min_max_z oc) ;;
  let cube_top_z := cz.2 in
  ofl <- deref flat ;;
  sz <- lift (_world_bbox_min_max_z ofl) ;;
  let svg_min_z := sz.1 in
  _move_by flat 0 0 (cube_top_z - svg_min_z) ;;
  (* Join *)
  select_all_DESELECT ;;
  select_set_True cube ;;
  select_set_True flat ;;
  set_active cube.

(** Lines 234-262: everything the operator does to the scene before it
    calls the host's join. *)
Definition PlaceSvgOnCubeTopJoin_place (flat cube : ident) : M unit :=
  PlaceSvgOnCubeTopJoin_prescale flat ;;
  PlaceSvgOnCubeTopJoin_align flat cube.

(** Lines 263-268: the join and the bookkeeping after it. *)
Definition PlaceSvgOnCubeTopJoin_join : M Status :=
  join ;;
  set_flat_obj None ;;
  c <- get ;;
  set_cube_obj (active c) ;;
  report INFO "SVG aligned on cube and joined." [] ;;
  ret FINISHED.

(** [CYLSVG_OT_PlaceSvgOnCubeTopJoin.execute] (lines 227-268). *)
Definition PlaceSvgOnCubeTopJoin_execute : M Status :=
  p <- props ;;
  match flat_obj p, cube_obj p with
  | Some flat, Some cube =>
      PlaceSvgOnCubeTopJoin_place flat cube ;;
      PlaceSvgOnCubeTopJoin_join
  | _, _ =>
      report ERROR "SVG or Cube not set." [] ;;
      ret CANCELLED
  end.

(** ** Well-formed scenes *)

(** The host keeps every cached world matrix current between operators. *)
Definition evaluated (c : Context) : Prop :=
  forall i o, objects c !! i = Some o -> matrix_world o = world_matrix_of o.

(** A reference that denotes a live object; the host's bounding boxes have
    eight corners. *)
Definition live (c : Context) (i : ident) : Prop :=
  exists o, objects c !! i = Some o /\ length (bound_box o) = 8%nat.

(** The ranges the property declarations give the numeric settings
    (lines 85-97: [min=0.0]; subdivisions between 1 and 10). *)
Definition in_range (p : CYLSVG_Props) : Prop :=
  0 <= svg_orig_x p /\
  0 <= thk_value p /\
  0 <= cyl_outer_r p /\
  0 <= cyl_inner_r p /\
  0 <= cyl_height p /\
  1 <= cyl_subdiv p <= 10.

(** A subdivision-surface modifier of the simple kind, which splits faces
    without moving any point. *)
Definition simple_subsurf (m : Modifier) : Prop :=
  mod_type m = SUBSURF /\ subdivision_type m = SIMPLE.

(** The host applies such a modifier without changing the bounding box. *)
Definition host_keeps_simple : Prop :=
  forall m o bb, simple_subsurf m -> host_modifier_apply m o = Some bb -> bb = bound_box o.

(** What [_apply_modifiers] keeps of the object it is given, whatever the
    host does with each modifier. *)
Definition cube_state (i : ident) (P : CYLSVG_Props) (Rp : list Report) (S : Vector)
    (B : list Vector) (c : Context) : Prop :=
  active c = Some i /\
  cylsvg_props c = P /\
  reports c = Rp /\
  exists o,
    objects c !! i = Some o /\
    scale o = S /\
    type o = MESH /\
    Forall simple_subsurf (modifiers o) /\
    (host_keeps_simple -> bound_box o = B).

(** ** Specifications *)

(** [wp m Q E c]: run from [c], the operation [m] ends normally in a state
    and value that satisfy [Q], or raises an exception that satisfies [E]. *)
Definition wp {A} (m : M A) (Q : A -> Context -> Prop) (E : Exn -> Context -> Prop)
    (c : Context) : Prop :=
  match m c with
  | Ok a c' => Q a c'
  | Raise e c' => E e c'
  end.

(** [preserves Rel m]: however [m] ends, the state it ends in is related
    by [Rel] to the state it started from. *)
Definition preserves {A} (Rel : Context -> Context -> Prop) (m : M A) : Prop :=
  forall c, wp m (fun _ c' => Rel c c') (fun _ c' => Rel c c') c.

(** The settings are as they were, the two object references apart. *)
Definition settings_kept (c c' : Context) : Prop :=
  svg_orig_x (cylsvg_props c') = svg_orig_x (cylsvg_props c) /\
  thk_value (cylsvg_props c') = thk_value (cylsvg_props c) /\
  thk_unit (cylsvg_props c') = thk_unit (cylsvg_props c) /\
  cyl_outer_r (cylsvg_props c') = cyl_outer_r (cylsvg_props c) /\
  cyl_inner_r (cylsvg_props c') = cyl_inner_r (cylsvg_props c) /\
  cyl_height (cylsvg_props c') = cyl_height (cylsvg_props c) /\
  cyl_unit (cylsvg_props c') = cyl_unit (cylsvg_props c) /\
  cyl_subdiv (cylsvg_props c') = cyl_subdiv (cylsvg_props c) /\
  preserve_apparent_width (cylsvg_props c') = preserve_apparent_width (cylsvg_props c).

(** Neither a math domain error nor a division by zero. *)
Definition arith_safe (e : Exn) (_ : Context) : Prop :=
  e <> ValueError_math_domain /\ e <> ZeroDivisionError.

(** The guards of lines 235 and 240 under which the pre-scaling is
    attempted. *)
Definition width_guard (p : CYLSVG_Props) : Prop :=
  preserve_apparent_width p = true /\
  svg_orig_x p > 0 /\
  svg_orig_x p < 2 * _to_meters (cyl_outer_r p) (Some (cyl_unit p)) /\
  _to_meters (cyl_outer_r p) (Some (cyl_unit p)) > 0.

(** The flat object [f0] with its X scale multiplied by [k]. *)
Definition scaled_x (k : R) (f0 : Object) : Object :=
  with_scale (mkVector (vx (scale f0) * k) (vy (scale f0)) (vz (scale f0))) f0.

(** What the alignment leaves in place of the flat object [f0]: the same
    object moved by [d], with a current world matrix, selected. *)
Definition placed (f0 f1 : Object) (d : Vector) : Prop :=
  location f1 = vadd (location f0) d /\
  matrix_world f1 = world_matrix_of f1 /\
  bound_box f1 = bound_box f0 /\
  rotation f1 = rotation f0 /\
  scale f1 = scale f0 /\
  name f1 = name f0 /\
  type f1 = type f0 /\
  modifiers f1 = modifiers f0 /\
  selected f1 = true.

(** ** Example scenes *)

(** A flat object and a cube, both unit boxes, two units apart. *)
Definition example_flat : Object := new_cube "SVG_Flat" 1 (mkVector 0 0 0).
Definition example_cube : Object := new_cube "CYLSVG_Cube" 1 (mkVector 2 0 0).

(** Settings in metres: outer radius 1, inner radius 1/2, height 1, and a
    stored original width of 1. *)
Definition example_props (flat cube : option ident) (preserve : bool) : CYLSVG_Props :=
  mkProps flat cube 1 2 "mm" 1 (1 / 2) 1 "m" 7 preserve.

Definition example_objects : gmap positive Object :=
  <[1%positive := example_flat]> (<[2%positive := example_cube]> ∅).

(** Both references set, to the two objects; the flag on, and off. *)
Definition example_scene : Context :=
  mkContext example_objects None (example_props (Some 1%positive) (Some 2%positive) true) [].
Definition example_scene_off : Context :=
  mkContext example_objects None (example_props (Some 1%positive) (Some 2%positive) false) [].

(** Both references set to the same object. *)
Definition alias_scene : Context :=
  mkContext example_objects None (example_props (Some 1%positive) (Some 1%positive) false) [].

(** A host that applies every modifier without changing the bounding box,
    joins into the active object's box, and finds every name free. *)
Definition example_modifier_apply (m : Modifier) (o : Object) : option (list Vector) :=
  Some (bound_box o).
Definition example_join_bbox (o : Object) (others : list Object) : list Vector :=
  bound_box o.
Definition example_unique_name (n : string) (objs : gmap positive Object) : string := n.

(** ** Specifications of the helpers and of what the operators leave alone *)

(** Two objects that differ at most in their selection flag and in their
    cached world matrix. *)
Definition same_shape (o o' : Object) : Prop :=
  name o' = name o /\
  type o' = type o /\
  location o' = location o /\
  rotation o' = rotation o /\
  scale o' = scale o /\
  bound_box o' = bound_box o /\
  modifiers o' = modifiers o.

(** Every object other than [i] is in [c'] what it was in [c], deselected;
    no object other than [i] has come or gone. *)
Definition others_kept (i : ident) (c c' : Context) : Prop :=
  forall j, j <> i ->
    match objects c !! j, objects c' !! j with
    | Some o, Some o' => same_shape o o' /\ selected o' = false
    | None, None => True
    | _, _ => False
    end.

(** The object [i] is live, selected and active, with the name, type and
    transform channels of [o0]. *)
Definition target_kept (i : ident) (o0 : Object) (c : Context) : Prop :=
  active c = Some i /\
  exists o,
    objects c !! i = Some o /\
    selected o = true /\
    name o = name o0 /\
    type o = type o0 /\
    location o = location o0 /\
    rotation o = rotation o0 /\
    scale o = scale o0.

(** What [_apply_modifiers] keeps while it works on [i], from the scene
    [c0] it was called in. *)
Definition applying (i : ident) (c0 : Context) (o0 : Object) (c : Context) : Prop :=
  target_kept i o0 c /\
  others_kept i c0 c /\
  cylsvg_props c = cylsvg_props c0 /\
  reports c = reports c0.

(** [_poll_mesh] (lines 76-77): the filter of the two object pickers, as
    the host reads its result, by truth value.  [obj and ...] is [None],
    which is false, when there is no object. *)
Definition _poll_mesh (obj : option Object) : bool :=
  match obj with
  | None => false
  | Some o => bool_decide (type o = MESH)
  end.

(** The flat object of the example with a subdivision modifier on it, and
    a scene that holds it alone. *)
Definition example_subsurf_flat : Object :=
  with_modifiers [new_subsurf "CYLSVG_Subd"] example_flat.
Definition example_modified_scene : Context :=
  mkContext (<[1%positive := example_subsurf_flat]> ∅) None (example_props None None false) [].

(** The example scene with a stored width of 3, more than the diameter. *)
Definition example_wide_scene : Context :=
  mkContext example_objects None
    (mkProps (Some 1%positive) (Some 2%positive) 3 2 "mm" 1 (1 / 2) 1 "m" 7 true) [].

(** A host that refuses to apply any modifier. *)
Definition example_refusing_host (m : Modifier) (o : Object) : option (list Vector) := None.

(** * Properties *)

(** ** [_to_meters] *)

Lemma ascii_lower_idem (c : ascii) : ascii_lower (ascii_lower c) = ascii_lower c.
Proof. destruct c as [[] [] [] [] [] [] [] []]; reflexivity. Qed.

Lemma lower_idem (s : string) : lower (lower s) = lower s.
Proof.
  induction s as [|c r IH]; simpl; [reflexivity|].
  now rewrite ascii_lower_idem, IH.
Qed.

Lemma or_m_nonempty (s : string) : s <> EmptyString -> or_m (Some s) = s.
Proof. destruct s; [congruence | reflexivity]. Qed.

(** The unit the function compares: the lower-cased argument, ["m"] when
    there is none. *)
Lemma lower_or_m_some (s : string) :
  lower (or_m (Some s)) = if String.eqb s "" then "m"%string else lower s.
Proof. destruct s; reflexivity. Qed.

Lemma to_meters_of_lower (v : R) (s t : string) :
  lower s = lower t -> _to_meters v (Some s) = _to_meters v (Some t).
Proof.
  intros H. unfold _to_meters.
  destruct s as [|a s], t as [|b t]; try discriminate H; [reflexivity|].
  rewrite !or_m_nonempty by discriminate. now rewrite H.
Qed.

(** C4: for every value and unit string, [_to_meters] divides by 1000 when
    the lower-cased unit is ["mm"], by 100 when it is ["cm"], and returns
    the value unchanged when it is ["m"]. *)
Theorem to_meters_mm_cm_m (v : R) (u : string) :
  (lower u = "mm"%string -> _to_meters v (Some u) = v / 1000) /\
  (lower u = "cm"%string -> _to_meters v (Some u) = v / 100) /\
  (lower u = "m"%string -> _to_meters v (Some u) = v).
Proof.
  unfold _to_meters.
  repeat split; intros H;
    (rewrite or_m_nonempty by (intros ->; discriminate H));
    rewrite H; reflexivity.
Qed.

(** C10: [_to_meters] is a total function of its two arguments; a unit
    that is not ["mm"] or ["cm"] up to case (no unit, the empty string,
    anything unrecognised) leaves the value unchanged; and two units that
    differ only in case give the same result, so every unit behaves as its
    lower-case form. *)
Theorem to_meters_default_and_case (v : R) :
  (forall u : option string,
      (forall s, u = Some s -> lower s <> "mm"%string /\ lower s <> "cm"%string) ->
      _to_meters v u = v) /\
  _to_meters v None = v /\
  _to_meters v (Some ""%string) = v /\
  (forall s t : string, lower s = lower t -> _to_meters v (Some s) = _to_meters v (Some t)) /\
  (forall s : string, _to_meters v (Some s) = _to_meters v (Some (lower s))) /\
  _to_meters v (Some "MM"%string) = _to_meters v (Some "mm"%string) /\
  _to_meters v (Some "Cm"%string) = _to_meters v (Some "cm"%string).
Proof.
  split;
    [|repeat split; try reflexivity;
      [apply to_meters_of_lower | intros s; apply to_meters_of_lower; now rewrite lower_idem]].
  intros [s|] H; [|reflexivity].
  destruct (H s eq_refl) as [Hmm Hcm].
  unfold _to_meters. rewrite lower_or_m_some.
  destruct (String.eqb s "") eqn:E; [reflexivity|].
  destruct (String.eqb_spec (lower s) "mm"); [contradiction|].
  destruct (String.eqb_spec (lower s) "cm"); [contradiction|].
  reflexivity.
Qed.

(** ** Running the monad *)

Lemma bind_Ok {A B} (m : M A) (k : A -> M B) (c c' : Context) (a : A) :
  m c = Ok a c' -> bind m k c = k a c'.
Proof. unfold bind. now intros ->. Qed.

Lemma bind_Raise {A B} (m : M A) (k : A -> M B) (c c' : Context) (e : Exn) :
  m c = Raise e c' -> bind m k c = Raise e c'.
Proof. unfold bind. now intros ->. Qed.

Lemma deref_Ok (i : ident) (c : Context) (o : Object) :
  objects c !! i = Some o -> deref i c = Ok o c.
Proof. unfold deref, bind, get, ret. now intros ->. Qed.

Lemma update_obj_Ok (i : ident) (f : Object -> Object) (c : Context) (o : Object) :
  objects c !! i = Some o ->
  update_obj i f c = Ok tt (with_objects (<[i := f o]> (objects c)) c).
Proof. intros H. unfold update_obj. now rewrite (bind_Ok _ _ _ _ _ (deref_Ok _ _ _ H)). Qed.

Lemma move_by_Ok (i : ident) (dx dy dz : R) (c : Context) (o : Object) :
  objects c !! i = Some o ->
  _move_by i dx dy dz c =
    Ok tt (with_objects
             (<[i := add_location_z dz (add_location_y dy (add_location_x dx o))]> (objects c)) c).
Proof.
  intros H. unfold _move_by.
  rewrite (bind_Ok _ _ _ _ _ (update_obj_Ok _ _ _ _ H)).
  erewrite bind_Ok; [|apply update_obj_Ok; simpl; apply lookup_insert_eq].
  erewrite update_obj_Ok; [|simpl; apply lookup_insert_eq].
  simpl. now rewrite !insert_insert_eq.
Qed.

Lemma lift_inr {A} (a : A) (c : Context) : lift (inr a) c = Ok a c.
Proof. reflexivity. Qed.

(** ** World matrices and bounding boxes *)

Lemma refresh_evaluated (o : Object) : matrix_world o = world_matrix_of o -> refresh o = o.
Proof. destruct o; unfold refresh, with_matrix_world; simpl; now intros <-. Qed.

Lemma refresh_all_evaluated (c : Context) : evaluated c -> refresh <$> objects c = objects c.
Proof.
  intros H. apply map_eq; intros i. rewrite lookup_fmap.
  destruct (objects c !! i) as [o|] eqn:E; simpl; [|reflexivity].
  now rewrite (refresh_evaluated o (H i o E)).
Qed.

Lemma Rmin_shift (a b d : R) : Rmin (a + d) (b + d) = Rmin a b + d.
Proof. unfold Rmin; repeat destruct Rle_dec; lra. Qed.

Lemma Rmax_shift (a b d : R) : Rmax (a + d) (b + d) = Rmax a b + d.
Proof. unfold Rmax; repeat destruct Rle_dec; lra. Qed.

Lemma fold_Rmin_shift (d : R) (l : list R) (a : R) :
  fold_left Rmin (map (fun x => x + d) l) (a + d) = fold_left Rmin l a + d.
Proof.
  revert a; induction l as [|b l IH]; intros a; simpl; [reflexivity|].
  now rewrite Rmin_shift, IH.
Qed.

Lemma fold_Rmax_shift (d : R) (l : list R) (a : R) :
  fold_left Rmax (map (fun x => x + d) l) (a + d) = fold_left Rmax l a + d.
Proof.
  revert a; induction l as [|b l IH]; intros a; simpl; [reflexivity|].
  now rewrite Rmax_shift, IH.
Qed.

Lemma fold_Rmin_le_Rmax (l : list R) (a b : R) :
  a <= b -> fold_left Rmin l a <= fold_left Rmax l b.
Proof.
  revert a b; induction l as [|x l IH]; intros a b H; simpl; [exact H|].
  apply IH. unfold Rmin, Rmax; repeat destruct Rle_dec; lra.
Qed.

Lemma py_min_shift (d : R) (l : list R) (m : R) :
  py_min l = inr m -> py_min (map (fun x => x + d) l) = inr (m + d).
Proof.
  destruct l as [|a l]; simpl; [discriminate|].
  intros [= <-]. now rewrite fold_Rmin_shift.
Qed.

Lemma py_max_shift (d : R) (l : list R) (m : R) :
  py_max l = inr m -> py_max (map (fun x => x + d) l) = inr (m + d).
Proof.
  destruct l as [|a l]; simpl; [discriminate|].
  intros [= <-]. now rewrite fold_Rmax_shift.
Qed.

Lemma py_min_total (l : list R) : l <> [] -> exists m, py_min l = inr m.
Proof. destruct l; [congruence | eexists; reflexivity]. Qed.

Lemma py_max_total (l : list R) : l <> [] -> exists m, py_max l = inr m.
Proof. destruct l; [congruence | eexists; reflexivity]. Qed.

Lemma py_min_le_max (l : list R) (lo hi : R) :
  py_min l = inr lo -> py_max l = inr hi -> lo <= hi.
Proof.
  destruct l as [|a l]; simpl; [discriminate|].
  intros [= <-] [= <-]. apply fold_Rmin_le_Rmax. lra.
Qed.

(** Summing the corners: a shift of every corner moves the sum by the
    number of corners times the shift. *)
Lemma sum_shift (d : Vector) (l : list Vector) (acc : Vector) :
  fold_left vadd (map (fun p => vadd p d) l) acc =
  vadd (fold_left vadd l acc)
       (mkVector (INR (length l) * vx d) (INR (length l) * vy d) (INR (length l) * vz d)).
Proof.
  revert acc; induction l as [|p l IH]; intros acc.
  - simpl. destruct acc; unfold vadd; simpl. f_equal; lra.
  - cbn [map fold_left length]. rewrite IH, S_INR.
    set (s := fold_left vadd l (vadd acc p)).
    assert (Hs : fold_left vadd l (vadd acc (vadd p d)) = vadd s d).
    { subst s. clear IH. revert acc p; induction l as [|q l IH]; intros acc p; simpl.
      - unfold vadd; simpl; f_equal; lra.
      - rewrite <- IH. f_equal. unfold vadd; simpl; f_equal; lra. }
    rewrite Hs. unfold vadd; simpl; f_equal; lra.
Qed.

Lemma world_bbox_moved (o o' : Object) (d : Vector) :
  matrix_world o = world_matrix_of o ->
  matrix_world o' = world_matrix_of o' ->
  bound_box o' = bound_box o ->
  rotation o' = rotation o ->
  scale o' = scale o ->
  location o' = vadd (location o) d ->
  _world_bbox o' = map (fun p => vadd p d) (_world_bbox o).
Proof.
  intros Ho Ho' Hb Hr Hs Hl. unfold _world_bbox.
  rewrite Ho, Ho', Hb, map_map. apply map_ext; intros p.
  unfold world_matrix_of, mat_apply. rewrite Hr, Hs, Hl.
  unfold vadd, vdot, scale_columns; simpl. f_equal; ring.
Qed.

Lemma center_xy_shift (o o' : Object) (d : Vector) :
  length (bound_box o) = 8%nat ->
  _world_bbox o' = map (fun p => vadd p d) (_world_bbox o) ->
  _world_bbox_center_xy o' =
    ((_world_bbox_center_xy o).1 + vx d, (_world_bbox_center_xy o).2 + vy d).
Proof.
  intros Hlen H. unfold _world_bbox_center_xy. rewrite H, sum_shift.
  assert (Hn : INR (length (_world_bbox o)) = 8).
  { unfold _world_bbox. rewrite length_map, Hlen. simpl. lra. }
  rewrite Hn. simpl. f_equal; lra.
Qed.

Lemma min_max_z_shift (o o' : Object) (d : Vector) (lo hi : R) :
  _world_bbox o' = map (fun p => vadd p d) (_world_bbox o) ->
  _world_bbox_min_max_z o = inr (lo, hi) ->
  _world_bbox_min_max_z o' = inr (lo + vz d, hi + vz d).
Proof.
  intros H. unfold _world_bbox_min_max_z. rewrite H, map_map.
  change (map (fun x => vz (vadd x d)) (_world_bbox o))
    with (map (fun x => vz x + vz d) (_world_bbox o)).
  rewrite <- (map_map vz (fun z => z + vz d)).
  destruct (py_min (map vz (_world_bbox o))) as [e|m] eqn:Emin; simpl; [discriminate|].
  destruct (py_max (map vz (_world_bbox o))) as [e|m'] eqn:Emax; simpl; [discriminate|].
  intros [= <- <-].
  now rewrite (py_min_shift _ _ _ Emin), (py_max_shift _ _ _ Emax).
Qed.

Lemma min_max_z_total (o : Object) :
  bound_box o <> [] ->
  exists lo hi, _world_bbox_min_max_z o = inr (lo, hi) /\ lo <= hi.
Proof.
  intros H. unfold _world_bbox_min_max_z.
  assert (Hne : map vz (_world_bbox o) <> []).
  { unfold _world_bbox. destruct (bound_box o); [congruence | discriminate]. }
  destruct (py_min_total _ Hne) as [lo Hlo], (py_max_total _ Hne) as [hi Hhi].
  exists lo, hi. rewrite Hlo, Hhi. split; [reflexivity|].
  eapply py_min_le_max; eassumption.
Qed.

Lemma select_all_DESELECT_Ok (c : Context) :
  select_all_DESELECT c =
    Ok tt (with_objects (with_selected false <$> (refresh <$> objects c)) c).
Proof. reflexivity. Qed.

Lemma set_active_Ok (i : ident) (c : Context) :
  set_active i c = Ok tt (with_active (Some i) c).
Proof. reflexivity. Qed.

Ltac run_deref :=
  erewrite bind_Ok;
  [| apply deref_Ok; cbn [objects with_objects];
     first [ eassumption
           | apply lookup_insert_eq
           | rewrite lookup_insert_ne by congruence; eassumption ] ].

Lemma align_distinct (flat cube : ident) (c : Context) (f0 q0 : Object) (lo hi lo' hi' : R) :
  flat <> cube ->
  objects c !! flat = Some f0 ->
  objects c !! cube = Some q0 ->
  _world_bbox_min_max_z q0 = inr (lo, hi) ->
  _world_bbox_min_max_z f0 = inr (lo', hi') ->
  exists c1 f1,
    PlaceSvgOnCubeTopJoin_align flat cube c = Ok tt c1 /\
    objects c1 !! flat = Some f1 /\
    objects c1 !! cube = Some (with_selected true (refresh q0)) /\
    placed f0 f1
      (mkVector ((_world_bbox_center_xy q0).1 - (_world_bbox_center_xy f0).1)
                ((_world_bbox_center_xy q0).2 - (_world_bbox_center_xy f0).2)
                (hi - lo')) /\
    (forall j, j <> flat -> j <> cube ->
        objects c1 !! j = (fun o => with_selected false (refresh o)) <$> objects c !! j) /\
    active c1 = Some cube /\
    cylsvg_props c1 = cylsvg_props c /\
    reports c1 = reports c.
Proof.
  intros Hne Hf Hq Hzq Hzf. unfold PlaceSvgOnCubeTopJoin_align.
  do 2 run_deref.
  rewrite (bind_Ok _ _ _ _ _ (move_by_Ok _ _ _ _ _ _ Hf)).
  run_deref. rewrite Hzq. rewrite (bind_Ok _ _ _ _ _ (lift_inr _ _)).
  run_deref.
  change (_world_bbox_min_max_z (add_location_z ?a (add_location_y ?b (add_location_x ?d f0))))
    with (_world_bbox_min_max_z f0).
  rewrite Hzf. rewrite (bind_Ok _ _ _ _ _ (lift_inr _ _)).
  erewrite bind_Ok; [| apply move_by_Ok; cbn [objects with_objects]; apply lookup_insert_eq].
  rewrite (bind_Ok _ _ _ _ _ (select_all_DESELECT_Ok _)).
  cbn [objects with_objects active cylsvg_props reports].
  rewrite insert_insert_eq, !fmap_insert.
  erewrite bind_Ok;
    [| apply update_obj_Ok; cbn [objects with_objects];
       rewrite lookup_insert_ne by congruence; rewrite !lookup_fmap, Hq; reflexivity].
  erewrite bind_Ok;
    [| apply update_obj_Ok; cbn [objects with_objects];
       rewrite lookup_insert_ne by congruence; apply lookup_insert_eq].
  rewrite set_active_Ok.
  eexists _, _. split; [reflexivity|].
  cbn [objects with_objects with_active active cylsvg_props reports].
  split; [apply lookup_insert_eq|].
  split; [rewrite lookup_insert_ne by congruence; rewrite lookup_insert_eq; reflexivity|].
  split.
  { unfold placed; cbn. repeat split; try reflexivity. unfold vadd; cbn; f_equal; lra. }
  split; [|repeat split].
  intros j Hjf Hjc. rewrite !lookup_insert_ne by congruence.
  rewrite !lookup_fmap. destruct (objects c !! j); reflexivity.
Qed.

Lemma align_alias (i : ident) (c : Context) (f0 : Object) (lo hi : R) :
  objects c !! i = Some f0 ->
  _world_bbox_min_max_z f0 = inr (lo, hi) ->
  exists c1 f1,
    PlaceSvgOnCubeTopJoin_align i i c = Ok tt c1 /\
    objects c1 !! i = Some f1 /\
    placed f0 f1 (mkVector 0 0 (hi - lo)) /\
    (forall j, j <> i ->
        objects c1 !! j = (fun o => with_selected false (refresh o)) <$> objects c !! j) /\
    active c1 = Some i /\
    cylsvg_props c1 = cylsvg_props c /\
    reports c1 = reports c.
Proof.
  intros Hf Hz. unfold PlaceSvgOnCubeTopJoin_align.
  do 2 run_deref.
  rewrite (bind_Ok _ _ _ _ _ (move_by_Ok _ _ _ _ _ _ Hf)).
  run_deref.
  change (_world_bbox_min_max_z (add_location_z ?a (add_location_y ?b (add_location_x ?d f0))))
    with (_world_bbox_min_max_z f0).
  rewrite Hz. rewrite (bind_Ok _ _ _ _ _ (lift_inr _ _)).
  run_deref.
  change (_world_bbox_min_max_z (add_location_z ?a (add_location_y ?b (add_location_x ?d f0))))
    with (_world_bbox_min_max_z f0).
  rewrite Hz. rewrite (bind_Ok _ _ _ _ _ (lift_inr _ _)).
  erewrite bind_Ok; [| apply move_by_Ok; cbn [objects with_objects]; apply lookup_insert_eq].
  rewrite (bind_Ok _ _ _ _ _ (select_all_DESELECT_Ok _)).
  cbn [objects with_objects active cylsvg_props reports].
  rewrite insert_insert_eq, !fmap_insert.
  erewrite bind_Ok;
    [| apply update_obj_Ok; cbn [objects with_objects]; apply lookup_insert_eq].
  erewrite bind_Ok;
    [| apply update_obj_Ok; cbn [objects with_objects]; apply lookup_insert_eq].
  rewrite set_active_Ok.
  eexists _, _. split; [reflexivity|].
  cbn [objects with_objects with_active active cylsvg_props reports].
  split; [apply lookup_insert_eq|].
  split.
  { unfold placed; cbn. repeat split; try reflexivity. unfold vadd; cbn; f_equal; lra. }
  split; [|repeat split].
  intros j Hj. rewrite !lookup_insert_ne by congruence.
  rewrite !lookup_fmap. destruct (objects c !! j); reflexivity.
Qed.

(** ** The pre-scaling block *)

Lemma chord_ratio_range (W Rm : R) :
  W > 0 -> W < 2 * Rm -> 0 < W / (2 * Rm) < 1.
Proof.
  intros HW HR. assert (H2 : 0 < 2 * Rm) by lra.
  split.
  - apply Rdiv_lt_0_compat; lra.
  - apply (Rmult_lt_reg_r (2 * Rm)); [exact H2|].
    unfold Rdiv. rewrite Rmult_assoc, Rinv_l by lra. lra.
Qed.

Lemma py_div_pos (a b : R) : 0 < b -> py_div a b = inr (a / b).
Proof. intros H. unfold py_div. rewrite bool_decide_eq_false_2 by lra. reflexivity. Qed.

Lemma py_asin_unit (x : R) : -1 <= x <= 1 -> py_asin x = inr (asin x).
Proof.
  intros [H1 H2]. unfold py_asin.
  now rewrite !bool_decide_eq_true_2 by assumption.
Qed.

Lemma prescale_with_skip asin_ div_ (flat : ident) (c : Context) :
  ~ width_guard (cylsvg_props c) ->
  prescale_with asin_ div_ flat c = Ok tt c.
Proof.
  intros H. unfold prescale_with, props, bind at 1 2, get, ret.
  destruct (preserve_apparent_width (cylsvg_props c)) eqn:Ep; [|reflexivity].
  cbn [andb]. case_bool_decide as HW; [|reflexivity].
  case_bool_decide as HR; [|reflexivity].
  case_bool_decide as HR'; [|reflexivity].
  exfalso. apply H. unfold width_guard. auto.
Qed.

Lemma prescale_with_guarded asin_ div_ (flat : ident) (c : Context) (f0 : Object)
      (q a k cur_X sy sz : R) :
  let p := cylsvg_props c in
  let Rm := _to_meters (cyl_outer_r p) (Some (cyl_unit p)) in
  width_guard p ->
  div_ (svg_orig_x p) (2 * Rm) = inr q ->
  asin_ q = inr a ->
  objects c !! flat = Some f0 ->
  _world_bbox_size f0 = inr (cur_X, sy, sz) ->
  (cur_X > 0 -> div_ (2 * Rm * a) cur_X = inr k) ->
  prescale_with asin_ div_ flat c =
    if bool_decide (cur_X > 0)
    then Ok tt (with_objects (refresh <$> <[flat := scaled_x k f0]> (objects c)) c)
    else Ok tt c.
Proof.
  intros p Rm (Hp & HW & HR & HR') Hq Ha Hf Hsz Hk.
  unfold prescale_with, props, bind at 1 2, get, ret.
  fold p. fold Rm. rewrite Hp. cbn [andb].
  rewrite !bool_decide_eq_true_2 by assumption. cbn [andb].
  rewrite Hq. rewrite (bind_Ok _ _ _ _ _ (lift_inr _ _)).
  rewrite Ha. rewrite (bind_Ok _ _ _ _ _ (lift_inr _ _)).
  rewrite (bind_Ok _ _ _ _ _ (deref_Ok _ _ _ Hf)).
  rewrite Hsz. rewrite (bind_Ok _ _ _ _ _ (lift_inr _ _)).
  cbn [fst]. case_bool_decide as HX; [|reflexivity].
  rewrite (Hk HX). rewrite (bind_Ok _ _ _ _ _ (lift_inr _ _)).
  rewrite (bind_Ok _ _ _ _ _ (update_obj_Ok _ _ _ _ Hf)).
  reflexivity.
Qed.

Lemma map_nonempty {A B} (f : A -> B) (l : list A) : l <> [] -> map f l <> [].
Proof. destruct l; [congruence | discriminate]. Qed.

Lemma world_bbox_size_total (o : Object) :
  bound_box o <> [] ->
  exists sx sy sz, _world_bbox_size o = inr (sx, sy, sz) /\ 0 <= sx.
Proof.
  intros H. unfold _world_bbox_size.
  assert (Hne : _world_bbox o <> []) by (unfold _world_bbox; now apply map_nonempty).
  destruct (py_max_total _ (map_nonempty vx _ Hne)) as [hx Hhx].
  destruct (py_min_total _ (map_nonempty vx _ Hne)) as [lx Hlx].
  destruct (py_max_total _ (map_nonempty vy _ Hne)) as [hy Hhy].
  destruct (py_min_total _ (map_nonempty vy _ Hne)) as [ly Hly].
  destruct (py_max_total _ (map_nonempty vz _ Hne)) as [hz Hhz].
  destruct (py_min_total _ (map_nonempty vz _ Hne)) as [lz Hlz].
  rewrite Hhx, Hlx, Hhy, Hly, Hhz, Hlz. cbn [pbind].
  eexists _, _, _. split; [reflexivity|].
  pose proof (py_min_le_max _ _ _ Hlx Hhx). lra.
Qed.

(** With Python's operations the block never fails on a live flat object:
    it either leaves the scene alone or rescales the flat object in X and
    refreshes the world matrices. *)
Lemma prescale_cases (flat : ident) (c : Context) (f0 : Object) (cur_X sy sz : R) :
  let p := cylsvg_props c in
  let Rm := _to_meters (cyl_outer_r p) (Some (cyl_unit p)) in
  objects c !! flat = Some f0 ->
  _world_bbox_size f0 = inr (cur_X, sy, sz) ->
  PlaceSvgOnCubeTopJoin_prescale flat c =
    if bool_decide (width_guard p) && bool_decide (cur_X > 0)
    then Ok tt (with_objects
                  (refresh <$> <[flat := scaled_x (2 * Rm * asin (svg_orig_x p / (2 * Rm)) / cur_X) f0]>
                     (objects c)) c)
    else Ok tt c.
Proof.
  intros p Rm Hf Hsz. unfold PlaceSvgOnCubeTopJoin_prescale.
  case_bool_decide as HG; cbn [andb].
  - pose proof HG as (Hp & HW & HR & HR'). fold Rm in HR, HR'.
    pose proof (chord_ratio_range _ _ HW HR) as Hq.
    eapply prescale_with_guarded; try eassumption.
    + apply py_div_pos. fold p. fold Rm. lra.
    + apply py_asin_unit. fold p Rm. lra.
    + intros HX. fold p Rm. apply py_div_pos. lra.
  - now apply prescale_with_skip.
Qed.

(** ** Rules for [wp] *)

Lemma wp_bind {A B} (m : M A) (k : A -> M B) Q E (c : Context) :
  wp m (fun a c' => wp (k a) Q E c') E c -> wp (bind m k) Q E c.
Proof. unfold wp, bind. destruct (m c); auto. Qed.

Lemma wp_mono {A} (m : M A) (Q Q' : A -> Context -> Prop) (E E' : Exn -> Context -> Prop) c :
  wp m Q E c -> (forall a c', Q a c' -> Q' a c') -> (forall e c', E e c' -> E' e c') ->
  wp m Q' E' c.
Proof. unfold wp. destruct (m c); auto. Qed.

Lemma wp_ret {A} (a : A) Q E c : Q a c -> wp (ret a) Q E c.
Proof. auto. Qed.

Lemma wp_raise {A} (e : Exn) (Q : A -> Context -> Prop) E c : E e c -> wp (raise e) Q E c.
Proof. auto. Qed.

Lemma wp_get Q E c : Q c c -> wp get Q E c.
Proof. auto. Qed.

Lemma wp_modify (f : Context -> Context) Q E c : Q tt (f c) -> wp (modify f) Q E c.
Proof. auto. Qed.

Lemma wp_lift {A} (m : Partial A) (Q : A -> Context -> Prop) E c :
  match m with inl e => E e c | inr a => Q a c end -> wp (lift m) Q E c.
Proof. destruct m; auto. Qed.

Lemma wp_props Q E c : Q (cylsvg_props c) c -> wp props Q E c.
Proof. auto. Qed.

Lemma wp_deref (i : ident) Q E c :
  match objects c !! i with
  | Some o => Q o c
  | None => E ReferenceError c
  end -> wp (deref i) Q E c.
Proof. unfold wp, deref, bind, get, ret, raise. destruct (objects c !! i); auto. Qed.

Lemma wp_update_obj (i : ident) (f : Object -> Object) Q E c :
  match objects c !! i with
  | Some o => Q tt (with_objects (<[i := f o]> (objects c)) c)
  | None => E ReferenceError c
  end -> wp (update_obj i f) Q E c.
Proof.
  intros H. unfold update_obj. apply wp_bind, wp_deref.
  destruct (objects c !! i); auto.
Qed.

Lemma wp_try_pass (m : M unit) Q E c :
  wp m Q (fun _ c' => Q tt c') c -> wp (try_pass m) Q E c.
Proof. unfold wp, try_pass. destruct (m c) as [[] ?|]; auto. Qed.

Lemma wp_report l text args Q E c :
  Q tt (with_reports (reports c ++ [mkReport l text args]) c) -> wp (report l text args) Q E c.
Proof. auto. Qed.

(** A loop keeps an invariant that each round keeps. *)
Lemma wp_for_each {A} (l : list A) (body : A -> M unit) (I : Context -> Prop) E c :
  I c ->
  (forall a c0, I c0 -> wp (body a) (fun _ c' => I c') E c0) ->
  wp (for_each l body) (fun _ c' => I c') E c.
Proof.
  intros Hc Hbody. revert c Hc. induction l as [|a l IH]; intros c Hc; simpl.
  - exact Hc.
  - apply wp_bind. eapply wp_mono; [apply Hbody, Hc | | auto].
    intros ? c' Hc'. apply IH, Hc'.
Qed.

Lemma wp_Ok_inv {A} (m : M A) Q E c a c' : wp m Q E c -> m c = Ok a c' -> Q a c'.
Proof. unfold wp. intros H Hm. now rewrite Hm in H. Qed.

Lemma wp_Raise_inv {A} (m : M A) Q E c e c' : wp m Q E c -> m c = Raise e c' -> E e c'.
Proof. unfold wp. intros H Hm. now rewrite Hm in H. Qed.

Lemma wp_total {A} (m : M A) Q c :
  wp m Q (fun _ _ => False) c -> exists a c', m c = Ok a c' /\ Q a c'.
Proof. unfold wp. destruct (m c); [eauto | tauto]. Qed.

(** ** No arithmetic exception *)

Lemma py_min_error (l : list R) (e : Exn) : py_min l = inl e -> e = ValueError_empty_sequence.
Proof. destruct l; simpl; congruence. Qed.

Lemma py_max_error (l : list R) (e : Exn) : py_max l = inl e -> e = ValueError_empty_sequence.
Proof. destruct l; simpl; congruence. Qed.

Lemma min_max_z_error (o : Object) (e : Exn) :
  _world_bbox_min_max_z o = inl e -> e = ValueError_empty_sequence.
Proof.
  unfold _world_bbox_min_max_z.
  destruct (py_min _) eqn:E1; simpl; [intros [= <-]; eapply py_min_error, E1|].
  destruct (py_max _) eqn:E2; simpl; [intros [= <-]; eapply py_max_error, E2|].
  discriminate.
Qed.

Lemma world_bbox_size_error (o : Object) (e : Exn) :
  _world_bbox_size o = inl e -> e = ValueError_empty_sequence.
Proof.
  unfold _world_bbox_size.
  repeat
    match goal with
    | |- pbind ?m _ = _ -> _ =>
        destruct m eqn:?; simpl;
        [intros [= <-]; first [eapply py_max_error; eassumption | eapply py_min_error; eassumption]|]
    end.
  discriminate.
Qed.


Ltac wp_step :=
  lazymatch goal with
  | |- wp (bind _ _) _ _ _ => apply wp_bind
  | |- wp (ret _) _ _ _ => apply wp_ret
  | |- wp (raise _) _ _ _ => apply wp_raise
  | |- wp get _ _ _ => apply wp_get
  | |- wp props _ _ _ => apply wp_props
  | |- wp (modify _) _ _ _ => apply wp_modify
  | |- wp (deref _) _ _ _ => apply wp_deref
  | |- wp (update_obj _ _) _ _ _ => apply wp_update_obj
  | |- wp (report _ _ _) _ _ _ => apply wp_report
  | |- wp (lift _) _ _ _ => apply wp_lift
  | |- wp (try_pass _) _ _ _ => apply wp_try_pass
  | |- wp (set_active _) _ _ _ => apply wp_modify
  | |- wp (set_flat_obj _) _ _ _ => apply wp_modify
  | |- wp (set_cube_obj _) _ _ _ => apply wp_modify
  | |- wp view_layer_update _ _ _ => apply wp_modify
  | |- wp (bpy_ops _) _ _ _ => unfold bpy_ops
  | |- wp select_all_DESELECT _ _ _ => unfold select_all_DESELECT
  | |- wp (select_set_True _) _ _ _ => unfold select_set_True
  | |- wp (_move_by _ _ _ _) _ _ _ => unfold _move_by
  | |- wp (if ?b then _ else _) _ _ _ => destruct b eqn:?
  | |- wp (match ?x with _ => _ end) _ _ _ => destruct x eqn:?
  | |- match ?x with _ => _ end => destruct x eqn:?
  end.

Ltac arith_safe_side :=
  first
    [ exact I
    | split; discriminate
    | match goal with
      | H : _world_bbox_min_max_z _ = inl ?e |- arith_safe ?e _ =>
          rewrite (min_max_z_error _ _ H); split; discriminate
      | H : _world_bbox_size _ = inl ?e |- arith_safe ?e _ =>
          rewrite (world_bbox_size_error _ _ H); split; discriminate
      end ].

Lemma align_arith_safe (flat cube : ident) (c : Context) :
  wp (PlaceSvgOnCubeTopJoin_align flat cube) (fun _ _ => True) arith_safe c.
Proof.
  unfold PlaceSvgOnCubeTopJoin_align.
  repeat (wp_step; try arith_safe_side).
Qed.

Lemma join_arith_safe (c : Context) :
  wp PlaceSvgOnCubeTopJoin_join (fun _ _ => True) arith_safe c.
Proof.
  unfold PlaceSvgOnCubeTopJoin_join, join.
  repeat (wp_step; try arith_safe_side).
Qed.

Lemma prescale_arith_safe (flat : ident) (c : Context) :
  wp (PlaceSvgOnCubeTopJoin_prescale flat) (fun _ _ => True) arith_safe c.
Proof.
  unfold PlaceSvgOnCubeTopJoin_prescale, prescale_with.
  apply wp_bind, wp_props.
  destruct (preserve_apparent_width (cylsvg_props c) && bool_decide (svg_orig_x (cylsvg_props c) > 0))
    eqn:E1; [|exact I].
  apply andb_prop in E1 as [_ HW%bool_decide_eq_true_1].
  match goal with |- wp (if ?b then _ else _) _ _ _ => destruct b eqn:E2 end; [|exact I].
  apply andb_prop in E2 as [HR%bool_decide_eq_true_1 HR'%bool_decide_eq_true_1].
  pose proof (chord_ratio_range _ _ HW HR) as Hq.
  rewrite py_div_pos by lra. apply wp_bind, wp_lift.
  rewrite py_asin_unit by lra. apply wp_bind, wp_lift.
  apply wp_bind, wp_deref.
  destruct (objects c !! flat) as [o|]; [|split; discriminate].
  apply wp_bind, wp_lift.
  destruct (_world_bbox_size o) as [e|sz] eqn:Esz; [arith_safe_side|].
  case_bool_decide as HX; [|exact I].
  rewrite py_div_pos by lra.
  repeat (wp_step; try arith_safe_side).
Qed.

Lemma execute_arith_safe (c : Context) :
  wp PlaceSvgOnCubeTopJoin_execute (fun _ _ => True) arith_safe c.
Proof.
  unfold PlaceSvgOnCubeTopJoin_execute, PlaceSvgOnCubeTopJoin_place.
  apply wp_bind, wp_props.
  destruct (flat_obj (cylsvg_props c)) as [flat|];
    [destruct (cube_obj (cylsvg_props c)) as [cube|]|].
  - apply wp_bind, wp_bind.
    eapply wp_mono; [apply prescale_arith_safe| |auto].
    intros ? c1 _.
    eapply wp_mono; [apply align_arith_safe| |auto].
    intros ? c2 _. apply join_arith_safe.
  - repeat (wp_step; try arith_safe_side).
  - repeat (wp_step; try arith_safe_side).
Qed.

Lemma bind_ext {A B} (m : M A) (k k' : A -> M B) (c : Context) :
  (forall a c', k a c' = k' a c') -> bind m k c = bind m k' c.
Proof. intros H. unfold bind. destruct (m c); auto. Qed.

Lemma prescale_with_unfold asin_ div_ (flat : ident) (c : Context) :
  let p := cylsvg_props c in
  let Rm := _to_meters (cyl_outer_r p) (Some (cyl_unit p)) in
  width_guard p ->
  prescale_with asin_ div_ flat c =
    (q <- lift (div_ (svg_orig_x p) (2 * Rm)) ;;
     a <- lift (asin_ q) ;;
     o <- deref flat ;;
     sz <- lift (_world_bbox_size o) ;;
     if bool_decide (sz.1.1 > 0) then
       k <- lift (div_ (2 * Rm * a) sz.1.1) ;;
       update_obj flat (scaled_x k) ;;
       view_layer_update
     else ret tt) c.
Proof.
  intros p Rm (Hp & HW & HR & HR').
  unfold prescale_with, props, bind at 1 2, get, ret.
  fold p. fold Rm. rewrite Hp. cbn [andb].
  rewrite !bool_decide_eq_true_2 by assumption. reflexivity.
Qed.

Lemma prescale_with_agree asin' div' (flat : ident) (c : Context) :
  (forall x, 0 <= x < 1 -> asin' x = py_asin x) ->
  (forall a b, 0 < b -> div' a b = py_div a b) ->
  prescale_with asin' div' flat c = PlaceSvgOnCubeTopJoin_prescale flat c.
Proof.
  intros Hasin Hdiv. unfold PlaceSvgOnCubeTopJoin_prescale.
  destruct (decide (width_guard (cylsvg_props c))) as [HG|HG];
    [|now rewrite !prescale_with_skip].
  pose proof HG as (Hp & HW & HR & HR').
  pose proof (chord_ratio_range _ _ HW HR) as Hq.
  rewrite !prescale_with_unfold by assumption.
  rewrite Hdiv by lra. rewrite py_div_pos by lra.
  rewrite !(bind_Ok _ _ _ _ _ (lift_inr _ _)).
  rewrite Hasin by lra. rewrite py_asin_unit by lra.
  rewrite !(bind_Ok _ _ _ _ _ (lift_inr _ _)).
  apply bind_ext; intros o c'. apply bind_ext; intros sz c''.
  case_bool_decide as HX; [|reflexivity].
  now rewrite Hdiv by lra.
Qed.

(** C9: in the place-and-join operator the partial operations of the
    apparent-width block are always defined.  The block consults [asin]
    only on [[0, 1)] and divides only by positive numbers (replacing both
    operations outside these ranges changes nothing); there Python's
    operations return a value; under the guards the argument of [asin],
    [W / (2R)], lies in [[0, 1)]; and no run of the operator raises a math
    domain error or a division by zero. *)
Theorem place_join_partial_ops_defined (flat : ident) (c : Context) :
  (forall asin' div',
      (forall x, 0 <= x < 1 -> asin' x = py_asin x) ->
      (forall a b, 0 < b -> div' a b = py_div a b) ->
      prescale_with asin' div' flat c = PlaceSvgOnCubeTopJoin_prescale flat c) /\
  (forall x, 0 <= x < 1 -> py_asin x = inr (asin x)) /\
  (forall a b, 0 < b -> py_div a b = inr (a / b)) /\
  (width_guard (cylsvg_props c) ->
     0 <= svg_orig_x (cylsvg_props c) /
          (2 * _to_meters (cyl_outer_r (cylsvg_props c)) (Some (cyl_unit (cylsvg_props c)))) < 1) /\
  wp PlaceSvgOnCubeTopJoin_execute (fun _ _ => True)
     (fun e _ => e <> ValueError_math_domain /\ e <> ZeroDivisionError) c.
Proof.
  split; [intros; now apply prescale_with_agree|].
  split; [intros x Hx; apply py_asin_unit; lra|].
  split; [intros a b Hb; now apply py_div_pos|].
  split; [|apply execute_arith_safe].
  intros (_ & HW & HR & _). pose proof (chord_ratio_range _ _ HW HR). lra.
Qed.

(** ** The scene before the join *)

Lemma align_total (flat cube : ident) (c : Context) (f0 q0 : Object) :
  objects c !! flat = Some f0 ->
  objects c !! cube = Some q0 ->
  bound_box f0 <> [] ->
  bound_box q0 <> [] ->
  exists c1 f1 d,
    PlaceSvgOnCubeTopJoin_align flat cube c = Ok tt c1 /\
    objects c1 !! flat = Some f1 /\
    placed f0 f1 d /\
    is_Some (objects c1 !! cube) /\
    active c1 = Some cube /\
    cylsvg_props c1 = cylsvg_props c /\
    reports c1 = reports c.
Proof.
  intros Hf Hq Hbf Hbq.
  destruct (min_max_z_total _ Hbf) as (lo' & hi' & Hzf & _).
  destruct (min_max_z_total _ Hbq) as (lo & hi & Hzq & _).
  destruct (decide (flat = cube)) as [<-|Hne].
  - destruct (align_alias _ _ _ _ _ Hf Hzf) as (c1 & f1 & Hrun & Hf1 & Hpl & _ & Ha & Hp & Hr).
    exists c1, f1. eexists. split; [exact Hrun|]. split; [exact Hf1|].
    split; [exact Hpl|]. repeat split; eauto.
  - destruct (align_distinct _ _ _ _ _ _ _ _ _ Hne Hf Hq Hzq Hzf)
      as (c1 & f1 & Hrun & Hf1 & Hq1 & Hpl & _ & Ha & Hp & Hr).
    exists c1, f1. eexists. split; [exact Hrun|]. split; [exact Hf1|].
    split; [exact Hpl|]. repeat split; eauto.
Qed.

Lemma world_bbox_size_nonempty (o : Object) (s : R * R * R) :
  _world_bbox_size o = inr s -> bound_box o <> [].
Proof.
  unfold _world_bbox_size, _world_bbox. destruct (bound_box o); [discriminate|].
  intros _; discriminate.
Qed.

Lemma execute_place_join (c : Context) (flat cube : ident) (c1 : Context) :
  flat_obj (cylsvg_props c) = Some flat ->
  cube_obj (cylsvg_props c) = Some cube ->
  PlaceSvgOnCubeTopJoin_place flat cube c = Ok tt c1 ->
  PlaceSvgOnCubeTopJoin_execute c = PlaceSvgOnCubeTopJoin_join c1.
Proof.
  intros Hf Hq Hrun. unfold PlaceSvgOnCubeTopJoin_execute, props, bind at 1 2, get, ret.
  rewrite Hf, Hq. now rewrite (bind_Ok _ _ _ _ _ Hrun).
Qed.

Lemma store_orig_x_Ok (flat : ident) (c : Context) (o : Object) (w h d : R) :
  objects c !! flat = Some o ->
  _world_bbox_size o = inr (w, h, d) ->
  ImportSVG_store_orig_x flat c = Ok tt (with_props (with_svg_orig_x w (cylsvg_props c)) c).
Proof.
  intros Ho Hs. unfold ImportSVG_store_orig_x.
  rewrite (bind_Ok _ _ _ _ _ (deref_Ok _ _ _ Ho)), Hs.
  now rewrite (bind_Ok _ _ _ _ _ (lift_inr _ _)).
Qed.

Lemma chord_of_target (W Rm : R) :
  W > 0 -> W < 2 * Rm ->
  2 * Rm * sin (2 * Rm * asin (W / (2 * Rm)) / (2 * Rm)) = W.
Proof.
  intros HW HR. pose proof (chord_ratio_range _ _ HW HR) as Hq.
  replace (2 * Rm * asin (W / (2 * Rm)) / (2 * Rm)) with (asin (W / (2 * Rm)))
    by (field; lra).
  rewrite sin_asin by lra. field. lra.
Qed.

(** Everything up to the join runs to the end on live objects; the flat
    object keeps its geometry, rotation and Y/Z scale, and its X scale is
    multiplied exactly when the guards and a positive current width allow. *)
Lemma place_total (flat cube : ident) (c : Context) (f q : Object) (cur_X sy sz : R) :
  let p := cylsvg_props c in
  let Rm := _to_meters (cyl_outer_r p) (Some (cyl_unit p)) in
  objects c !! flat = Some f ->
  objects c !! cube = Some q ->
  bound_box q <> [] ->
  _world_bbox_size f = inr (cur_X, sy, sz) ->
  exists c1 f1,
    PlaceSvgOnCubeTopJoin_place flat cube c = Ok tt c1 /\
    objects c1 !! flat = Some f1 /\
    scale f1 =
      (if bool_decide (width_guard p) && bool_decide (cur_X > 0)
       then scale (scaled_x (2 * Rm * asin (svg_orig_x p / (2 * Rm)) / cur_X) f)
       else scale f) /\
    bound_box f1 = bound_box f /\
    rotation f1 = rotation f /\
    name f1 = name f /\
    type f1 = type f /\
    modifiers f1 = modifiers f /\
    is_Some (objects c1 !! cube) /\
    active c1 = Some cube /\
    cylsvg_props c1 = cylsvg_props c /\
    reports c1 = reports c.
Proof.
  intros p Rm Hf Hq Hbq Hsz.
  pose proof (world_bbox_size_nonempty _ _ Hsz) as Hbf.
  unfold PlaceSvgOnCubeTopJoin_place.
  pose proof (prescale_cases flat c f cur_X sy sz Hf Hsz) as Hpre.
  cbv zeta in Hpre. fold p in Hpre. fold Rm in Hpre.
  destruct (bool_decide (width_guard p) && bool_decide (cur_X > 0));
    rewrite (bind_Ok _ _ _ _ _ Hpre).
  - set (K := 2 * Rm * asin (svg_orig_x p / (2 * Rm)) / cur_X).
    set (c0 := with_objects _ c).
    assert (Hf0 : objects c0 !! flat = Some (refresh (scaled_x K f))).
    { subst c0; cbn [objects with_objects]. now rewrite lookup_fmap, lookup_insert_eq. }
    assert (Hq0 : exists q0, objects c0 !! cube = Some q0 /\ bound_box q0 <> []).
    { destruct (decide (cube = flat)) as [->|Hne]; [eauto|].
      exists (refresh q). subst c0; cbn [objects with_objects].
      rewrite lookup_fmap, lookup_insert_ne by congruence. now rewrite Hq. }
    destruct Hq0 as (q0 & Hq0 & Hbq0).
    destruct (align_total flat cube c0 _ _ Hf0 Hq0 Hbf Hbq0)
      as (c1 & f1 & d & Hrun & Hf1 & Hpl & Hq1 & Ha & Hp & Hr).
    destruct Hpl as (_ & _ & Hb & Hro & Hs & Hn & Ht & Hm & _).
    exists c1, f1. repeat split; assumption.
  - destruct (align_total flat cube c _ _ Hf Hq Hbf Hbq)
      as (c1 & f1 & d & Hrun & Hf1 & Hpl & Hq1 & Ha & Hp & Hr).
    destruct Hpl as (_ & _ & Hb & Hro & Hs & Hn & Ht & Hm & _).
    exists c1, f1. repeat split; assumption.
Qed.

(** C2: when the flag is set, [0 < W < 2R], [R > 0] and the flat object's
    current world-bbox X width is positive, the operator has, by the time
    of the join, multiplied the flat object's X scale by
    [2R asin(W / 2R) / cur_X] and left its Y and Z scale alone; that
    target arc length has chord [W]; and [W] is what the import operator
    stores: the X width of the flat object's world bounding box. *)
Theorem place_scales_x_by_arc_over_width
    (flat cube : ident) (c : Context) (f q : Object) (cur_X sy sz : R) :
  let p := cylsvg_props c in
  let Rm := _to_meters (cyl_outer_r p) (Some (cyl_unit p)) in
  let W := svg_orig_x p in
  flat_obj p = Some flat ->
  cube_obj p = Some cube ->
  objects c !! flat = Some f ->
  objects c !! cube = Some q ->
  bound_box q <> [] ->
  _world_bbox_size f = inr (cur_X, sy, sz) ->
  preserve_apparent_width p = true ->
  0 < W < 2 * Rm ->
  Rm > 0 ->
  cur_X > 0 ->
  (exists c1 f1,
      PlaceSvgOnCubeTopJoin_place flat cube c = Ok tt c1 /\
      PlaceSvgOnCubeTopJoin_execute c = PlaceSvgOnCubeTopJoin_join c1 /\
      objects c1 !! flat = Some f1 /\
      scale f1 = mkVector (vx (scale f) * (2 * Rm * asin (W / (2 * Rm)) / cur_X))
                          (vy (scale f)) (vz (scale f))) /\
  2 * Rm * sin (2 * Rm * asin (W / (2 * Rm)) / (2 * Rm)) = W /\
  (forall c' o w h d,
      objects c' !! flat = Some o ->
      _world_bbox_size o = inr (w, h, d) ->
      exists c'', ImportSVG_store_orig_x flat c' = Ok tt c'' /\
                  svg_orig_x (cylsvg_props c'') = w).
Proof.
  intros p Rm W Hfo Hco Hf Hq Hbq Hsz Hp [HW HR] HR' HX.
  split; [|split].
  - destruct (place_total flat cube c f q cur_X sy sz Hf Hq Hbq Hsz)
      as (c1 & f1 & Hrun & Hf1 & Hs & _).
    exists c1, f1. repeat split; try assumption.
    + now apply (execute_place_join c flat cube).
    + rewrite Hs. fold p. rewrite !bool_decide_eq_true_2; [reflexivity|assumption|].
      unfold width_guard. fold Rm. fold W. auto.
  - apply chord_of_target; assumption.
  - intros c' o w h d Ho Hs. eexists. split; [eapply store_orig_x_Ok; eassumption|].
    reflexivity.
Qed.

(** ** What an operation leaves as it was *)

Section Preserves.

Context (Rel : Context -> Context -> Prop).
Context (Rel_refl : forall c, Rel c c).
Context (Rel_trans : forall c1 c2 c3, Rel c1 c2 -> Rel c2 c3 -> Rel c1 c3).

Lemma preserves_bind {A B} (m : M A) (k : A -> M B) :
  preserves Rel m -> (forall a, preserves Rel (k a)) -> preserves Rel (bind m k).
Proof.
  intros Hm Hk c. apply wp_bind.
  eapply wp_mono; [apply Hm | | auto].
  intros a c' Hc'.
  eapply wp_mono; [apply Hk | |]; intros ? c'' Hc''; exact (Rel_trans _ _ _ Hc' Hc'').
Qed.

Lemma preserves_ret {A} (a : A) : preserves Rel (ret a).
Proof. intros c. apply Rel_refl. Qed.

Lemma preserves_raise {A} (e : Exn) : preserves Rel (@raise A e).
Proof. intros c. apply Rel_refl. Qed.

Lemma preserves_get : preserves Rel get.
Proof. intros c. apply Rel_refl. Qed.

Lemma preserves_props : preserves Rel props.
Proof. intros c. apply Rel_refl. Qed.

Lemma preserves_lift {A} (m : Partial A) : preserves Rel (lift m).
Proof. intros c. destruct m; apply Rel_refl. Qed.

Lemma preserves_modify (f : Context -> Context) :
  (forall c, Rel c (f c)) -> preserves Rel (modify f).
Proof. intros H c. apply H. Qed.

Lemma preserves_deref (i : ident) : preserves Rel (deref i).
Proof. intros c. apply wp_deref. destruct (objects c !! i); apply Rel_refl. Qed.

Lemma preserves_update_obj (i : ident) (f : Object -> Object) :
  (forall c m, Rel c (with_objects m c)) -> preserves Rel (update_obj i f).
Proof. intros H c. apply wp_update_obj. destruct (objects c !! i); auto. Qed.

Lemma preserves_try_pass (m : M unit) : preserves Rel m -> preserves Rel (try_pass m).
Proof. intros H c. apply wp_try_pass. apply H. Qed.

Lemma preserves_for_each {A} (l : list A) (body : A -> M unit) :
  (forall a, preserves Rel (body a)) -> preserves Rel (for_each l body).
Proof.
  intros H. induction l as [|a l IH]; simpl.
  - apply preserves_ret.
  - apply preserves_bind; auto.
Qed.

End Preserves.

Lemma settings_kept_refl (c : Context) : settings_kept c c.
Proof. repeat split. Qed.

Lemma settings_kept_trans (c1 c2 c3 : Context) :
  settings_kept c1 c2 -> settings_kept c2 c3 -> settings_kept c1 c3.
Proof. unfold settings_kept. intuition congruence. Qed.

Ltac preserves_step Hrefl Htrans :=
  lazymatch goal with
  | |- preserves _ (bind _ _) => apply preserves_bind; [exact Htrans | | intros ?]
  | |- preserves _ (ret _) => apply preserves_ret; exact Hrefl
  | |- preserves _ (raise _) => apply preserves_raise; exact Hrefl
  | |- preserves _ get => apply preserves_get; exact Hrefl
  | |- preserves _ props => apply preserves_props; exact Hrefl
  | |- preserves _ (lift _) => apply preserves_lift; exact Hrefl
  | |- preserves _ (deref _) => apply preserves_deref; exact Hrefl
  | |- preserves _ (update_obj _ _) => apply preserves_update_obj; [exact Hrefl|]
  | |- preserves _ (modify _) => apply preserves_modify
  | |- preserves _ (try_pass _) => apply preserves_try_pass
  | |- preserves _ (for_each _ _) =>
      apply preserves_for_each; [exact Hrefl | exact Htrans | intros ?]
  | |- preserves _ (report _ _ _) => apply preserves_modify
  | |- preserves _ (set_active _) => apply preserves_modify
  | |- preserves _ (set_flat_obj _) => apply preserves_modify
  | |- preserves _ (set_cube_obj _) => apply preserves_modify
  | |- preserves _ view_layer_update => apply preserves_modify
  | |- preserves _ (bpy_ops _) => unfold bpy_ops
  | |- preserves _ select_all_DESELECT => unfold select_all_DESELECT
  | |- preserves _ (select_set_True _) => unfold select_set_True
  | |- preserves _ (_move_by _ _ _ _) => unfold _move_by
  | |- preserves _ (if ?b then _ else _) => destruct b
  | |- preserves _ (match ?x with _ => _ end) => destruct x
  end.

Ltac settings_go :=
  repeat (preserves_step settings_kept_refl settings_kept_trans);
  try (intros; repeat split).

Lemma execute_settings_kept : preserves settings_kept PlaceSvgOnCubeTopJoin_execute.
Proof.
  unfold PlaceSvgOnCubeTopJoin_execute, PlaceSvgOnCubeTopJoin_place,
    PlaceSvgOnCubeTopJoin_prescale, prescale_with, PlaceSvgOnCubeTopJoin_align,
    PlaceSvgOnCubeTopJoin_join, join.
  settings_go.
Qed.

(** ** Where the flat object ends up *)

Lemma world_bbox_selected (v : bool) (o : Object) :
  _world_bbox (with_selected v o) = _world_bbox o.
Proof. reflexivity. Qed.

Lemma world_bbox_refresh (o : Object) :
  matrix_world o = world_matrix_of o -> _world_bbox (refresh o) = _world_bbox o.
Proof. intros H. now rewrite (refresh_evaluated o H). Qed.

Lemma center_xy_ext (o o' : Object) :
  _world_bbox o = _world_bbox o' -> _world_bbox_center_xy o = _world_bbox_center_xy o'.
Proof. unfold _world_bbox_center_xy. now intros ->. Qed.

Lemma min_max_z_ext (o o' : Object) :
  _world_bbox o = _world_bbox o' -> _world_bbox_min_max_z o = _world_bbox_min_max_z o'.
Proof. unfold _world_bbox_min_max_z. now intros ->. Qed.

Lemma align_geometry (flat cube : ident) (c : Context) (f0 q0 : Object) :
  flat <> cube ->
  objects c !! flat = Some f0 ->
  objects c !! cube = Some q0 ->
  length (bound_box f0) = 8%nat ->
  length (bound_box q0) = 8%nat ->
  matrix_world f0 = world_matrix_of f0 ->
  matrix_world q0 = world_matrix_of q0 ->
  exists c1 f1 q1 lo hi lo' hi',
    PlaceSvgOnCubeTopJoin_align flat cube c = Ok tt c1 /\
    objects c1 !! flat = Some f1 /\
    objects c1 !! cube = Some q1 /\
    _world_bbox_center_xy f1 = _world_bbox_center_xy q1 /\
    _world_bbox_min_max_z f1 = inr (lo, hi) /\
    _world_bbox_min_max_z q1 = inr (lo', hi') /\
    lo = hi'.
Proof.
  intros Hne Hf Hq Hlf Hlq Hef Heq.
  assert (Hbf : bound_box f0 <> []) by (destruct (bound_box f0); [discriminate | congruence]).
  assert (Hbq : bound_box q0 <> []) by (destruct (bound_box q0); [discriminate | congruence]).
  destruct (min_max_z_total _ Hbf) as (lo' & hi' & Hzf & _).
  destruct (min_max_z_total _ Hbq) as (lo & hi & Hzq & _).
  destruct (align_distinct _ _ _ _ _ _ _ _ _ Hne Hf Hq Hzq Hzf)
    as (c1 & f1 & Hrun & Hf1 & Hq1 & Hpl & _).
  destruct Hpl as (Hloc & Hmw & Hb & Hro & Hs & _).
  pose proof (world_bbox_moved f0 f1 _ Hef Hmw Hb Hro Hs Hloc) as Hwb.
  assert (Hwq : _world_bbox (with_selected true (refresh q0)) = _world_bbox q0).
  { rewrite world_bbox_selected. now apply world_bbox_refresh. }
  exists c1, f1, (with_selected true (refresh q0)).
  exists (lo' + (hi - lo')), (hi' + (hi - lo')), lo, hi.
  split; [exact Hrun|]. split; [exact Hf1|]. split; [exact Hq1|].
  split; [|split; [|split]].
  - rewrite (center_xy_shift f0 f1 _ Hlf Hwb), (center_xy_ext _ _ Hwq). cbn [vx vy].
    destruct (_world_bbox_center_xy q0), (_world_bbox_center_xy f0); cbn [fst snd].
    f_equal; lra.
  - apply (min_max_z_shift f0 f1 _ lo' hi' Hwb Hzf).
  - rewrite (min_max_z_ext _ _ Hwq). exact Hzq.
  - lra.
Qed.

Lemma length8_nonempty {A} (l : list A) : length l = 8%nat -> l <> [].
Proof. destruct l; [discriminate | congruence]. Qed.

(** C5, for distinct objects: if both references are set and denote two
    different live objects of an evaluated scene, then in the scene the
    host's join receives the flat object's world-bbox XY centre is the
    cube's, and the flat object's lowest world Z is the cube's highest. *)
Theorem place_centres_flat_on_cube_top (flat cube : ident) (c : Context) :
  flat_obj (cylsvg_props c) = Some flat ->
  cube_obj (cylsvg_props c) = Some cube ->
  flat <> cube ->
  live c flat ->
  live c cube ->
  evaluated c ->
  exists c1 f1 q1 lo hi lo' hi',
    PlaceSvgOnCubeTopJoin_place flat cube c = Ok tt c1 /\
    PlaceSvgOnCubeTopJoin_execute c = PlaceSvgOnCubeTopJoin_join c1 /\
    objects c1 !! flat = Some f1 /\
    objects c1 !! cube = Some q1 /\
    _world_bbox_center_xy f1 = _world_bbox_center_xy q1 /\
    _world_bbox_min_max_z f1 = inr (lo, hi) /\
    _world_bbox_min_max_z q1 = inr (lo', hi') /\
    lo = hi'.
Proof.
  intros Hfo Hco Hne (f & Hf & Hlf) (q & Hq & Hlq) Hev.
  pose proof (Hev _ _ Hf) as Hef. pose proof (Hev _ _ Hq) as Heq.
  destruct (world_bbox_size_total f (length8_nonempty _ Hlf)) as (cur_X & sy & sz & Hsz & _).
  pose proof (prescale_cases flat c f cur_X sy sz Hf Hsz) as Hpre. cbv zeta in Hpre.
  assert (Hgeo : exists c0 f0 q0,
             PlaceSvgOnCubeTopJoin_prescale flat c = Ok tt c0 /\
             objects c0 !! flat = Some f0 /\ objects c0 !! cube = Some q0 /\
             length (bound_box f0) = 8%nat /\ length (bound_box q0) = 8%nat /\
             matrix_world f0 = world_matrix_of f0 /\ matrix_world q0 = world_matrix_of q0).
  { destruct (bool_decide _ && bool_decide _).
    - eexists _, _, _. split; [exact Hpre|]. cbn [objects with_objects].
      split; [rewrite lookup_fmap, lookup_insert_eq; reflexivity|].
      split; [rewrite lookup_fmap, lookup_insert_ne, Hq by congruence; reflexivity|].
      repeat split; assumption.
    - exists c, f, q. repeat split; assumption. }
  destruct Hgeo as (c0 & f0 & q0 & Hrun0 & Hf0 & Hq0 & Hlf0 & Hlq0 & Hef0 & Heq0).
  destruct (align_geometry flat cube c0 f0 q0 Hne Hf0 Hq0 Hlf0 Hlq0 Hef0 Heq0)
    as (c1 & f1 & q1 & lo & hi & lo' & hi' & Hrun & Hrest).
  assert (Hplace : PlaceSvgOnCubeTopJoin_place flat cube c = Ok tt c1).
  { unfold PlaceSvgOnCubeTopJoin_place. now rewrite (bind_Ok _ _ _ _ _ Hrun0). }
  exists c1, f1, q1, lo, hi, lo', hi'.
  split; [exact Hplace|]. split; [now apply (execute_place_join c flat cube)|].
  exact Hrest.
Qed.

(** C7: with the flag off, or without a positive stored width, the
    operator leaves the flat object's scale (and its rotation and
    geometry) as it was; it moves the object.  And no run of the operator,
    however it ends, changes a settings field other than the two object
    references. *)
Theorem place_without_flag_keeps_scale (flat cube : ident) (c : Context) (f q : Object) :
  flat_obj (cylsvg_props c) = Some flat ->
  cube_obj (cylsvg_props c) = Some cube ->
  objects c !! flat = Some f ->
  objects c !! cube = Some q ->
  bound_box f <> [] ->
  bound_box q <> [] ->
  preserve_apparent_width (cylsvg_props c) = false \/ ~ svg_orig_x (cylsvg_props c) > 0 ->
  (exists c1 f1,
      PlaceSvgOnCubeTopJoin_place flat cube c = Ok tt c1 /\
      PlaceSvgOnCubeTopJoin_execute c = PlaceSvgOnCubeTopJoin_join c1 /\
      objects c1 !! flat = Some f1 /\
      scale f1 = scale f /\
      rotation f1 = rotation f /\
      bound_box f1 = bound_box f /\
      cylsvg_props c1 = cylsvg_props c) /\
  (forall c0 : Context,
      match PlaceSvgOnCubeTopJoin_execute c0 with
      | Ok _ c' => settings_kept c0 c'
      | Raise _ c' => settings_kept c0 c'
      end).
Proof.
  intros Hfo Hco Hf Hq Hbf Hbq Hoff. split; [|exact execute_settings_kept].
  destruct (world_bbox_size_total f Hbf) as (cur_X & sy & sz & Hsz & _).
  destruct (place_total flat cube c f q cur_X sy sz Hf Hq Hbq Hsz)
    as (c1 & f1 & Hrun & Hf1 & Hs & Hb & Hro & _ & _ & _ & _ & _ & Hp & _).
  exists c1, f1. repeat split; try assumption.
  - now apply (execute_place_join c flat cube).
  - rewrite Hs. rewrite (bool_decide_eq_false_2 (width_guard _)); [reflexivity|].
    intros (Hp' & HW & _). destruct Hoff as [Hoff|Hoff]; [congruence | contradiction].
Qed.

(** ** The arc is longer than its chord *)

Lemma asin_gt_id (x : R) : 0 < x < 1 -> x < asin x.
Proof.
  intros [H0 H1].
  assert (Hs : sin (asin x) = x) by (apply sin_asin; lra).
  pose proof (asin_bound x) as [Hlo Hhi].
  pose proof PI2_RGT_0 as HPI.
  destruct (Rlt_le_dec 0 (asin x)) as [Hpos|Hneg].
  - pose proof (sin_lt_x _ Hpos). lra.
  - exfalso. destruct (Req_dec (asin x) 0) as [Hz|Hnz].
    + rewrite Hz, sin_0 in Hs. lra.
    + assert (sin (asin x) < 0) by (apply sin_lt_0_var; lra). lra.
Qed.

Lemma arc_over_chord_gt_1 (W Rm : R) :
  W > 0 -> W < 2 * Rm -> 1 < 2 * Rm * asin (W / (2 * Rm)) / W.
Proof.
  intros HW HR. pose proof (chord_ratio_range _ _ HW HR) as Hq.
  pose proof (asin_gt_id _ Hq) as Ha.
  assert (HW' : W = 2 * Rm * (W / (2 * Rm))) by (field; lra).
  assert (Hlt : W < 2 * Rm * asin (W / (2 * Rm))).
  { rewrite HW' at 1. apply Rmult_lt_compat_l; lra. }
  apply (Rmult_lt_reg_r W); [lra|].
  replace (2 * Rm * asin (W / (2 * Rm)) / W * W) with (2 * Rm * asin (W / (2 * Rm)))
    by (field; lra).
  lra.
Qed.

(** C3, as the code has it: under the conditions of the claim (flag set,
    [0 < W < 2R], [R > 0], current width equal to [W]) the operator
    multiplies the flat object's X scale by [2R asin(W / 2R) / W], and this
    multiplier is greater than 1: the flat object is stretched to the arc
    whose chord is [W]. *)
Theorem place_multiplier_at_least_one
    (flat cube : ident) (c : Context) (f q : Object) (sy sz : R) :
  let p := cylsvg_props c in
  let Rm := _to_meters (cyl_outer_r p) (Some (cyl_unit p)) in
  let W := svg_orig_x p in
  objects c !! flat = Some f ->
  objects c !! cube = Some q ->
  bound_box q <> [] ->
  _world_bbox_size f = inr (W, sy, sz) ->
  preserve_apparent_width p = true ->
  0 < W < 2 * Rm ->
  Rm > 0 ->
  exists c1 f1 k,
    PlaceSvgOnCubeTopJoin_place flat cube c = Ok tt c1 /\
    objects c1 !! flat = Some f1 /\
    scale f1 = mkVector (vx (scale f) * k) (vy (scale f)) (vz (scale f)) /\
    k = 2 * Rm * asin (W / (2 * Rm)) / W /\
    1 <= k /\ 1 < k.
Proof.
  intros p Rm W Hf Hq Hbq Hsz Hp [HW HR] HR'.
  destruct (place_total flat cube c f q W sy sz Hf Hq Hbq Hsz)
    as (c1 & f1 & Hrun & Hf1 & Hs & _).
  exists c1, f1, (2 * Rm * asin (W / (2 * Rm)) / W).
  pose proof (arc_over_chord_gt_1 W Rm HW HR).
  repeat split; try assumption; try lra.
  rewrite Hs. fold p. rewrite !bool_decide_eq_true_2; [reflexivity|assumption|].
  unfold width_guard. fold Rm. fold W. auto.
Qed.

(** ** What the join receives and what it leaves *)

Lemma place_selection (flat cube : ident) (c : Context) (f q : Object) :
  flat <> cube ->
  objects c !! flat = Some f ->
  objects c !! cube = Some q ->
  bound_box f <> [] ->
  bound_box q <> [] ->
  exists c1 f1 q1,
    PlaceSvgOnCubeTopJoin_place flat cube c = Ok tt c1 /\
    objects c1 !! flat = Some f1 /\
    objects c1 !! cube = Some q1 /\
    selected f1 = true /\ type f1 = type f /\
    selected q1 = true /\ type q1 = type q /\
    active c1 = Some cube /\
    (forall j o, j <> flat -> j <> cube -> objects c1 !! j = Some o -> selected o = false).
Proof.
  intros Hne Hf Hq Hbf Hbq.
  destruct (world_bbox_size_total f Hbf) as (cur_X & sy & sz & Hsz & _).
  pose proof (prescale_cases flat c f cur_X sy sz Hf Hsz) as Hpre. cbv zeta in Hpre.
  assert (H0 : exists c0 f0 q0,
             PlaceSvgOnCubeTopJoin_prescale flat c = Ok tt c0 /\
             objects c0 !! flat = Some f0 /\ objects c0 !! cube = Some q0 /\
             bound_box f0 <> [] /\ bound_box q0 <> [] /\
             type f0 = type f /\ type q0 = type q).
  { destruct (bool_decide _ && bool_decide _).
    - eexists _, _, _. split; [exact Hpre|]. cbn [objects with_objects].
      split; [rewrite lookup_fmap, lookup_insert_eq; reflexivity|].
      split; [rewrite lookup_fmap, lookup_insert_ne, Hq by congruence; reflexivity|].
      repeat split; assumption.
    - exists c, f, q. repeat split; assumption. }
  destruct H0 as (c0 & f0 & q0 & Hrun0 & Hf0 & Hq0 & Hbf0 & Hbq0 & Htf & Htq).
  destruct (min_max_z_total _ Hbf0) as (lo' & hi' & Hzf & _).
  destruct (min_max_z_total _ Hbq0) as (lo & hi & Hzq & _).
  destruct (align_distinct _ _ _ _ _ _ _ _ _ Hne Hf0 Hq0 Hzq Hzf)
    as (c1 & f1 & Hrun & Hf1 & Hq1 & Hpl & Hothers & Ha & _).
  destruct Hpl as (_ & _ & _ & _ & _ & _ & Ht1 & _ & Hsel).
  exists c1, f1, (with_selected true (refresh q0)).
  split; [unfold PlaceSvgOnCubeTopJoin_place; now rewrite (bind_Ok _ _ _ _ _ Hrun0)|].
  repeat split; try assumption; try congruence.
  intros j o Hjf Hjc Hj. rewrite (Hothers j Hjf Hjc) in Hj.
  destruct (objects c0 !! j); [|discriminate]. now injection Hj as <-.
Qed.

Lemma join_sources_single (flat cube : ident) (objs : gmap positive Object) (f1 q1 : Object) :
  flat <> cube ->
  objs !! flat = Some f1 ->
  objs !! cube = Some q1 ->
  selected f1 = true ->
  type f1 = MESH ->
  (forall j o, j <> flat -> j <> cube -> objs !! j = Some o -> selected o = false) ->
  join_sources cube objs = {[flat := f1]}.
Proof.
  intros Hne Hf Hq Hsel Hty Hothers. unfold join_sources.
  apply map_eq; intros j. destruct (decide (j = flat)) as [->|Hjf].
  - rewrite lookup_singleton_eq. apply map_lookup_filter_Some. cbn. auto.
  - rewrite lookup_singleton_ne by congruence.
    apply map_lookup_filter_None. right. intros o Hj (Hjc & Hs & _). cbn in *.
    rewrite (Hothers j o Hjf Hjc Hj) in Hs. discriminate.
Qed.

Lemma join_merge (a : ident) (c : Context) (o : Object) (src : gmap positive Object) :
  active c = Some a ->
  (refresh <$> objects c) !! a = Some o ->
  join_sources a (refresh <$> objects c) = src ->
  selected o = true ->
  type o = MESH ->
  src <> ∅ ->
  join c =
    Ok tt (with_objects
             (<[a := with_bound_box (host_join_bbox o (snd <$> map_to_list src)) o]>
                ((refresh <$> objects c) ∖ src))
             (with_objects (refresh <$> objects c) c)).
Proof.
  intros Ha Ho Hsrc Hsel Hty Hne. unfold join, bpy_ops, view_layer_update.
  erewrite bind_Ok; [|reflexivity].
  erewrite bind_Ok; [|reflexivity].
  cbn [active with_objects]. rewrite Ha.
  erewrite bind_Ok; [|apply deref_Ok; exact Ho].
  cbn [objects with_objects]. rewrite Hsrc, Hsel, Hty.
  rewrite (bool_decide_eq_true_2 (MESH = MESH)) by reflexivity.
  rewrite (bool_decide_eq_false_2 (src = ∅)) by assumption.
  reflexivity.
Qed.

(** On two different mesh objects the operator finishes, the flat object
    is gone from the scene, and the cube carries the joined geometry. *)
Lemma execute_joins_flat_into_cube (flat cube : ident) (c : Context) (f q : Object) :
  flat_obj (cylsvg_props c) = Some flat ->
  cube_obj (cylsvg_props c) = Some cube ->
  flat <> cube ->
  objects c !! flat = Some f ->
  objects c !! cube = Some q ->
  bound_box f <> [] ->
  bound_box q <> [] ->
  type f = MESH ->
  type q = MESH ->
  exists c' f1 q1,
    PlaceSvgOnCubeTopJoin_execute c = Ok FINISHED c' /\
    objects c' !! flat = None /\
    objects c' !! cube = Some (with_bound_box (host_join_bbox q1 [f1]) q1).
Proof.
  intros Hfo Hco Hne Hf Hq Hbf Hbq Htf Htq.
  destruct (place_selection flat cube c f q Hne Hf Hq Hbf Hbq)
    as (c1 & f1 & q1 & Hrun & Hf1 & Hq1 & Hsf & Htf1 & Hsq & Htq1 & Ha & Hothers).
  rewrite (execute_place_join c flat cube c1 Hfo Hco Hrun).
  set (objs := refresh <$> objects c1).
  assert (Hlf : objs !! flat = Some (refresh f1)) by (subst objs; now rewrite lookup_fmap, Hf1).
  assert (Hlq : objs !! cube = Some (refresh q1)) by (subst objs; now rewrite lookup_fmap, Hq1).
  assert (Hsrc : join_sources cube objs = {[flat := refresh f1]}).
  { apply join_sources_single with (q1 := refresh q1); try assumption.
    - change (type f1 = MESH). congruence.
    - intros j o Hjf Hjc Hj. subst objs. rewrite lookup_fmap in Hj.
      destruct (objects c1 !! j) as [o'|] eqn:Ej; [|discriminate].
      injection Hj as <-. exact (Hothers j o' Hjf Hjc Ej). }
  assert (Hty : type (refresh q1) = MESH) by (change (type q1 = MESH); congruence).
  pose proof (join_merge cube c1 (refresh q1) _ Ha Hlq Hsrc Hsq Hty
                (map_non_empty_singleton _ _)) as Hjoin.
  rewrite map_to_list_singleton in Hjoin. cbn [fmap list_fmap snd] in Hjoin.
  unfold PlaceSvgOnCubeTopJoin_join.
  rewrite (bind_Ok _ _ _ _ _ Hjoin).
  eexists _, (refresh f1), (refresh q1). split; [reflexivity|].
  cbn [objects with_objects with_props with_reports]. fold objs.
  split; [|apply lookup_insert_eq].
  rewrite lookup_insert_ne by congruence.
  apply lookup_difference_None. right. rewrite lookup_singleton_eq. eauto.
Qed.

(** ** After the join *)

Lemma align_active (flat cube : ident) (c : Context) :
  wp (PlaceSvgOnCubeTopJoin_align flat cube)
     (fun _ c1 => active c1 = Some cube) (fun _ _ => True) c.
Proof.
  unfold PlaceSvgOnCubeTopJoin_align.
  repeat (wp_step; try exact I); reflexivity.
Qed.

Lemma place_active (flat cube : ident) (c : Context) :
  wp (PlaceSvgOnCubeTopJoin_place flat cube)
     (fun _ c1 => active c1 = Some cube) (fun _ _ => True) c.
Proof.
  unfold PlaceSvgOnCubeTopJoin_place. apply wp_bind.
  eapply wp_mono; [apply (prescale_arith_safe flat c) | | auto].
  intros ? c0 _. apply align_active.
Qed.

Lemma join_bookkeeping (cube : ident) (c1 : Context) :
  active c1 = Some cube ->
  wp PlaceSvgOnCubeTopJoin_join
     (fun st c' =>
        st = FINISHED /\
        flat_obj (cylsvg_props c') = None /\
        cube_obj (cylsvg_props c') = Some cube /\
        active c' = Some cube /\
        is_Some (objects c' !! cube))
     (fun _ _ => True) c1.
Proof.
  intros Ha. unfold PlaceSvgOnCubeTopJoin_join, join, bpy_ops.
  apply wp_bind, wp_bind, wp_modify, wp_bind, wp_get.
  cbn [active with_objects]. rewrite Ha.
  apply wp_bind, wp_deref. cbn [objects with_objects].
  destruct ((refresh <$> objects c1) !! cube) as [o|] eqn:Ho; [|exact I].
  match goal with |- wp (if ?b then _ else _) _ _ _ => destruct b end.
  - apply wp_modify. repeat (wp_step; try exact I).
    cbn. rewrite Ha. repeat split. rewrite lookup_insert_eq. eauto.
  - apply wp_ret. repeat (wp_step; try exact I).
    cbn. rewrite Ha. repeat split. rewrite Ho. eauto.
Qed.

(** C6: after every run of the operator that ends with [FINISHED], the
    settings' flat-mesh reference is empty and their cube reference is the
    object the join left active, the former cube, which is live.  When the
    two references denoted different mesh objects, that object is the
    joined result: the flat object is gone from the scene and the cube
    carries the geometry the host merged. *)
Theorem place_join_updates_references (c c' : Context) (st : Status) :
  PlaceSvgOnCubeTopJoin_execute c = Ok st c' ->
  st = FINISHED ->
  exists cube,
    cube_obj (cylsvg_props c) = Some cube /\
    flat_obj (cylsvg_props c') = None /\
    cube_obj (cylsvg_props c') = Some cube /\
    cube_obj (cylsvg_props c') = active c' /\
    is_Some (objects c' !! cube) /\
    (forall flat f q,
        flat_obj (cylsvg_props c) = Some flat ->
        flat <> cube ->
        objects c !! flat = Some f ->
        objects c !! cube = Some q ->
        bound_box f <> [] ->
        bound_box q <> [] ->
        type f = MESH ->
        type q = MESH ->
        objects c' !! flat = None /\
        exists f1 q1,
          objects c' !! cube = Some (with_bound_box (host_join_bbox q1 [f1]) q1)).
Proof.
  intros Hrun Hst.
  assert (Hwp : wp PlaceSvgOnCubeTopJoin_execute
                  (fun st c' => st = FINISHED ->
                     exists cube,
                       cube_obj (cylsvg_props c) = Some cube /\
                       flat_obj (cylsvg_props c') = None /\
                       cube_obj (cylsvg_props c') = Some cube /\
                       cube_obj (cylsvg_props c') = active c' /\
                       is_Some (objects c' !! cube))
                  (fun _ _ => True) c).
  { unfold PlaceSvgOnCubeTopJoin_execute. apply wp_bind, wp_props.
    destruct (flat_obj (cylsvg_props c)) as [flat|];
      [destruct (cube_obj (cylsvg_props c)) as [cube|] eqn:Hc|].
    - apply wp_bind. eapply wp_mono; [apply place_active | | auto].
      intros ? c1 Ha. eapply wp_mono; [apply (join_bookkeeping cube c1 Ha) | | auto].
      intros st' c2 (_ & Hf & Hq & Hact & Hlive) _.
      exists cube. rewrite Hq, Hact. auto.
    - apply wp_bind, wp_report, wp_ret. discriminate.
    - apply wp_bind, wp_report, wp_ret. discriminate. }
  destruct (wp_Ok_inv _ _ _ _ _ _ Hwp Hrun Hst) as (cube & Hc & Hf & Hq & Ha & Hlive).
  exists cube. repeat (split; [assumption|]).
  intros flat f q Hfo Hne Hlf Hlq Hbf Hbq Htf Htq.
  destruct (execute_joins_flat_into_cube flat cube c f q Hfo Hc Hne Hlf Hlq Hbf Hbq Htf Htq)
    as (c'' & f1 & q1 & Hrun' & Hgone & Hcube).
  rewrite Hrun in Hrun'. injection Hrun' as _ <-. eauto.
Qed.

(** ** The cube operator *)

Lemma to_meters_nonneg (v : R) (u : option string) : 0 <= v -> 0 <= _to_meters v u.
Proof.
  intros H. unfold _to_meters.
  destruct (String.eqb _ "mm"); [lra|]. destruct (String.eqb _ "cm"); lra.
Qed.

Lemma extent_cube_corners_x : extent (map vx (cube_corners 1)) = 1.
Proof. unfold extent, cube_corners; simpl. minmax_eval. lra. Qed.

Lemma extent_cube_corners_y : extent (map vy (cube_corners 1)) = 1.
Proof. unfold extent, cube_corners; simpl. minmax_eval. lra. Qed.

Lemma extent_cube_corners_z : extent (map vz (cube_corners 1)) = 1.
Proof. unfold extent, cube_corners; simpl. minmax_eval. lra. Qed.

Lemma rescale_unit (v : R) : 0 <= v -> rescale v 1 1 = v.
Proof.
  intros H. unfold rescale, copysign.
  rewrite bool_decide_eq_false_2 by lra. rewrite bool_decide_eq_false_2 by lra.
  rewrite Rabs_right; [field | apply Rle_ge; unfold Rdiv; rewrite Rinv_1; lra].
Qed.

Lemma add_cube_cancel (c : Context) :
  let p := cylsvg_props c in
  _to_meters (cyl_inner_r p) (Some (cyl_unit p)) >= _to_meters (cyl_outer_r p) (Some (cyl_unit p)) ->
  AddCubeFromCylinder_execute c =
    Ok CANCELLED
       (with_reports
          (reports c ++ [mkReport ERROR "Inner radius must be smaller than outer radius." []]) c).
Proof.
  intros p H. unfold AddCubeFromCylinder_execute, props, bind at 1 2, get, ret.
  fold p. rewrite bool_decide_eq_true_2 by assumption. reflexivity.
Qed.

Lemma Forall_list_filter {A} (P : A -> Prop) (f : A -> bool) (l : list A) :
  Forall P l -> Forall P (List.filter f l).
Proof.
  induction 1 as [|a l Ha Hl IH]; simpl; [constructor|].
  destruct (f a); [constructor|]; assumption.
Qed.

Lemma cube_state_refresh i P Rp S B (c : Context) :
  cube_state i P Rp S B c ->
  cube_state i P Rp S B (with_objects (refresh <$> objects c) c).
Proof.
  intros (Ha & Hp & Hr & o & Ho & Hs & Ht & Hm & Hb).
  repeat split; try assumption.
  exists (refresh o). cbn [objects with_objects]. rewrite lookup_fmap, Ho.
  repeat split; assumption.
Qed.

Lemma modifier_apply_keeps i P Rp S B (n : string) (c : Context) :
  cube_state i P Rp S B c ->
  wp (modifier_apply n) (fun _ c' => cube_state i P Rp S B c')
     (fun _ c' => cube_state i P Rp S B c') c.
Proof.
  intros Hc. unfold modifier_apply, bpy_ops.
  apply wp_bind, wp_modify. apply cube_state_refresh in Hc.
  set (c0 := with_objects _ c) in *.
  destruct Hc as (Ha & Hp & Hr & o & Ho & Hs & Ht & Hm & Hb).
  apply wp_bind, wp_get. rewrite Ha.
  apply wp_bind, wp_deref. rewrite Ho.
  assert (Hkeep : cube_state i P Rp S B c0) by (repeat split; eauto 10).
  destruct (modifiers_get n (modifiers o)) as [m|] eqn:Hget; [|exact Hkeep].
  destruct (host_modifier_apply m o) as [bb|] eqn:Hhost; [|exact Hkeep].
  apply wp_update_obj. rewrite Ho.
  repeat split; try assumption.
  eexists. cbn [objects with_objects]. rewrite lookup_insert_eq.
  split; [reflexivity|]. cbn.
  repeat split; try assumption.
  - now apply Forall_list_filter.
  - intros Hhk. rewrite <- (Hb Hhk). apply (Hhk m o); [|exact Hhost].
    apply find_some in Hget as [Hin _].
    rewrite Forall_forall in Hm. apply Hm. now apply list_elem_of_In.
Qed.

Lemma apply_modifiers_keeps i P Rp S B (c : Context) :
  cube_state i P Rp S B c ->
  wp (_apply_modifiers (Some i)) (fun _ c' => cube_state i P Rp S B c')
     (fun _ _ => False) c.
Proof.
  intros Hc. unfold _apply_modifiers, select_all_DESELECT, bpy_ops, select_set_True.
  apply wp_bind, wp_bind, wp_modify. apply cube_state_refresh in Hc.
  set (c0 := with_objects _ c) in *.
  apply wp_modify.
  destruct Hc as (Ha & Hp & Hr & o & Ho & Hs & Ht & Hm & Hb).
  apply wp_bind, wp_update_obj. cbn [objects with_objects].
  rewrite lookup_fmap, Ho. cbn [fmap option_fmap option_map].
  apply wp_bind, wp_modify.
  apply wp_bind, wp_deref. cbn [objects with_objects with_active].
  rewrite lookup_insert_eq.
  apply (wp_for_each _ _ (cube_state i P Rp S B)).
  - repeat split; try assumption. eexists. cbn [objects with_objects with_active].
    rewrite lookup_insert_eq. split; [reflexivity|]. repeat split; assumption.
  - intros m c1 Hc1. apply wp_try_pass. now apply modifier_apply_keeps.
Qed.

Lemma add_cube_wp (c : Context) :
  let p := cylsvg_props c in
  let outer := _to_meters (cyl_outer_r p) (Some (cyl_unit p)) in
  let inner := _to_meters (cyl_inner_r p) (Some (cyl_unit p)) in
  let height := _to_meters (cyl_height p) (Some (cyl_unit p)) in
  ~ inner >= outer ->
  wp AddCubeFromCylinder_execute
     (fun st c' =>
        st = FINISHED /\
        exists i cube,
          objects c !! i = None /\
          cylsvg_props c' = with_cube_obj (Some i) p /\
          active c' = Some i /\
          objects c' !! i = Some cube /\
          type cube = MESH /\
          scale cube = mkVector (rescale (2 * PI * outer) 1 1) (rescale height 1 1)
                                (rescale (outer - inner) 1 1) /\
          (host_keeps_simple -> bound_box cube = cube_corners 1))
     (fun _ _ => False) c.
Proof.
  intros p outer inner height H.
  unfold AddCubeFromCylinder_execute. apply wp_bind, wp_props.
  fold p. fold outer. fold inner. fold height.
  rewrite bool_decide_eq_false_2 by assumption.
  unfold primitive_cube_add, bpy_ops, view_layer_update.
  apply wp_bind, wp_bind, wp_modify, wp_bind, wp_get, wp_modify.
  cbn [objects with_objects].
  set (i := fresh (dom (refresh <$> objects c))).
  assert (Hfresh : objects c !! i = None).
  { apply not_elem_of_dom. subst i. rewrite dom_fmap_L. apply is_fresh. }
  unfold active_object. apply wp_bind, wp_bind, wp_get.
  cbn [active with_active]. apply wp_ret.
  unfold set_name. apply wp_bind, wp_bind, wp_get, wp_update_obj.
  cbn [objects with_objects with_active]. rewrite lookup_insert_eq.
  unfold set_dimensions. apply wp_bind, wp_update_obj.
  cbn [objects with_objects with_active]. rewrite lookup_insert_eq.
  unfold _ensure_subsurf. apply wp_bind, wp_bind, wp_deref.
  cbn [objects with_objects with_active]. rewrite lookup_insert_eq.
  cbn [modifiers with_scale with_name new_cube refresh with_matrix_world modifiers_get find].
  apply wp_bind, wp_update_obj.
  cbn [objects with_objects with_active]. rewrite lookup_insert_eq.
  apply wp_ret, wp_bind.
  eapply wp_mono;
    [apply (apply_modifiers_keeps i p (reports c)
              (mkVector (rescale (2 * PI * outer) 1 1) (rescale height 1 1)
                        (rescale (outer - inner) 1 1))
              (cube_corners 1)) | | auto].
  - repeat split. eexists. cbn [objects with_objects with_active].
    rewrite lookup_insert_eq. split; [reflexivity|].
    cbn -[extent cube_corners rescale Rmult Rminus PI].
    rewrite extent_cube_corners_x, extent_cube_corners_y, extent_cube_corners_z.
    repeat split. repeat constructor.
  - intros ? c5 (Ha & Hp & Hr & o & Ho & Hs & Ht & Hm & Hb).
    apply wp_bind, wp_modify, wp_bind, wp_report, wp_ret.
    split; [reflexivity|]. exists i, o. cbn. rewrite Hp.
    repeat split; assumption.
Qed.

(** C1: for settings within their declared ranges and an inner radius
    smaller than the outer one (both in metres), the operator finishes and
    leaves a new cube whose dimensions are the circumference
    [2 pi outer] in X, the height in Y, and the wall thickness
    [outer - inner] in Z: that is its scale on the unit cube the host
    adds, and its [dimensions] when the host applies the simple
    subdivision without changing the bounding box. *)
Theorem add_cube_dimensions_from_cylinder (c : Context) :
  let p := cylsvg_props c in
  let outer := _to_meters (cyl_outer_r p) (Some (cyl_unit p)) in
  let inner := _to_meters (cyl_inner_r p) (Some (cyl_unit p)) in
  let height := _to_meters (cyl_height p) (Some (cyl_unit p)) in
  in_range p ->
  inner < outer ->
  exists c' i cube,
    AddCubeFromCylinder_execute c = Ok FINISHED c' /\
    objects c !! i = None /\
    cube_obj (cylsvg_props c') = Some i /\
    objects c' !! i = Some cube /\
    scale cube = mkVector (2 * PI * outer) height (outer - inner) /\
    (host_keeps_simple ->
       dimensions cube = mkVector (2 * PI * outer) height (outer - inner)).
Proof.
  intros p outer inner height (_ & _ & Ho & _ & Hh & _) Hlt.
  assert (Hng : ~ inner >= outer) by lra.
  destruct (wp_total _ _ _ (add_cube_wp c Hng))
    as (st & c' & Hrun & -> & i & cube & Hfresh & Hp & Ha & Hi & Ht & Hs & Hb).
  assert (HX : 0 <= 2 * PI * outer).
  { pose proof PI_RGT_0. pose proof (to_meters_nonneg _ (Some (cyl_unit p)) Ho).
    fold outer in H0. apply Rmult_le_pos; lra. }
  assert (HY : 0 <= height) by (apply to_meters_nonneg, Hh).
  assert (HZ : 0 <= outer - inner) by (fold outer inner in Hlt; lra).
  fold p outer inner height in Hs.
  rewrite !rescale_unit in Hs by assumption.
  exists c', i, cube. repeat split; try assumption.
  - rewrite Hp. reflexivity.
  - intros Hhk. unfold dimensions. rewrite (Hb Hhk), Hs. cbn [vx vy vz].
    rewrite extent_cube_corners_x, extent_cube_corners_y, extent_cube_corners_z.
    rewrite !Rabs_right by (apply Rle_ge; assumption).
    f_equal; lra.
Qed.

(** C8: the operator returns [CANCELLED] exactly when the inner radius in
    metres is at least the outer one, and then the scene's objects, its
    active object and the settings are as before (only the error is
    reported); otherwise it creates a cube, stores it in the settings and
    returns [FINISHED]. *)
Theorem add_cube_cancelled_iff_inner_ge_outer (c : Context) :
  let p := cylsvg_props c in
  let outer := _to_meters (cyl_outer_r p) (Some (cyl_unit p)) in
  let inner := _to_meters (cyl_inner_r p) (Some (cyl_unit p)) in
  (inner >= outer ->
     exists c', AddCubeFromCylinder_execute c = Ok CANCELLED c' /\
                objects c' = objects c /\
                active c' = active c /\
                cylsvg_props c' = cylsvg_props c) /\
  (~ inner >= outer ->
     exists c' i,
       AddCubeFromCylinder_execute c = Ok FINISHED c' /\
       objects c !! i = None /\
       is_Some (objects c' !! i) /\
       cube_obj (cylsvg_props c') = Some i) /\
  (exists st c', AddCubeFromCylinder_execute c = Ok st c' /\
                 (st = CANCELLED <-> inner >= outer)).
Proof.
  intros p outer inner.
  assert (Hcancel : inner >= outer ->
            exists c', AddCubeFromCylinder_execute c = Ok CANCELLED c' /\
                       objects c' = objects c /\ active c' = active c /\
                       cylsvg_props c' = cylsvg_props c).
  { intros H. eexists. split; [apply add_cube_cancel, H|]. repeat split. }
  assert (Hrun : ~ inner >= outer ->
            exists c' i, AddCubeFromCylinder_execute c = Ok FINISHED c' /\
                         objects c !! i = None /\ is_Some (objects c' !! i) /\
                         cube_obj (cylsvg_props c') = Some i).
  { intros H.
    destruct (wp_total _ _ _ (add_cube_wp c H))
      as (st & c' & Hr & -> & i & cube & Hfresh & Hp & Ha & Hi & _).
    exists c', i. repeat split; eauto. rewrite Hp. reflexivity. }
  split; [exact Hcancel|]. split; [exact Hrun|].
  destruct (decide (inner >= outer)) as [H|H].
  - destruct (Hcancel H) as (c' & Hr & _). exists CANCELLED, c'. tauto.
  - destruct (Hrun H) as (c' & i & Hr & _). exists FINISHED, c'.
    split; [exact Hr|]. split; [discriminate | contradiction].
Qed.

(** ** The place-and-join operator finishes on live objects *)

Lemma join_total (cube : ident) (c1 : Context) :
  active c1 = Some cube ->
  is_Some (objects c1 !! cube) ->
  exists c', PlaceSvgOnCubeTopJoin_join c1 = Ok FINISHED c'.
Proof.
  intros Ha [o Ho].
  assert (Hwp : wp PlaceSvgOnCubeTopJoin_join (fun st _ => st = FINISHED) (fun _ _ => False) c1).
  { unfold PlaceSvgOnCubeTopJoin_join, join, bpy_ops.
    apply wp_bind, wp_bind, wp_modify, wp_bind, wp_get.
    cbn [active with_objects]. rewrite Ha.
    apply wp_bind, wp_deref. cbn [objects with_objects]. rewrite lookup_fmap, Ho.
    cbn [fmap option_fmap option_map].
    match goal with |- wp (if ?b then _ else _) _ _ _ => destruct b end;
      repeat (wp_step; try reflexivity). }
  destruct (wp_total _ _ _ Hwp) as (st & c' & Hrun & ->). eauto.
Qed.

Lemma execute_total (flat cube : ident) (c : Context) (f q : Object) :
  flat_obj (cylsvg_props c) = Some flat ->
  cube_obj (cylsvg_props c) = Some cube ->
  objects c !! flat = Some f ->
  objects c !! cube = Some q ->
  bound_box f <> [] ->
  bound_box q <> [] ->
  exists c', PlaceSvgOnCubeTopJoin_execute c = Ok FINISHED c'.
Proof.
  intros Hfo Hco Hf Hq Hbf Hbq.
  destruct (world_bbox_size_total f Hbf) as (cur_X & sy & sz & Hsz & _).
  destruct (place_total flat cube c f q cur_X sy sz Hf Hq Hbq Hsz)
    as (c1 & f1 & Hrun & _ & _ & _ & _ & _ & _ & _ & Hq1 & Ha & _).
  destruct (join_total cube c1 Ha Hq1) as (c' & Hj).
  exists c'. now rewrite (execute_place_join c flat cube c1 Hfo Hco Hrun).
Qed.

(** * Further properties of the helpers and operators *)

(** ** [_to_meters] keeps the order *)

Lemma to_meters_lt (v1 v2 : R) (u : option string) :
  v1 < v2 -> _to_meters v1 u < _to_meters v2 u.
Proof.
  intros H. unfold _to_meters.
  destruct (String.eqb _ "mm"); [lra|]. destruct (String.eqb _ "cm"); lra.
Qed.

Lemma to_meters_ge_iff (v1 v2 : R) (u : option string) :
  _to_meters v1 u >= _to_meters v2 u <-> v1 >= v2.
Proof.
  split; intros H.
  - destruct (Rlt_le_dec v1 v2) as [Hlt|Hge]; [|lra].
    pose proof (to_meters_lt _ _ u Hlt). lra.
  - destruct H as [Hgt|<-]; [|lra].
    pose proof (to_meters_lt _ _ u Hgt). lra.
Qed.

(** X1: the cube operator compares the two radii after converting both
    with the same unit, and the conversion keeps the order: whatever the
    unit, the operator ends normally, and returns [CANCELLED] exactly when
    the inner radius as entered is at least the outer radius as entered. *)
Theorem add_cube_cancel_is_unit_independent (c : Context) :
  exists st c',
    AddCubeFromCylinder_execute c = Ok st c' /\
    (st = CANCELLED <-> cyl_inner_r (cylsvg_props c) >= cyl_outer_r (cylsvg_props c)) /\
    (st = FINISHED <-> cyl_inner_r (cylsvg_props c) < cyl_outer_r (cylsvg_props c)).
Proof.
  set (p := cylsvg_props c).
  destruct (decide (_to_meters (cyl_inner_r p) (Some (cyl_unit p)) >=
                    _to_meters (cyl_outer_r p) (Some (cyl_unit p)))) as [H|H].
  - exists CANCELLED. eexists. split; [apply add_cube_cancel, H|].
    apply to_meters_ge_iff in H. split; split; try discriminate; auto. lra.
  - destruct (wp_total _ _ _ (add_cube_wp c H)) as (st & c' & Hrun & -> & _).
    exists FINISHED, c'. split; [exact Hrun|].
    rewrite to_meters_ge_iff in H. fold p.
    split; split; try discriminate; auto; try contradiction. lra.
Qed.

(** ** Minimum and maximum of a list *)

Lemma fold_Rmin_le (l : list R) (a : R) :
  fold_left Rmin l a <= a /\ forall x, In x l -> fold_left Rmin l a <= x.
Proof.
  revert a; induction l as [|b l IH]; intros a; simpl.
  - split; [lra | tauto].
  - destruct (IH (Rmin a b)) as [H1 H2].
    pose proof (Rmin_l a b). pose proof (Rmin_r a b).
    split; [lra|]. intros x [<-|Hx]; [lra | auto].
Qed.

Lemma fold_Rmax_ge (l : list R) (a : R) :
  a <= fold_left Rmax l a /\ forall x, In x l -> x <= fold_left Rmax l a.
Proof.
  revert a; induction l as [|b l IH]; intros a; simpl.
  - split; [lra | tauto].
  - destruct (IH (Rmax a b)) as [H1 H2].
    pose proof (Rmax_l a b). pose proof (Rmax_r a b).
    split; [lra|]. intros x [<-|Hx]; [lra | auto].
Qed.

Lemma fold_Rmin_In (l : list R) (a : R) : In (fold_left Rmin l a) (a :: l).
Proof.
  revert a; induction l as [|b l IH]; intros a; simpl; [auto|].
  destruct (IH (Rmin a b)) as [H|H]; [|auto].
  rewrite <- H. unfold Rmin. destruct (Rle_dec a b); auto.
Qed.

Lemma fold_Rmax_In (l : list R) (a : R) : In (fold_left Rmax l a) (a :: l).
Proof.
  revert a; induction l as [|b l IH]; intros a; simpl; [auto|].
  destruct (IH (Rmax a b)) as [H|H]; [|auto].
  rewrite <- H. unfold Rmax. destruct (Rle_dec a b); auto.
Qed.

Lemma py_min_spec (l : list R) (m : R) :
  py_min l = inr m -> In m l /\ forall x, In x l -> m <= x.
Proof.
  destruct l as [|a l]; simpl; [discriminate|]. intros [= <-].
  split; [apply fold_Rmin_In|].
  destruct (fold_Rmin_le l a) as [H1 H2]. intros x [<-|Hx]; auto.
Qed.

Lemma py_max_spec (l : list R) (m : R) :
  py_max l = inr m -> In m l /\ forall x, In x l -> x <= m.
Proof.
  destruct l as [|a l]; simpl; [discriminate|]. intros [= <-].
  split; [apply fold_Rmax_In|].
  destruct (fold_Rmax_ge l a) as [H1 H2]. intros x [<-|Hx]; auto.
Qed.

(** X2: [_world_bbox_min_max_z] raises [ValueError] on an object without
    bounding-box corners; otherwise the pair it returns bounds the Z of
    every world corner, and both bounds are the Z of some world corner. *)
Theorem world_bbox_min_max_z_are_attained_bounds (o : Object) :
  (bound_box o = [] ->
     _world_bbox_min_max_z o = inl ValueError_empty_sequence) /\
  (bound_box o <> [] ->
     exists lo hi,
       _world_bbox_min_max_z o = inr (lo, hi) /\
       (forall p, In p (_world_bbox o) -> lo <= vz p <= hi) /\
       (exists p, In p (_world_bbox o) /\ vz p = lo) /\
       (exists p, In p (_world_bbox o) /\ vz p = hi)).
Proof.
  split.
  - intros H. unfold _world_bbox_min_max_z, _world_bbox. now rewrite H.
  - intros H. destruct (min_max_z_total o H) as (lo & hi & Hz & _).
    exists lo, hi. split; [exact Hz|].
    unfold _world_bbox_min_max_z in Hz.
    destruct (py_min _) as [|lo0] eqn:Emin; [discriminate|].
    destruct (py_max _) as [|hi0] eqn:Emax; [discriminate|].
    cbn in Hz. injection Hz as <- <-.
    destruct (py_min_spec _ _ Emin) as [Hin1 Hle1].
    destruct (py_max_spec _ _ Emax) as [Hin2 Hle2].
    split; [|split].
    + intros p Hp. split; [apply Hle1 | apply Hle2]; now apply in_map.
    + apply in_map_iff in Hin1 as (p & Hp & Hin). eauto.
    + apply in_map_iff in Hin2 as (p & Hp & Hin). eauto.
Qed.

(** X3: [_world_bbox_size] raises [ValueError] on an object without
    bounding-box corners; otherwise its three components are not
    negative.  So the width the import operator stores is never below the
    minimum its property declares, and storing it changes no object. *)
Theorem world_bbox_size_is_nonnegative (o : Object) :
  (bound_box o = [] -> _world_bbox_size o = inl ValueError_empty_sequence) /\
  (bound_box o <> [] ->
     exists sx sy sz,
       _world_bbox_size o = inr (sx, sy, sz) /\ 0 <= sx /\ 0 <= sy /\ 0 <= sz) /\
  (forall flat c,
     objects c !! flat = Some o ->
     bound_box o <> [] ->
     exists c',
       ImportSVG_store_orig_x flat c = Ok tt c' /\
       0 <= svg_orig_x (cylsvg_props c') /\
       objects c' = objects c).
Proof.
  assert (Hsize : bound_box o <> [] ->
            exists sx sy sz,
              _world_bbox_size o = inr (sx, sy, sz) /\ 0 <= sx /\ 0 <= sy /\ 0 <= sz).
  { intros H. unfold _world_bbox_size.
    assert (Hne : _world_bbox o <> []) by (unfold _world_bbox; now apply map_nonempty).
    destruct (py_max_total _ (map_nonempty vx _ Hne)) as [hx Hhx].
    destruct (py_min_total _ (map_nonempty vx _ Hne)) as [lx Hlx].
    destruct (py_max_total _ (map_nonempty vy _ Hne)) as [hy Hhy].
    destruct (py_min_total _ (map_nonempty vy _ Hne)) as [ly Hly].
    destruct (py_max_total _ (map_nonempty vz _ Hne)) as [hz Hhz].
    destruct (py_min_total _ (map_nonempty vz _ Hne)) as [lz Hlz].
    rewrite Hhx, Hlx, Hhy, Hly, Hhz, Hlz. cbn [pbind].
    eexists _, _, _. split; [reflexivity|].
    pose proof (py_min_le_max _ _ _ Hlx Hhx).
    pose proof (py_min_le_max _ _ _ Hly Hhy).
    pose proof (py_min_le_max _ _ _ Hlz Hhz). lra. }
  split; [|split; [exact Hsize|]].
  - intros H. unfold _world_bbox_size, _world_bbox. now rewrite H.
  - intros flat c Ho Hb. destruct (Hsize Hb) as (sx & sy & sz & Hs & Hx & _).
    eexists. split; [eapply store_orig_x_Ok; eassumption|]. split; [exact Hx | reflexivity].
Qed.

(** ** The centre of the corners *)

Lemma sum_bounds (proj : Vector -> R) (l : list Vector) (acc : Vector) (lo hi : R) :
  (forall a b, proj (vadd a b) = proj a + proj b) ->
  (forall p, In p l -> lo <= proj p <= hi) ->
  proj acc + INR (length l) * lo <= proj (fold_left vadd l acc)
    <= proj acc + INR (length l) * hi.
Proof.
  intros Hadd. revert acc; induction l as [|p l IH]; intros acc Hb.
  - simpl. lra.
  - cbn [fold_left length]. rewrite S_INR.
    assert (Hp : lo <= proj p <= hi) by (apply Hb; now left).
    assert (Hl : forall p', In p' l -> lo <= proj p' <= hi) by (intros; apply Hb; now right).
    specialize (IH (vadd acc p) Hl). rewrite Hadd in IH. lra.
Qed.

(** X4: [_world_bbox_center_xy] never raises: on an object without corners
    it returns the origin.  On a bounding box of eight corners the centre
    it returns lies within the box: between the least and the greatest X,
    and between the least and the greatest Y, of the world corners. *)
Theorem world_bbox_center_xy_is_inside (o : Object) :
  (bound_box o = [] -> _world_bbox_center_xy o = (0, 0)) /\
  (length (bound_box o) = 8%nat ->
     forall lx hx ly hy,
       py_min (map vx (_world_bbox o)) = inr lx ->
       py_max (map vx (_world_bbox o)) = inr hx ->
       py_min (map vy (_world_bbox o)) = inr ly ->
       py_max (map vy (_world_bbox o)) = inr hy ->
       lx <= (_world_bbox_center_xy o).1 <= hx /\
       ly <= (_world_bbox_center_xy o).2 <= hy).
Proof.
  split.
  - intros H. unfold _world_bbox_center_xy, _world_bbox. rewrite H. cbn.
    f_equal; lra.
  - intros Hlen lx hx ly hy Hlx Hhx Hly Hhy.
    assert (Hn : INR (length (_world_bbox o)) = 8).
    { unfold _world_bbox. rewrite length_map, Hlen. simpl. lra. }
    destruct (py_min_spec _ _ Hlx) as [_ Hlx']. destruct (py_max_spec _ _ Hhx) as [_ Hhx'].
    destruct (py_min_spec _ _ Hly) as [_ Hly']. destruct (py_max_spec _ _ Hhy) as [_ Hhy'].
    pose proof (sum_bounds vx (_world_bbox o) (mkVector 0 0 0) lx hx
                  (fun a b => eq_refl)) as Hx.
    pose proof (sum_bounds vy (_world_bbox o) (mkVector 0 0 0) ly hy
                  (fun a b => eq_refl)) as Hy.
    rewrite Hn in Hx, Hy. cbn [vx vy] in Hx, Hy.
    unfold _world_bbox_center_xy. cbn [fst snd vdiv vx vy].
    assert (Hx0 : forall p, In p (_world_bbox o) -> lx <= vx p <= hx).
    { intros p Hp. split; [apply Hlx' | apply Hhx']; now apply in_map. }
    assert (Hy0 : forall p, In p (_world_bbox o) -> ly <= vy p <= hy).
    { intros p Hp. split; [apply Hly' | apply Hhy']; now apply in_map. }
    specialize (Hx Hx0). specialize (Hy Hy0). lra.
Qed.

(** ** Moving an object *)

Lemma world_bbox_size_shift (o o' : Object) (d : Vector) :
  _world_bbox o' = map (fun p => vadd p d) (_world_bbox o) ->
  _world_bbox_size o' = _world_bbox_size o.
Proof.
  intros H. unfold _world_bbox_size. rewrite H, !map_map.
  change (map (fun x => vx (vadd x d)) (_world_bbox o))
    with (map (fun x => vx x + vx d) (_world_bbox o)).
  change (map (fun x => vy (vadd x d)) (_world_bbox o))
    with (map (fun x => vy x + vy d) (_world_bbox o)).
  change (map (fun x => vz (vadd x d)) (_world_bbox o))
    with (map (fun x => vz x + vz d) (_world_bbox o)).
  rewrite <- (map_map vx (fun x => x + vx d)), <- (map_map vy (fun x => x + vy d)),
    <- (map_map vz (fun x => x + vz d)).
  destruct (_world_bbox o) as [|p l]; [reflexivity|].
  cbn [map py_max py_min pbind]. rewrite !fold_Rmax_shift, !fold_Rmin_shift.
  do 2 f_equal; [f_equal|]; lra.
Qed.

Lemma move_by_Raise (i : ident) (dx dy dz : R) (c : Context) :
  objects c !! i = None -> _move_by i dx dy dz c = Raise ReferenceError c.
Proof.
  intros H. unfold _move_by, update_obj, deref, bind, get, ret, raise. now rewrite H.
Qed.

(** X5: [_move_by] changes the location channel only: the cached world
    matrix, and with it the world bounding box the helpers read, stays as
    it was until the view layer is updated.  After the update the world
    bounding box of an object that was evaluated is the old one moved by
    [(dx, dy, dz)], and its size is the same. *)
Theorem move_by_shows_after_update (i : ident) (c : Context) (o : Object) (dx dy dz : R) :
  objects c !! i = Some o ->
  matrix_world o = world_matrix_of o ->
  exists c1 o1 c2 o2,
    _move_by i dx dy dz c = Ok tt c1 /\
    objects c1 !! i = Some o1 /\
    _world_bbox o1 = _world_bbox o /\
    view_layer_update c1 = Ok tt c2 /\
    objects c2 !! i = Some o2 /\
    _world_bbox o2 = map (fun p => vadd p (mkVector dx dy dz)) (_world_bbox o) /\
    _world_bbox_size o2 = _world_bbox_size o.
Proof.
  intros Ho Hev.
  set (o1 := add_location_z dz (add_location_y dy (add_location_x dx o))).
  assert (Hwb : _world_bbox (refresh o1) =
                map (fun p => vadd p (mkVector dx dy dz)) (_world_bbox o)).
  { apply world_bbox_moved; try reflexivity; exact Hev. }
  eexists _, o1, _, (refresh o1).
  split; [apply move_by_Ok, Ho|].
  cbn [objects with_objects]. split; [apply lookup_insert_eq|].
  split; [reflexivity|]. split; [reflexivity|].
  cbn [objects with_objects]. split; [now rewrite lookup_fmap, lookup_insert_eq|].
  split; [exact Hwb | exact (world_bbox_size_shift _ _ _ Hwb)].
Qed.

Lemma add_location_xyz (o : Object) (dx dy dz : R) :
  add_location_z dz (add_location_y dy (add_location_x dx o)) =
  with_location (mkVector (vx (location o) + dx) (vy (location o) + dy)
                          (vz (location o) + dz)) o.
Proof. destruct o as [n t [lx ly lz] r s b mw sel md]. reflexivity. Qed.

(** X6: two moves of the same object are one move by the sum, and a move
    through a reference to an object that is gone raises [ReferenceError]
    and leaves the scene as it was. *)
Theorem move_by_composes (i : ident) (c : Context) (dx dy dz ex ey ez : R) :
  (objects c !! i = None ->
     _move_by i dx dy dz c = Raise ReferenceError c) /\
  (is_Some (objects c !! i) ->
     (_move_by i dx dy dz ;; _move_by i ex ey ez) c =
     _move_by i (dx + ex) (dy + ey) (dz + ez) c).
Proof.
  split; [apply move_by_Raise|]. intros [o Ho].
  rewrite (bind_Ok _ _ _ _ _ (move_by_Ok _ _ _ _ _ _ Ho)).
  erewrite move_by_Ok; [|cbn [objects with_objects]; apply lookup_insert_eq].
  rewrite (move_by_Ok _ _ _ _ _ _ Ho).
  cbn [objects with_objects with_active active cylsvg_props reports].
  rewrite insert_insert_eq. unfold with_objects; cbn [active cylsvg_props reports].
  do 3 f_equal. rewrite !add_location_xyz.
  unfold with_location.
  cbn [name type location rotation scale bound_box matrix_world selected modifiers
       with_location vx vy vz].
  f_equal. f_equal; lra.
Qed.

(** ** [_ensure_subsurf] *)

Lemma modifiers_get_name (n : string) (l : list Modifier) (m : Modifier) :
  modifiers_get n l = Some m -> mod_name m = n.
Proof.
  unfold modifiers_get. intros H. apply find_some in H as [_ H].
  now apply String.eqb_eq.
Qed.

Lemma modifiers_get_replace (n : string) (m' : Modifier) (l : list Modifier) :
  is_Some (modifiers_get n l) -> mod_name m' = n ->
  modifiers_get n (replace_modifier n m' l) = Some m'.
Proof.
  intros [m Hm] Hn. unfold modifiers_get in *.
  induction l as [|a l IH]; simpl in *; [discriminate|].
  destruct (String.eqb (mod_name a) n) eqn:E; simpl.
  - now rewrite Hn, String.eqb_refl.
  - rewrite E. auto.
Qed.

Lemma modifiers_get_replace_other (n n' : string) (m' : Modifier) (l : list Modifier) :
  n' <> n -> mod_name m' = n ->
  modifiers_get n' (replace_modifier n m' l) = modifiers_get n' l.
Proof.
  intros Hne Hn. unfold modifiers_get.
  induction l as [|a l IH]; simpl; [reflexivity|].
  destruct (String.eqb (mod_name a) n) eqn:E; simpl.
  - apply String.eqb_eq in E. rewrite Hn, E.
    destruct (String.eqb_spec n n'); [congruence | reflexivity].
  - now rewrite IH.
Qed.

Lemma replace_modifier_length (n : string) (m' : Modifier) (l : list Modifier) :
  length (replace_modifier n m' l) = length l.
Proof.
  induction l as [|a l IH]; simpl; [reflexivity|].
  destruct (String.eqb (mod_name a) n); simpl; congruence.
Qed.

Lemma replace_modifier_same (n : string) (m' : Modifier) (l : list Modifier) :
  modifiers_get n l = Some m' -> replace_modifier n m' l = l.
Proof.
  unfold modifiers_get. induction l as [|a l IH]; simpl; [reflexivity|].
  destruct (String.eqb (mod_name a) n); [now intros [= ->] | intros H; now rewrite IH].
Qed.

Lemma modifiers_get_app_new (n : string) (m' : Modifier) (l : list Modifier) :
  modifiers_get n l = None -> mod_name m' = n ->
  modifiers_get n (l ++ [m']) = Some m'.
Proof.
  intros Hm Hn. unfold modifiers_get in *.
  induction l as [|a l IH]; simpl in *.
  - now rewrite Hn, String.eqb_refl.
  - destruct (String.eqb (mod_name a) n); [discriminate | auto].
Qed.

Lemma modifiers_get_app_other (n n' : string) (m' : Modifier) (l : list Modifier) :
  n' <> n -> mod_name m' = n ->
  modifiers_get n' (l ++ [m']) = modifiers_get n' l.
Proof.
  intros Hne Hn. unfold modifiers_get.
  induction l as [|a l IH]; simpl.
  - rewrite Hn. destruct (String.eqb_spec n n'); [congruence | reflexivity].
  - destruct (String.eqb (mod_name a) n'); [reflexivity | exact IH].
Qed.

(** The state [_ensure_subsurf] leaves, when the modifier of that name, if
    there is one, is a subdivision surface. *)
Lemma ensure_subsurf_run (obj : ident) (n : string) (lv : Z) (c : Context) (o : Object) :
  objects c !! obj = Some o ->
  (forall m, modifiers_get n (modifiers o) = Some m -> mod_type m = SUBSURF) ->
  exists m' l',
    _ensure_subsurf obj n lv c =
      Ok m' (with_objects (<[obj := with_modifiers l' o]> (objects c)) c) /\
    modifiers_get n l' = Some m' /\
    m' = mkModifier n SUBSURF (Z.max 1 lv) (Z.max 1 lv) SIMPLE /\
    (forall n', n' <> n -> modifiers_get n' l' = modifiers_get n' (modifiers o)) /\
    length l' = match modifiers_get n (modifiers o) with
                | Some _ => length (modifiers o)
                | None => S (length (modifiers o))
                end.
Proof.
  intros Ho Hty. unfold _ensure_subsurf.
  rewrite (bind_Ok _ _ _ _ _ (deref_Ok _ _ _ Ho)).
  destruct (modifiers_get n (modifiers o)) as [m|] eqn:Hget.
  - rewrite (Hty m eq_refl).
    rewrite (bind_Ok _ _ _ _ _ (update_obj_Ok _ _ _ _ Ho)).
    pose proof (modifiers_get_name _ _ _ Hget) as Hn.
    assert (Hm' : set_subsurf (Z.max 1 lv) m = mkModifier n SUBSURF (Z.max 1 lv) (Z.max 1 lv) SIMPLE).
    { unfold set_subsurf. now rewrite Hn, (Hty m eq_refl). }
    rewrite Hm'. eexists _, _. split; [reflexivity|].
    split; [apply modifiers_get_replace; [rewrite Hget; eauto | reflexivity]|].
    split; [reflexivity|].
    split; [intros n' Hne; now apply (modifiers_get_replace_other n)|].
    apply replace_modifier_length.
  - rewrite (bind_Ok _ _ _ _ _ (update_obj_Ok _ _ _ _ Ho)).
    eexists _, _. split; [reflexivity|].
    split; [apply modifiers_get_app_new; [exact Hget | reflexivity]|].
    split; [reflexivity|].
    split; [intros n' Hne; now apply (modifiers_get_app_other n)|].
    rewrite length_app. simpl. lia.
Qed.


(** X8: [_ensure_subsurf] is idempotent: a second call with the same
    arguments returns the same modifier and leaves the scene exactly as
    the first call left it. *)
Theorem ensure_subsurf_idempotent
    (obj : ident) (n : string) (lv : Z) (c : Context) (o : Object) :
  objects c !! obj = Some o ->
  (forall m, modifiers_get n (modifiers o) = Some m -> mod_type m = SUBSURF) ->
  (_ensure_subsurf obj n lv ;; _ensure_subsurf obj n lv) c = _ensure_subsurf obj n lv c.
Proof.
  intros Ho Hty.
  destruct (ensure_subsurf_run obj n lv c o Ho Hty) as (m' & l' & Hrun & Hget & Hm' & _).
  rewrite (bind_Ok _ _ _ _ _ Hrun), Hrun.
  set (c1 := with_objects _ c).
  assert (Ho1 : objects c1 !! obj = Some (with_modifiers l' o))
    by (subst c1; cbn [objects with_objects]; apply lookup_insert_eq).
  unfold _ensure_subsurf.
  rewrite (bind_Ok _ _ _ _ _ (deref_Ok _ _ _ Ho1)).
  cbn [modifiers with_modifiers]. rewrite Hget.
  assert (Hty' : mod_type m' = SUBSURF) by now rewrite Hm'.
  rewrite Hty'.
  assert (Hset : set_subsurf (Z.max 1 lv) m' = m') by now rewrite Hm'.
  rewrite Hset.
  rewrite (bind_Ok _ _ _ _ _ (update_obj_Ok _ _ _ _ Ho1)).
  cbn [modifiers with_modifiers]. rewrite (replace_modifier_same _ _ _ Hget).
  unfold ret. f_equal. subst c1. unfold with_objects; cbn [objects active cylsvg_props reports].
  f_equal. rewrite insert_insert_eq. f_equal.
Qed.

(** X9: [_ensure_subsurf] finds the modifier by its name alone.  When a
    modifier of another kind carries the name, the assignment of the
    levels raises [AttributeError]; when the object is gone, the call
    raises [ReferenceError]; either way the scene is as it was. *)
Theorem ensure_subsurf_failures (obj : ident) (n : string) (lv : Z) (c : Context) :
  (objects c !! obj = None ->
     _ensure_subsurf obj n lv c = Raise ReferenceError c) /\
  (forall o m,
     objects c !! obj = Some o ->
     modifiers_get n (modifiers o) = Some m ->
     mod_type m <> SUBSURF ->
     _ensure_subsurf obj n lv c = Raise AttributeError c).
Proof.
  split.
  - intros Ho. unfold _ensure_subsurf, deref, bind, get, ret, raise. now rewrite Ho.
  - intros o m Ho Hget Hty. unfold _ensure_subsurf.
    rewrite (bind_Ok _ _ _ _ _ (deref_Ok _ _ _ Ho)), Hget.
    destruct (mod_type m); [congruence | reflexivity..].
Qed.

(** ** [_apply_modifiers] *)

Lemma same_shape_refl (o : Object) : same_shape o o.
Proof. repeat split. Qed.

Lemma same_shape_trans (o1 o2 o3 : Object) :
  same_shape o1 o2 -> same_shape o2 o3 -> same_shape o1 o3.
Proof. unfold same_shape. intuition congruence. Qed.

Lemma same_shape_refresh (o o' : Object) : same_shape o o' -> same_shape o (refresh o').
Proof. intros H. exact H. Qed.

Lemma same_shape_selected (v : bool) (o o' : Object) :
  same_shape o o' -> same_shape o (with_selected v o').
Proof. intros H. exact H. Qed.

Lemma others_kept_refresh (i : ident) (c0 c : Context) :
  others_kept i c0 c -> others_kept i c0 (with_objects (refresh <$> objects c) c).
Proof.
  intros H j Hj. specialize (H j Hj). cbn [objects with_objects]. rewrite lookup_fmap.
  destruct (objects c0 !! j), (objects c !! j); cbn; auto.
Qed.

Lemma others_kept_update (i : ident) (c0 c : Context) (o : Object) :
  others_kept i c0 c -> others_kept i c0 (with_objects (<[i := o]> (objects c)) c).
Proof.
  intros H j Hj. specialize (H j Hj). cbn [objects with_objects].
  now rewrite lookup_insert_ne by congruence.
Qed.

Lemma applying_refresh (i : ident) (c0 : Context) (o0 : Object) (c : Context) :
  applying i c0 o0 c -> applying i c0 o0 (with_objects (refresh <$> objects c) c).
Proof.
  intros ((Ha & o & Ho & Hrest) & Hoth & Hp & Hr).
  split; [|split; [now apply others_kept_refresh | split; assumption]].
  split; [exact Ha|]. exists (refresh o). cbn [objects with_objects].
  rewrite lookup_fmap, Ho. split; [reflexivity | exact Hrest].
Qed.

Lemma applying_modifier_apply (i : ident) (c0 : Context) (o0 : Object) (n : string) (c : Context) :
  applying i c0 o0 c ->
  wp (modifier_apply n) (fun _ c' => applying i c0 o0 c')
     (fun _ c' => applying i c0 o0 c') c.
Proof.
  intros Hc. unfold modifier_apply, bpy_ops.
  apply wp_bind, wp_modify. apply applying_refresh in Hc.
  set (c1 := with_objects _ c) in *.
  pose proof Hc as ((Ha & o & Ho & Hsel & Hrest) & Hoth & Hp & Hr).
  apply wp_bind, wp_get. rewrite Ha.
  apply wp_bind, wp_deref. rewrite Ho.
  destruct (modifiers_get n (modifiers o)) as [m|]; [|exact Hc].
  destruct (host_modifier_apply m o) as [bb|]; [|exact Hc].
  apply wp_update_obj. rewrite Ho.
  split; [|split; [now apply others_kept_update | split; assumption]].
  split; [exact Ha|]. eexists. cbn [objects with_objects].
  rewrite lookup_insert_eq. split; [reflexivity|]. split; [exact Hsel | exact Hrest].
Qed.

Lemma apply_modifiers_applying (i : ident) (c : Context) (o : Object) :
  objects c !! i = Some o ->
  wp (_apply_modifiers (Some i)) (fun _ c' => applying i c o c') (fun _ _ => False) c.
Proof.
  intros Ho. unfold _apply_modifiers, select_all_DESELECT, bpy_ops, select_set_True.
  apply wp_bind, wp_bind, wp_modify, wp_modify.
  apply wp_bind, wp_update_obj. cbn [objects with_objects].
  rewrite !lookup_fmap, Ho. cbn [fmap option_fmap option_map].
  apply wp_bind, wp_modify.
  apply wp_bind, wp_deref. cbn [objects with_objects with_active].
  rewrite lookup_insert_eq.
  apply (wp_for_each _ _ (applying i c o)).
  - split; [|split; [|split; reflexivity]].
    + split; [reflexivity|]. eexists.
      cbn [objects with_objects with_active]. rewrite lookup_insert_eq.
      split; [reflexivity|]. repeat split.
    + intros j Hj. cbn [objects with_objects with_active].
      rewrite lookup_insert_ne by congruence. rewrite !lookup_fmap.
      destruct (objects c !! j); cbn; [|exact I].
      split; [repeat split | reflexivity].
  - intros m c1 Hc1. apply wp_try_pass. now apply applying_modifier_apply.
Qed.

(** X10: [_apply_modifiers] does nothing when given no object.  Given a
    live object it never raises, whatever the host does with each
    modifier: it ends with that object selected and active, with the name,
    type, location, rotation and scale it had; every other object is what
    it was, deselected, none added and none removed; settings and reports
    are untouched. *)
Theorem apply_modifiers_never_raises (i : ident) (c : Context) (o : Object) :
  _apply_modifiers None c = Ok tt c /\
  (objects c !! i = Some o ->
   exists c' o',
     _apply_modifiers (Some i) c = Ok tt c' /\
     active c' = Some i /\
     objects c' !! i = Some o' /\
     selected o' = true /\
     name o' = name o /\ type o' = type o /\
     location o' = location o /\ rotation o' = rotation o /\ scale o' = scale o /\
     others_kept i c c' /\
     cylsvg_props c' = cylsvg_props c /\
     reports c' = reports c).
Proof.
  split; [reflexivity|]. intros Ho.
  destruct (wp_total _ _ _ (apply_modifiers_applying i c o Ho))
    as ([] & c' & Hrun & (Ha & o' & Ho' & Hsel & Hn & Ht & Hl & Hr & Hs) & Hoth & Hp & Hrep).
  exists c', o'. repeat split; assumption.
Qed.

(** What the loop of [_apply_modifiers] does to the stack when the host
    applies every modifier it is asked to apply. *)
Lemma apply_loop_empties (i : ident) (r : list Modifier) :
  (forall m o, is_Some (host_modifier_apply m o)) ->
  forall c,
    active c = Some i ->
    (exists o, objects c !! i = Some o /\
               Forall (fun m => In (mod_name m) (map mod_name r)) (modifiers o)) ->
    wp (for_each r (fun m => try_pass (modifier_apply (mod_name m))))
       (fun _ c' => exists o', objects c' !! i = Some o' /\ modifiers o' = [])
       (fun _ _ => False) c.
Proof.
  intros Hhost. induction r as [|a r IH]; intros c Ha (o & Ho & Hnames).
  - cbn. exists o. split; [exact Ho|].
    destruct (modifiers o) as [|m l]; [reflexivity|].
    apply Forall_inv in Hnames. destruct Hnames.
  - cbn [for_each]. apply wp_bind, wp_try_pass.
    unfold modifier_apply, bpy_ops.
    apply wp_bind, wp_modify. apply wp_bind, wp_get.
    cbn [active with_objects]. rewrite Ha.
    apply wp_bind, wp_deref. cbn [objects with_objects]. rewrite lookup_fmap, Ho.
    cbn [fmap option_fmap option_map].
    change (modifiers (refresh o)) with (modifiers o).
    destruct (modifiers_get (mod_name a) (modifiers o)) as [m|] eqn:Hget.
    + destruct (Hhost m (refresh o)) as [bb Hbb]. rewrite Hbb.
      apply wp_update_obj. cbn [objects with_objects]. rewrite lookup_fmap, Ho.
      cbn [fmap option_fmap option_map].
      apply IH; [exact Ha|]. eexists. cbn [objects with_objects].
      rewrite lookup_insert_eq. split; [reflexivity|].
      cbn [modifiers with_bound_box with_modifiers refresh with_matrix_world].
      rewrite Forall_forall in Hnames. apply Forall_forall. intros x Hx.
      apply list_elem_of_In, filter_In in Hx as [Hx Hne].
      apply negb_true_iff in Hne.
      destruct (Hnames x (proj2 (list_elem_of_In _ _) Hx)) as [Heq|Hin]; [|exact Hin].
      rewrite <- Heq, String.eqb_refl in Hne. discriminate.
    + apply IH; [exact Ha|]. exists (refresh o). cbn [objects with_objects].
      rewrite lookup_fmap, Ho. split; [reflexivity|].
      change (modifiers (refresh o)) with (modifiers o).
      rewrite Forall_forall in Hnames. apply Forall_forall. intros x Hx.
      destruct (Hnames x Hx) as [Heq|Hin]; [|exact Hin].
      exfalso. unfold modifiers_get in Hget.
      apply list_elem_of_In in Hx. pose proof (find_none _ _ Hget x Hx) as Hne.
      cbn beta in Hne. rewrite <- Heq, String.eqb_refl in Hne. discriminate.
Qed.

Lemma apply_modifiers_applied (i : ident) (c : Context) (o : Object) :
  objects c !! i = Some o ->
  (forall m o', is_Some (host_modifier_apply m o')) ->
  wp (_apply_modifiers (Some i))
     (fun _ c' => exists o', objects c' !! i = Some o' /\ modifiers o' = [])
     (fun _ _ => False) c.
Proof.
  intros Ho Hhost.
  unfold _apply_modifiers, select_all_DESELECT, bpy_ops, select_set_True.
  apply wp_bind, wp_bind, wp_modify, wp_modify.
  apply wp_bind, wp_update_obj. cbn [objects with_objects].
  rewrite !lookup_fmap, Ho. cbn [fmap option_fmap option_map].
  apply wp_bind, wp_modify.
  apply wp_bind, wp_deref. cbn [objects with_objects with_active].
  rewrite lookup_insert_eq.
  apply apply_loop_empties; [exact Hhost | reflexivity|].
  eexists. cbn [objects with_objects with_active]. rewrite lookup_insert_eq.
  split; [reflexivity|].
  change (modifiers (with_selected true (with_selected false (refresh o))))
    with (modifiers o).
  apply Forall_forall. intros x Hx. apply in_map. now apply list_elem_of_In.
Qed.

Lemma apply_modifiers_refused (i : ident) (c : Context) (o : Object) :
  objects c !! i = Some o ->
  (forall m o', host_modifier_apply m o' = None) ->
  wp (_apply_modifiers (Some i))
     (fun _ c' => exists o', objects c' !! i = Some o' /\
                             modifiers o' = modifiers o /\ bound_box o' = bound_box o)
     (fun _ _ => False) c.
Proof.
  intros Ho Hhost.
  assert (Hwp : wp (_apply_modifiers (Some i))
                  (fun _ c' => active c' = Some i /\
                               exists o', objects c' !! i = Some o' /\
                                          modifiers o' = modifiers o /\
                                          bound_box o' = bound_box o)
                  (fun _ _ => False) c).
  { unfold _apply_modifiers, select_all_DESELECT, bpy_ops, select_set_True.
    apply wp_bind, wp_bind, wp_modify, wp_modify.
    apply wp_bind, wp_update_obj. cbn [objects with_objects].
    rewrite !lookup_fmap, Ho. cbn [fmap option_fmap option_map].
    apply wp_bind, wp_modify.
    apply wp_bind, wp_deref. cbn [objects with_objects with_active].
    rewrite lookup_insert_eq.
    apply (wp_for_each _ _
             (fun c' => active c' = Some i /\
                        exists o', objects c' !! i = Some o' /\
                                   modifiers o' = modifiers o /\
                                   bound_box o' = bound_box o)).
    - split; [reflexivity|]. eexists. cbn [objects with_objects with_active].
      rewrite lookup_insert_eq. repeat split.
    - intros m c1 (Ha & o1 & Ho1 & Hm1 & Hb1). apply wp_try_pass.
      unfold modifier_apply, bpy_ops.
      apply wp_bind, wp_modify. apply wp_bind, wp_get.
      cbn [active with_objects]. rewrite Ha.
      apply wp_bind, wp_deref. cbn [objects with_objects]. rewrite lookup_fmap, Ho1.
      cbn [fmap option_fmap option_map].
      assert (Hkeep : active (with_objects (refresh <$> objects c1) c1) = Some i /\
                      exists o', objects (with_objects (refresh <$> objects c1) c1) !! i
                                   = Some o' /\
                                 modifiers o' = modifiers o /\ bound_box o' = bound_box o).
      { split; [exact Ha|]. exists (refresh o1). cbn [objects with_objects].
        rewrite lookup_fmap, Ho1. repeat split; assumption. }
      destruct (modifiers_get _ _); [|exact Hkeep].
      rewrite Hhost. exact Hkeep. }
  eapply wp_mono; [exact Hwp | | auto]. intros ? c' [_ H]. exact H.
Qed.

(** X11: the two ways the [try]/[except] of [_apply_modifiers] can go.  If
    the host applies every modifier it is asked to apply, the object ends
    with an empty modifier stack.  If the host refuses every modifier, the
    call still ends normally, and the object ends with the stack and the
    bounding box it had. *)
Theorem apply_modifiers_stack (i : ident) (c : Context) (o : Object) :
  objects c !! i = Some o ->
  ((forall m o', is_Some (host_modifier_apply m o')) ->
   exists c' o',
     _apply_modifiers (Some i) c = Ok tt c' /\
     objects c' !! i = Some o' /\ modifiers o' = []) /\
  ((forall m o', host_modifier_apply m o' = None) ->
   exists c' o',
     _apply_modifiers (Some i) c = Ok tt c' /\
     objects c' !! i = Some o' /\
     modifiers o' = modifiers o /\ bound_box o' = bound_box o).
Proof.
  intros Ho. split; intros Hhost.
  - destruct (wp_total _ _ _ (apply_modifiers_applied i c o Ho Hhost))
      as ([] & c' & Hrun & o' & Ho' & Hm).
    exists c', o'. repeat split; assumption.
  - destruct (wp_total _ _ _ (apply_modifiers_refused i c o Ho Hhost))
      as ([] & c' & Hrun & o' & Ho' & Hm & Hb).
    exists c', o'. repeat split; assumption.
Qed.

(** ** What the cube operator leaves of the scene *)

Lemma others_kept_trans (i : ident) (c1 c2 c3 : Context) :
  others_kept i c1 c2 -> others_kept i c2 c3 -> others_kept i c1 c3.
Proof.
  intros H12 H23 j Hj. specialize (H12 j Hj). specialize (H23 j Hj).
  destruct (objects c1 !! j), (objects c2 !! j), (objects c3 !! j); try tauto.
  destruct H12 as [H12 _], H23 as [H23 ?]. split; [|assumption].
  eapply same_shape_trans; eassumption.
Qed.

Lemma wp_conj {A} (m : M A) (Q Q' : A -> Context -> Prop) (E E' : Exn -> Context -> Prop) c :
  wp m Q E c -> wp m Q' E' c ->
  wp m (fun a c' => Q a c' /\ Q' a c') (fun e c' => E e c' /\ E' e c') c.
Proof. unfold wp. destruct (m c); auto. Qed.

Lemma wp_assuming {A} (H : Prop) (m : M A) (Q : A -> Context -> Prop)
    (E : Exn -> Context -> Prop) c :
  (H -> wp m Q E c) ->
  wp m (fun a c' => H -> Q a c') (fun e c' => H -> E e c') c.
Proof. unfold wp. destruct (m c); auto. Qed.

Lemma add_cube_frame (c : Context) :
  let p := cylsvg_props c in
  let outer := _to_meters (cyl_outer_r p) (Some (cyl_unit p)) in
  let inner := _to_meters (cyl_inner_r p) (Some (cyl_unit p)) in
  let height := _to_meters (cyl_height p) (Some (cyl_unit p)) in
  ~ inner >= outer ->
  wp AddCubeFromCylinder_execute
     (fun st c' =>
        st = FINISHED /\
        exists i cube,
          objects c !! i = None /\
          active c' = Some i /\
          objects c' !! i = Some cube /\
          selected cube = true /\
          type cube = MESH /\
          location cube = mkVector 0 0 0 /\
          rotation cube = identity_matrix /\
          name cube = host_unique_name "CYLSVG_Cube"
                        (with_selected false <$> (refresh <$> objects c)) /\
          others_kept i c c' /\
          cylsvg_props c' = with_cube_obj (Some i) p /\
          reports c' =
            reports c ++
              [mkReport INFO "Cylinder→Cube: X={X:.3f}m, Y={Y:.3f}m, Z={Z:.3f}m (applied)."
                 [2 * PI * outer; height; outer - inner]] /\
          ((forall m o, is_Some (host_modifier_apply m o)) -> modifiers cube = []) /\
          ((forall m o, host_modifier_apply m o = None) ->
             modifiers cube =
               [mkModifier "CYLSVG_CubeSubd" SUBSURF
                  (Z.max 1 (py_int (cyl_subdiv p))) (Z.max 1 (py_int (cyl_subdiv p))) SIMPLE] /\
             bound_box cube = cube_corners 1))
     (fun _ _ => False) c.
Proof.
  intros p outer inner height H.
  unfold AddCubeFromCylinder_execute. apply wp_bind, wp_props.
  fold p. fold outer. fold inner. fold height.
  rewrite bool_decide_eq_false_2 by assumption.
  unfold primitive_cube_add, bpy_ops, view_layer_update.
  apply wp_bind, wp_bind, wp_modify, wp_bind, wp_get, wp_modify.
  cbn [objects with_objects].
  set (i := fresh (dom (refresh <$> objects c))).
  assert (Hfresh : objects c !! i = None).
  { apply not_elem_of_dom. subst i. rewrite dom_fmap_L. apply is_fresh. }
  assert (Hfresh' : (with_selected false <$> (refresh <$> objects c)) !! i = None).
  { now rewrite !lookup_fmap, Hfresh. }
  unfold active_object. apply wp_bind, wp_bind, wp_get.
  cbn [active with_active]. apply wp_ret.
  unfold set_name. apply wp_bind, wp_bind, wp_get, wp_update_obj.
  cbn [objects with_objects with_active]. rewrite lookup_insert_eq.
  rewrite (delete_insert_id _ _ _ Hfresh').
  unfold set_dimensions. apply wp_bind, wp_update_obj.
  cbn [objects with_objects with_active]. rewrite lookup_insert_eq.
  unfold _ensure_subsurf. apply wp_bind, wp_bind, wp_deref.
  cbn [objects with_objects with_active]. rewrite lookup_insert_eq.
  cbn [modifiers with_scale with_name new_cube refresh with_matrix_world modifiers_get find].
  apply wp_bind, wp_update_obj.
  cbn [objects with_objects with_active]. rewrite lookup_insert_eq.
  apply wp_ret, wp_bind.
  match goal with
  | |- wp (_apply_modifiers _) _ _ ?c4 =>
      assert (Hc4 : exists o4, objects c4 !! i = Some o4 /\
                modifiers o4 =
                  [mkModifier "CYLSVG_CubeSubd" SUBSURF
                     (Z.max 1 (py_int (cyl_subdiv p))) (Z.max 1 (py_int (cyl_subdiv p)))
                     SIMPLE] /\
                bound_box o4 = cube_corners 1 /\
                name o4 = host_unique_name "CYLSVG_Cube"
                            (with_selected false <$> (refresh <$> objects c)) /\
                type o4 = MESH /\
                location o4 = mkVector 0 0 0 /\
                rotation o4 = identity_matrix)
        by (eexists; cbn [objects with_objects with_active]; rewrite lookup_insert_eq;
            split; [reflexivity | repeat split])
  end.
  destruct Hc4 as (o4 & Ho4 & Hm4 & Hb4 & Hn4 & Ht4 & Hl4 & Hr4).
  eapply wp_mono;
    [exact (wp_conj _ _ _ _ _ _ (apply_modifiers_applying i _ o4 Ho4)
              (wp_conj _ _ _ _ _ _
                 (wp_assuming _ _ _ _ _ (apply_modifiers_applied i _ o4 Ho4))
                 (wp_assuming _ _ _ _ _ (apply_modifiers_refused i _ o4 Ho4))))
    | | intros ? ? [[] _]].
  - intros ? c5 (((Ha & o & Ho & Hsel & Hn & Ht & Hl & Hr & Hs) & Hoth & Hp & Hrep)
                 & Happ & Hrefuse).
    assert (Hmods : ((forall m o, is_Some (host_modifier_apply m o)) -> modifiers o = []) /\
              ((forall m o, host_modifier_apply m o = None) ->
                 modifiers o =
                   [mkModifier "CYLSVG_CubeSubd" SUBSURF
                      (Z.max 1 (py_int (cyl_subdiv p))) (Z.max 1 (py_int (cyl_subdiv p)))
                      SIMPLE] /\
                 bound_box o = cube_corners 1)).
    { split; intros Hhost.
      - destruct (Happ Hhost) as (o' & Ho' & Hm'). congruence.
      - destruct (Hrefuse Hhost) as (o' & Ho' & Hm' & Hb').
        assert (o' = o) by congruence. subst o'. split; congruence. }
    rewrite Hn4 in Hn. rewrite Ht4 in Ht. rewrite Hl4 in Hl. rewrite Hr4 in Hr.
    apply wp_bind, wp_modify, wp_bind, wp_report, wp_ret.
    split; [reflexivity|]. exists i, o.
    cbn [objects active cylsvg_props reports with_objects with_active with_props with_reports]
      in *.
    split; [exact Hfresh|]. split; [exact Ha|]. split; [exact Ho|].
    split; [exact Hsel|]. split; [exact Ht|]. split; [exact Hl|]. split; [exact Hr|].
    split; [exact Hn|].
    split; [|split; [now rewrite Hp | split; [now rewrite Hrep | exact Hmods]]].
    intros j Hj. specialize (Hoth j Hj). cbn [objects with_objects with_active] in Hoth.
    rewrite !lookup_insert_ne in Hoth by congruence. rewrite !lookup_fmap in Hoth.
    destruct (objects c !! j); cbn in Hoth |- *; exact Hoth.
Qed.

(** X12: when the cube operator finishes, the cube is an object the scene
    did not have: a mesh at the origin, not rotated, selected and active,
    with the name the host makes of "CYLSVG_Cube".  Every object the scene
    had is still there with its name, transform, geometry and modifiers,
    and is deselected; no other object appears. *)
Theorem add_cube_keeps_existing_objects (c : Context) :
  cyl_inner_r (cylsvg_props c) < cyl_outer_r (cylsvg_props c) ->
  exists c' i cube,
    AddCubeFromCylinder_execute c = Ok FINISHED c' /\
    objects c !! i = None /\
    objects c' !! i = Some cube /\
    active c' = Some i /\
    selected cube = true /\
    type cube = MESH /\
    location cube = mkVector 0 0 0 /\
    rotation cube = identity_matrix /\
    name cube = host_unique_name "CYLSVG_Cube"
                  (with_selected false <$> (refresh <$> objects c)) /\
    others_kept i c c'.
Proof.
  intros Hlt.
  assert (Hng : ~ _to_meters (cyl_inner_r (cylsvg_props c)) (Some (cyl_unit (cylsvg_props c))) >=
                  _to_meters (cyl_outer_r (cylsvg_props c)) (Some (cyl_unit (cylsvg_props c)))).
  { rewrite to_meters_ge_iff. lra. }
  destruct (wp_total _ _ _ (add_cube_frame c Hng))
    as (st & c' & Hrun & -> & i & cube & Hf & Ha & Hi & Hsel & Ht & Hl & Hr & Hn & Hoth & _).
  exists c', i, cube. repeat split; assumption.
Qed.

(** X13: the cube operator appends exactly one report and changes no
    setting but [cube_obj]: an error report, and no setting at all, when
    it is cancelled; otherwise an information report that carries the
    three dimensions, with [cube_obj] set to the new cube. *)
Theorem add_cube_reports_once (c : Context) :
  let p := cylsvg_props c in
  let outer := _to_meters (cyl_outer_r p) (Some (cyl_unit p)) in
  let inner := _to_meters (cyl_inner_r p) (Some (cyl_unit p)) in
  let height := _to_meters (cyl_height p) (Some (cyl_unit p)) in
  exists st c' r,
    AddCubeFromCylinder_execute c = Ok st c' /\
    reports c' = reports c ++ [r] /\
    report_args r = match st with
                    | FINISHED => [2 * PI * outer; height; outer - inner]
                    | CANCELLED => []
                    end /\
    report_level r = match st with FINISHED => INFO | CANCELLED => ERROR end /\
    with_cube_obj (cube_obj p) (cylsvg_props c') = p /\
    (st = CANCELLED -> cylsvg_props c' = p) /\
    (st = FINISHED -> exists i, cube_obj (cylsvg_props c') = Some i /\ objects c !! i = None).
Proof.
  intros p outer inner height.
  destruct (decide (inner >= outer)) as [H|H].
  - exists CANCELLED. eexists _, _. split; [apply add_cube_cancel, H|].
    cbn [reports cylsvg_props with_reports]. fold p.
    repeat split; try discriminate. now destruct p.
  - destruct (wp_total _ _ _ (add_cube_frame c H))
      as (st & c' & Hrun & -> & i & cube & Hf & _ & _ & _ & _ & _ & _ & _ & _ & Hp & Hrep & _).
    exists FINISHED, c'. eexists. split; [exact Hrun|].
    split; [exact Hrep|]. fold p in Hp. rewrite Hp.
    repeat split; try discriminate; [now destruct p|]. intros _. exists i. now split.
Qed.

(** X14: run twice on settings it accepts, the cube operator makes two
    cubes.  The second is a new object; the first is still in the scene as
    the first run left it, now deselected, and the settings refer to the
    second only. *)
Theorem add_cube_twice_makes_two_cubes (c : Context) :
  cyl_inner_r (cylsvg_props c) < cyl_outer_r (cylsvg_props c) ->
  exists c1 c2 i1 i2 cube1 cube1',
    AddCubeFromCylinder_execute c = Ok FINISHED c1 /\
    AddCubeFromCylinder_execute c1 = Ok FINISHED c2 /\
    i1 <> i2 /\
    cube_obj (cylsvg_props c1) = Some i1 /\
    cube_obj (cylsvg_props c2) = Some i2 /\
    objects c1 !! i1 = Some cube1 /\
    objects c2 !! i1 = Some cube1' /\
    same_shape cube1 cube1' /\
    selected cube1' = false /\
    is_Some (objects c2 !! i2) /\
    active c2 = Some i2.
Proof.
  intros Hlt.
  assert (Hng : ~ _to_meters (cyl_inner_r (cylsvg_props c)) (Some (cyl_unit (cylsvg_props c))) >=
                  _to_meters (cyl_outer_r (cylsvg_props c)) (Some (cyl_unit (cylsvg_props c)))).
  { rewrite to_meters_ge_iff. lra. }
  destruct (wp_total _ _ _ (add_cube_frame c Hng))
    as (st & c1 & Hrun1 & -> & i1 & cube1 & Hf1 & Ha1 & Hi1 & _ & _ & _ & _ & _ & _ & Hp1 & _).
  assert (Hng1 : ~ _to_meters (cyl_inner_r (cylsvg_props c1)) (Some (cyl_unit (cylsvg_props c1))) >=
                   _to_meters (cyl_outer_r (cylsvg_props c1)) (Some (cyl_unit (cylsvg_props c1)))).
  { rewrite Hp1. exact Hng. }
  destruct (wp_total _ _ _ (add_cube_frame c1 Hng1))
    as (st & c2 & Hrun2 & -> & i2 & cube2 & Hf2 & Ha2 & Hi2 & _ & _ & _ & _ & _ & Hoth & Hp2 & _).
  assert (Hne : i1 <> i2) by (intros ->; congruence).
  specialize (Hoth i1 Hne). rewrite Hi1 in Hoth.
  destruct (objects c2 !! i1) as [cube1'|] eqn:Hi1'; [|destruct Hoth].
  destruct Hoth as [Hsh Hsel].
  exists c1, c2, i1, i2, cube1, cube1'.
  repeat split; try assumption; try apply Hsh.
  - now rewrite Hp1.
  - now rewrite Hp2.
  - eauto.
Qed.

(** X15: the cube operator reports the modifier as applied whether or not
    the host applied it.  When the host applies what it is asked to apply,
    the cube ends without modifiers.  When the host refuses, the operator
    still finishes with the same report, and the cube still carries the
    subdivision modifier, simple, of level [max(1, int(cyl_subdiv))], over
    the unit cube the host added. *)
Theorem add_cube_says_applied_regardless (c : Context) :
  cyl_inner_r (cylsvg_props c) < cyl_outer_r (cylsvg_props c) ->
  exists c' i cube r,
    AddCubeFromCylinder_execute c = Ok FINISHED c' /\
    cube_obj (cylsvg_props c') = Some i /\
    objects c' !! i = Some cube /\
    reports c' = reports c ++ [r] /\
    report_level r = INFO /\
    report_text r = "Cylinder→Cube: X={X:.3f}m, Y={Y:.3f}m, Z={Z:.3f}m (applied)."%string /\
    ((forall m o, is_Some (host_modifier_apply m o)) -> modifiers cube = []) /\
    ((forall m o, host_modifier_apply m o = None) ->
       modifiers cube =
         [mkModifier "CYLSVG_CubeSubd" SUBSURF
            (Z.max 1 (py_int (cyl_subdiv (cylsvg_props c))))
            (Z.max 1 (py_int (cyl_subdiv (cylsvg_props c)))) SIMPLE] /\
       bound_box cube = cube_corners 1).
Proof.
  intros Hlt.
  assert (Hng : ~ _to_meters (cyl_inner_r (cylsvg_props c)) (Some (cyl_unit (cylsvg_props c))) >=
                  _to_meters (cyl_outer_r (cylsvg_props c)) (Some (cyl_unit (cylsvg_props c)))).
  { rewrite to_meters_ge_iff. lra. }
  destruct (wp_total _ _ _ (add_cube_frame c Hng))
    as (st & c' & Hrun & -> & i & cube & _ & _ & Hi & _ & _ & _ & _ & _ & _ & Hp & Hrep
        & Happ & Hrefuse).
  exists c', i, cube. eexists. split; [exact Hrun|].
  split; [now rewrite Hp|]. split; [exact Hi|]. split; [exact Hrep|].
  split; [reflexivity|]. split; [reflexivity|]. split; assumption.
Qed.

(** ** The place-and-join operator: when it is cancelled *)

Lemma execute_cancel (c : Context) :
  flat_obj (cylsvg_props c) = None \/ cube_obj (cylsvg_props c) = None ->
  PlaceSvgOnCubeTopJoin_execute c =
    Ok CANCELLED (with_reports (reports c ++ [mkReport ERROR "SVG or Cube not set." []]) c).
Proof.
  intros H. unfold PlaceSvgOnCubeTopJoin_execute, props, bind at 1 2, get, ret.
  destruct H as [-> | ->]; [reflexivity|].
  destruct (flat_obj (cylsvg_props c)); reflexivity.
Qed.

Lemma execute_outcome (c : Context) :
  wp PlaceSvgOnCubeTopJoin_execute
     (fun st c' =>
        match flat_obj (cylsvg_props c), cube_obj (cylsvg_props c) with
        | Some _, Some cube =>
            st = FINISHED /\ flat_obj (cylsvg_props c') = None /\
            cube_obj (cylsvg_props c') = Some cube
        | _, _ => st = CANCELLED
        end)
     (fun _ _ => True) c.
Proof.
  unfold PlaceSvgOnCubeTopJoin_execute. apply wp_bind, wp_props.
  destruct (flat_obj (cylsvg_props c)) as [flat|];
    [destruct (cube_obj (cylsvg_props c)) as [cube|]|].
  - apply wp_bind. eapply wp_mono; [apply place_active | | auto].
    intros ? c1 Ha. eapply wp_mono; [apply (join_bookkeeping cube c1 Ha) | | auto].
    intros st' c2 (-> & Hf & Hq & _). auto.
  - apply wp_bind, wp_report, wp_ret. reflexivity.
  - apply wp_bind, wp_report, wp_ret. reflexivity.
Qed.

(** X16: the place-and-join operator is cancelled exactly when one of the
    two references is unset, and then it only reports the error: objects,
    active object and settings are as they were. *)
Theorem place_join_cancelled_iff_reference_unset (c : Context) :
  (flat_obj (cylsvg_props c) = None \/ cube_obj (cylsvg_props c) = None ->
     PlaceSvgOnCubeTopJoin_execute c =
       Ok CANCELLED
          (with_reports (reports c ++ [mkReport ERROR "SVG or Cube not set." []]) c)) /\
  (forall st c',
     PlaceSvgOnCubeTopJoin_execute c = Ok st c' ->
     (st = CANCELLED <->
      flat_obj (cylsvg_props c) = None \/ cube_obj (cylsvg_props c) = None)).
Proof.
  split; [apply execute_cancel|]. intros st c' Hrun.
  pose proof (wp_Ok_inv _ _ _ _ _ _ (execute_outcome c) Hrun) as H. cbn beta in H.
  split.
  - intros ->. destruct (flat_obj (cylsvg_props c)); [|now left].
    destruct (cube_obj (cylsvg_props c)); [|now right].
    destruct H as [H _]. discriminate.
  - intros Hn. rewrite (execute_cancel c Hn) in Hrun. now injection Hrun as <- _.
Qed.

(** X17: a run of the place-and-join operator that finished cannot be
    repeated: it has emptied the flat reference, so the next run is
    cancelled, and changes nothing but the list of reports. *)
Theorem place_join_second_run_cancelled (c c1 : Context) :
  PlaceSvgOnCubeTopJoin_execute c = Ok FINISHED c1 ->
  PlaceSvgOnCubeTopJoin_execute c1 =
    Ok CANCELLED
       (with_reports (reports c1 ++ [mkReport ERROR "SVG or Cube not set." []]) c1).
Proof.
  intros Hrun.
  pose proof (wp_Ok_inv _ _ _ _ _ _ (execute_outcome c) Hrun) as H. cbn beta in H.
  apply execute_cancel. left.
  destruct (flat_obj (cylsvg_props c)); [|discriminate].
  destruct (cube_obj (cylsvg_props c)); [|discriminate].
  apply H.
Qed.

(** ** The place-and-join operator: what it leaves alone *)

Lemma place_frame (flat cube : ident) (c : Context) (f q : Object) :
  flat <> cube ->
  objects c !! flat = Some f ->
  objects c !! cube = Some q ->
  bound_box f <> [] ->
  bound_box q <> [] ->
  exists c1 f1 q1,
    PlaceSvgOnCubeTopJoin_place flat cube c = Ok tt c1 /\
    objects c1 !! flat = Some f1 /\
    objects c1 !! cube = Some q1 /\
    selected f1 = true /\ type f1 = type f /\
    selected q1 = true /\ same_shape q q1 /\
    active c1 = Some cube /\
    cylsvg_props c1 = cylsvg_props c /\
    reports c1 = reports c /\
    (forall j, j <> flat -> j <> cube ->
       match objects c !! j, objects c1 !! j with
       | Some o, Some o' => same_shape o o' /\ selected o' = false
       | None, None => True
       | _, _ => False
       end).
Proof.
  intros Hne Hf Hq Hbf Hbq.
  destruct (world_bbox_size_total f Hbf) as (cur_X & sy & sz & Hsz & _).
  pose proof (prescale_cases flat c f cur_X sy sz Hf Hsz) as Hpre. cbv zeta in Hpre.
  assert (H0 : exists c0 f0 q0,
             PlaceSvgOnCubeTopJoin_prescale flat c = Ok tt c0 /\
             objects c0 !! flat = Some f0 /\ objects c0 !! cube = Some q0 /\
             bound_box f0 <> [] /\ bound_box q0 <> [] /\
             type f0 = type f /\ same_shape q q0 /\
             cylsvg_props c0 = cylsvg_props c /\ reports c0 = reports c /\
             (forall j, j <> flat ->
                match objects c !! j, objects c0 !! j with
                | Some o, Some o' => same_shape o o'
                | None, None => True
                | _, _ => False
                end)).
  { destruct (bool_decide _ && bool_decide _).
    - eexists _, _, _. split; [exact Hpre|]. cbn [objects with_objects].
      split; [rewrite lookup_fmap, lookup_insert_eq; reflexivity|].
      split; [rewrite lookup_fmap, lookup_insert_ne, Hq by congruence; reflexivity|].
      repeat (split; [first [assumption | reflexivity | solve [repeat split]]|]).
      intros j Hj. rewrite lookup_fmap, lookup_insert_ne by congruence.
      destruct (objects c !! j); cbn; [repeat split | exact I].
    - exists c, f, q. repeat (split; [first [assumption | reflexivity | solve [repeat split]]|]).
      intros j Hj. destruct (objects c !! j); [apply same_shape_refl | exact I]. }
  destruct H0 as (c0 & f0 & q0 & Hrun0 & Hf0 & Hq0 & Hbf0 & Hbq0 & Htf & Hsq & Hp0 & Hr0 & Hoth0).
  destruct (min_max_z_total _ Hbf0) as (lo' & hi' & Hzf & _).
  destruct (min_max_z_total _ Hbq0) as (lo & hi & Hzq & _).
  destruct (align_distinct _ _ _ _ _ _ _ _ _ Hne Hf0 Hq0 Hzq Hzf)
    as (c1 & f1 & Hrun & Hf1 & Hq1 & Hpl & Hothers & Ha & Hp1 & Hr1).
  destruct Hpl as (_ & _ & _ & _ & _ & _ & Ht1 & _ & Hsel).
  exists c1, f1, (with_selected true (refresh q0)).
  split; [unfold PlaceSvgOnCubeTopJoin_place; now rewrite (bind_Ok _ _ _ _ _ Hrun0)|].
  repeat (split; [first [assumption | reflexivity | congruence]|]).
  intros j Hjf Hjc. rewrite (Hothers j Hjf Hjc). specialize (Hoth0 j Hjf).
  destruct (objects c !! j), (objects c0 !! j); cbn; tauto.
Qed.

Lemma execute_frame
    (flat cube : ident) (c : Context) (f q : Object) :
  flat_obj (cylsvg_props c) = Some flat ->
  cube_obj (cylsvg_props c) = Some cube ->
  flat <> cube ->
  objects c !! flat = Some f ->
  objects c !! cube = Some q ->
  bound_box f <> [] ->
  bound_box q <> [] ->
  type f = MESH ->
  type q = MESH ->
  exists c' q',
    PlaceSvgOnCubeTopJoin_execute c = Ok FINISHED c' /\
    objects c' !! flat = None /\
    objects c' !! cube = Some q' /\
    active c' = Some cube /\
    selected q' = true /\
    name q' = name q /\ type q' = MESH /\
    location q' = location q /\ rotation q' = rotation q /\ scale q' = scale q /\
    modifiers q' = modifiers q /\
    (forall j, j <> flat -> j <> cube ->
       match objects c !! j, objects c' !! j with
       | Some o, Some o' => same_shape o o' /\ selected o' = false
       | None, None => True
       | _, _ => False
       end) /\
    reports c' = reports c ++ [mkReport INFO "SVG aligned on cube and joined." []] /\
    flat_obj (cylsvg_props c') = None /\
    cube_obj (cylsvg_props c') = Some cube.
Proof.
  intros Hfo Hco Hne Hf Hq Hbf Hbq Htf Htq.
  destruct (place_frame flat cube c f q Hne Hf Hq Hbf Hbq)
    as (c1 & f1 & q1 & Hrun & Hf1 & Hq1 & Hsf & Htf1 & Hsq & Hshape & Ha & Hp1 & Hr1 & Hothers).
  destruct Hshape as (Hqn & Hqt & Hql & Hqr & Hqs & Hqb & Hqm).
  rewrite (execute_place_join c flat cube c1 Hfo Hco Hrun).
  set (objs := refresh <$> objects c1).
  assert (Hlf : objs !! flat = Some (refresh f1)) by (subst objs; now rewrite lookup_fmap, Hf1).
  assert (Hlq : objs !! cube = Some (refresh q1)) by (subst objs; now rewrite lookup_fmap, Hq1).
  assert (Hunsel : forall j o, j <> flat -> j <> cube -> objs !! j = Some o -> selected o = false).
  { intros j o Hjf Hjc Hj. subst objs. rewrite lookup_fmap in Hj.
    specialize (Hothers j Hjf Hjc).
    destruct (objects c1 !! j) as [o'|] eqn:Ej; [|discriminate].
    injection Hj as <-. destruct (objects c !! j); [apply Hothers | destruct Hothers]. }
  assert (Hsrc : join_sources cube objs = {[flat := refresh f1]}).
  { apply join_sources_single with (q1 := refresh q1); try assumption.
    change (type f1 = MESH). congruence. }
  assert (Hty : type (refresh q1) = MESH) by (change (type q1 = MESH); congruence).
  pose proof (join_merge cube c1 (refresh q1) _ Ha Hlq Hsrc Hsq Hty
                (map_non_empty_singleton _ _)) as Hjoin.
  rewrite map_to_list_singleton in Hjoin. cbn [fmap list_fmap snd] in Hjoin.
  unfold PlaceSvgOnCubeTopJoin_join.
  rewrite (bind_Ok _ _ _ _ _ Hjoin).
  eexists _, _. split; [reflexivity|].
  cbn [objects active reports cylsvg_props with_objects with_props with_reports
       flat_obj cube_obj with_flat_obj with_cube_obj]. fold objs.
  split.
  { rewrite lookup_insert_ne by congruence.
    apply lookup_difference_None. right. rewrite lookup_singleton_eq. eauto. }
  split; [apply lookup_insert_eq|].
  split; [exact Ha|].
  cbn [selected name type location rotation scale modifiers with_bound_box refresh
       with_matrix_world].
  repeat (split; [first [assumption | congruence]|]).
  split; [|split; [now rewrite Hr1 | split; [reflexivity | exact Ha]]].
  intros j Hjf Hjc. rewrite lookup_insert_ne by congruence.
  specialize (Hothers j Hjf Hjc).
  assert (Hj : (objs ∖ {[flat := refresh f1]}) !! j = objs !! j).
  { destruct (objs !! j) as [o|] eqn:Ej.
    - apply lookup_difference_Some. split; [exact Ej|]. now apply lookup_singleton_ne.
    - apply lookup_difference_None. now left. }
  rewrite Hj. subst objs. rewrite lookup_fmap.
  destruct (objects c !! j), (objects c1 !! j); cbn; try tauto.
Qed.

(** X18: on two different mesh objects the operator finishes, and nothing
    but the two is touched: every other object is still there with its
    name, transform, geometry and modifiers, deselected, and no object
    appears.  The flat object is gone; the cube carries the joined
    geometry but keeps its name, location, rotation, scale and modifiers,
    and is selected and active.  One information report is appended. *)
Theorem place_join_touches_only_the_two
    (flat cube : ident) (c : Context) (f q : Object) :
  flat_obj (cylsvg_props c) = Some flat ->
  cube_obj (cylsvg_props c) = Some cube ->
  flat <> cube ->
  objects c !! flat = Some f ->
  objects c !! cube = Some q ->
  bound_box f <> [] ->
  bound_box q <> [] ->
  type f = MESH ->
  type q = MESH ->
  exists c' q',
    PlaceSvgOnCubeTopJoin_execute c = Ok FINISHED c' /\
    objects c' !! flat = None /\
    objects c' !! cube = Some q' /\
    active c' = Some cube /\
    selected q' = true /\
    name q' = name q /\ type q' = MESH /\
    location q' = location q /\ rotation q' = rotation q /\ scale q' = scale q /\
    modifiers q' = modifiers q /\
    (forall j, j <> flat -> j <> cube ->
       match objects c !! j, objects c' !! j with
       | Some o, Some o' => same_shape o o' /\ selected o' = false
       | None, None => True
       | _, _ => False
       end) /\
    reports c' = reports c ++ [mkReport INFO "SVG aligned on cube and joined." []].
Proof.
  intros Hfo Hco Hne Hf Hq Hbf Hbq Htf Htq.
  destruct (execute_frame flat cube c f q Hfo Hco Hne Hf Hq Hbf Hbq Htf Htq)
    as (c' & q' & Hrun & Hgone & Hq' & Ha & Hsel & Hn & Ht & Hl & Hr & Hs & Hm & Hoth
        & Hrep & _).
  exists c', q'. repeat (split; [assumption|]). exact Hrep.
Qed.

(** ** The guards of the pre-scaling *)

(** X19: the test [R > 0] of line 240 never decides: a positive stored
    width below the diameter already makes the radius positive.  When the
    stored width is not below the diameter, or the flat object has no
    width, the operator still places the flat object and leaves its scale
    as it was. *)
Theorem place_guards_leave_scale
    (flat cube : ident) (c : Context) (f q : Object) (cur_X sy sz : R) :
  let p := cylsvg_props c in
  let Rm := _to_meters (cyl_outer_r p) (Some (cyl_unit p)) in
  let W := svg_orig_x p in
  objects c !! flat = Some f ->
  objects c !! cube = Some q ->
  bound_box q <> [] ->
  _world_bbox_size f = inr (cur_X, sy, sz) ->
  (width_guard p <-> preserve_apparent_width p = true /\ 0 < W < 2 * Rm) /\
  (W >= 2 * Rm \/ cur_X <= 0 ->
   exists c1 f1,
     PlaceSvgOnCubeTopJoin_place flat cube c = Ok tt c1 /\
     objects c1 !! flat = Some f1 /\
     scale f1 = scale f).
Proof.
  intros p Rm W Hf Hq Hbq Hsz. split.
  - unfold width_guard. fold Rm. fold W. split.
    + intros (H1 & H2 & H3 & H4). split; [exact H1 | lra].
    + intros (H1 & H2 & H3). repeat split; try assumption; lra.
  - intros Hedge.
    destruct (place_total flat cube c f q cur_X sy sz Hf Hq Hbq Hsz)
      as (c1 & f1 & Hrun & Hf1 & Hs & _).
    exists c1, f1. split; [exact Hrun|]. split; [exact Hf1|].
    rewrite Hs. fold p. fold Rm.
    destruct Hedge as [HW|HX].
    + rewrite (bool_decide_eq_false_2 (width_guard p)); [reflexivity|].
      unfold width_guard. fold Rm. fold W. intros (_ & _ & H3 & _). lra.
    + rewrite (bool_decide_eq_false_2 (cur_X > 0)) by lra.
      now rewrite andb_false_r.
Qed.

(** ** The width the pre-scaling gives *)

Lemma Rmax_affine (k a b d : R) : 0 < k -> Rmax (k * a + d) (k * b + d) = k * Rmax a b + d.
Proof. intros H. unfold Rmax; repeat destruct Rle_dec; nra. Qed.

Lemma Rmin_affine (k a b d : R) : 0 < k -> Rmin (k * a + d) (k * b + d) = k * Rmin a b + d.
Proof. intros H. unfold Rmin; repeat destruct Rle_dec; nra. Qed.

Lemma fold_Rmax_affine (k d : R) (l : list R) (a : R) :
  0 < k ->
  fold_left Rmax (map (fun x => k * x + d) l) (k * a + d) = k * fold_left Rmax l a + d.
Proof.
  intros H. revert a; induction l as [|b l IH]; intros a; simpl; [reflexivity|].
  now rewrite Rmax_affine, IH.
Qed.

Lemma fold_Rmin_affine (k d : R) (l : list R) (a : R) :
  0 < k ->
  fold_left Rmin (map (fun x => k * x + d) l) (k * a + d) = k * fold_left Rmin l a + d.
Proof.
  intros H. revert a; induction l as [|b l IH]; intros a; simpl; [reflexivity|].
  now rewrite Rmin_affine, IH.
Qed.

Lemma py_max_affine (k d : R) (l : list R) (m : R) :
  0 < k -> py_max l = inr m -> py_max (map (fun x => k * x + d) l) = inr (k * m + d).
Proof.
  intros H. destruct l as [|a l]; simpl; [discriminate|].
  intros [= <-]. now rewrite fold_Rmax_affine.
Qed.

Lemma py_min_affine (k d : R) (l : list R) (m : R) :
  0 < k -> py_min l = inr m -> py_min (map (fun x => k * x + d) l) = inr (k * m + d).
Proof.
  intros H. destruct l as [|a l]; simpl; [discriminate|].
  intros [= <-]. now rewrite fold_Rmin_affine.
Qed.

Lemma world_bbox_size_x (o : Object) (w sy sz : R) :
  _world_bbox_size o = inr (w, sy, sz) ->
  exists hx lx,
    py_max (map vx (_world_bbox o)) = inr hx /\
    py_min (map vx (_world_bbox o)) = inr lx /\
    w = hx - lx.
Proof.
  unfold _world_bbox_size.
  destruct (py_max (map vx _)) as [|hx]; [discriminate|].
  destruct (py_min (map vx _)) as [|lx]; [discriminate|].
  destruct (py_max (map vy _)) as [|hy]; [discriminate|].
  destruct (py_min (map vy _)) as [|ly]; [discriminate|].
  destruct (py_max (map vz _)) as [|hz]; [discriminate|].
  destruct (py_min (map vz _)) as [|lz]; [discriminate|].
  cbn [pbind]. intros [= <- _ _]. eauto.
Qed.

Lemma world_bbox_size_of_x (o : Object) (hx lx : R) :
  py_max (map vx (_world_bbox o)) = inr hx ->
  py_min (map vx (_world_bbox o)) = inr lx ->
  exists sy sz, _world_bbox_size o = inr (hx - lx, sy, sz).
Proof.
  intros Hhx Hlx. unfold _world_bbox_size. rewrite Hhx, Hlx. cbn [pbind].
  assert (Hne : _world_bbox o <> []).
  { intros E. rewrite E in Hhx. discriminate. }
  destruct (py_max_total _ (map_nonempty vy _ Hne)) as [hy Hhy].
  destruct (py_min_total _ (map_nonempty vy _ Hne)) as [ly Hly].
  destruct (py_max_total _ (map_nonempty vz _ Hne)) as [hz Hhz].
  destruct (py_min_total _ (map_nonempty vz _ Hne)) as [lz Hlz].
  rewrite Hhy, Hly, Hhz, Hlz. cbn [pbind]. eauto.
Qed.

(** Scaling in X an object whose local X axis lies along the world X axis
    scales the world X of every corner about the object's location. *)
Lemma world_x_scaled (f : Object) (K : R) :
  matrix_world f = world_matrix_of f ->
  vy (row_x (rotation f)) = 0 ->
  vz (row_x (rotation f)) = 0 ->
  map vx (_world_bbox (refresh (scaled_x K f))) =
  map (fun x => K * x + (1 - K) * vx (location f)) (map vx (_world_bbox f)).
Proof.
  intros Hev Hy Hz. unfold _world_bbox. rewrite Hev, !map_map.
  apply map_ext; intros p.
  cbn [matrix_world refresh with_matrix_world scaled_x with_scale bound_box].
  unfold world_matrix_of, mat_apply, vdot, scale_columns, scaled_x, with_scale.
  cbn [row_x translation vx vy vz rotation scale location]. rewrite Hy, Hz. ring.
Qed.

(** X20: what the pre-scaling is for.  When the guards hold, the cached
    world matrix of the flat object is current and its local X axis lies
    along the world X axis, the flat object is, at the time of the join,
    exactly as wide as the arc [2R asin(W / 2R)], whose chord on the
    circle of radius [R] is the stored width [W]. *)
Theorem place_makes_width_the_arc
    (flat cube : ident) (c : Context) (f q : Object) (cur_X sy sz : R) :
  let p := cylsvg_props c in
  let Rm := _to_meters (cyl_outer_r p) (Some (cyl_unit p)) in
  let W := svg_orig_x p in
  objects c !! flat = Some f ->
  objects c !! cube = Some q ->
  bound_box q <> [] ->
  matrix_world f = world_matrix_of f ->
  vy (row_x (rotation f)) = 0 ->
  vz (row_x (rotation f)) = 0 ->
  _world_bbox_size f = inr (cur_X, sy, sz) ->
  width_guard p ->
  cur_X > 0 ->
  exists c1 f1 sy' sz',
    PlaceSvgOnCubeTopJoin_place flat cube c = Ok tt c1 /\
    objects c1 !! flat = Some f1 /\
    _world_bbox_size f1 = inr (2 * Rm * asin (W / (2 * Rm)), sy', sz') /\
    2 * Rm * sin (2 * Rm * asin (W / (2 * Rm)) / (2 * Rm)) = W.
Proof.
  intros p Rm W Hf Hq Hbq Hev Hy Hz Hsz HG HX.
  pose proof HG as (Hflag & HW & HW2 & HR). fold Rm in HW2, HR. fold W in HW, HW2.
  pose proof (world_bbox_size_nonempty _ _ Hsz) as Hbf.
  set (L := 2 * Rm * asin (W / (2 * Rm))).
  assert (HL : 0 < L).
  { pose proof (chord_ratio_range _ _ HW HW2) as Hq'.
    assert (0 < asin (W / (2 * Rm))).
    { pose proof (asin_gt_id (W / (2 * Rm))) as Hlt.
      assert (0 < W / (2 * Rm)) by (apply Rdiv_lt_0_compat; lra).
      destruct (Rlt_dec (W / (2 * Rm)) 1) as [H1|H1]; [specialize (Hlt ltac:(lra)); lra|].
      lra. }
    subst L. apply Rmult_lt_0_compat; lra. }
  set (K := L / cur_X).
  assert (HK : 0 < K) by (subst K; apply Rdiv_lt_0_compat; lra).
  pose proof (prescale_cases flat c f cur_X sy sz Hf Hsz) as Hpre.
  cbv zeta in Hpre. fold p in Hpre. fold Rm in Hpre. fold W in Hpre. fold L in Hpre.
  fold K in Hpre.
  rewrite (bool_decide_eq_true_2 _ HG), (bool_decide_eq_true_2 _ HX) in Hpre.
  cbn [andb] in Hpre.
  set (c0 := with_objects _ c) in Hpre.
  assert (Hf0 : objects c0 !! flat = Some (refresh (scaled_x K f))).
  { subst c0; cbn [objects with_objects]. now rewrite lookup_fmap, lookup_insert_eq. }
  assert (Hq0 : exists q0, objects c0 !! cube = Some q0 /\ bound_box q0 <> []).
  { destruct (decide (cube = flat)) as [->|Hne]; [eauto|].
    exists (refresh q). subst c0; cbn [objects with_objects].
    rewrite lookup_fmap, lookup_insert_ne by congruence. now rewrite Hq. }
  destruct Hq0 as (q0 & Hq0 & Hbq0).
  destruct (align_total flat cube c0 _ _ Hf0 Hq0 Hbf Hbq0)
    as (c1 & f1 & d & Hrun & Hf1 & Hpl & _).
  destruct Hpl as (Hl1 & Hev1 & Hb1 & Hro1 & Hs1 & _).
  assert (Hwb : _world_bbox f1 = map (fun x => vadd x d) (_world_bbox (refresh (scaled_x K f)))).
  { apply world_bbox_moved; try assumption. reflexivity. }
  destruct (world_bbox_size_x _ _ _ _ Hsz) as (hx & lx & Hhx & Hlx & HcurX).
  pose proof (world_x_scaled f K Hev Hy Hz) as Hxs.
  pose proof (py_max_affine K ((1 - K) * vx (location f)) _ _ HK Hhx) as Hhx'.
  pose proof (py_min_affine K ((1 - K) * vx (location f)) _ _ HK Hlx) as Hlx'.
  rewrite <- Hxs in Hhx', Hlx'.
  destruct (world_bbox_size_of_x _ _ _ Hhx' Hlx') as (sy' & sz' & Hsz').
  exists c1, f1, sy', sz'.
  split; [unfold PlaceSvgOnCubeTopJoin_place; now rewrite (bind_Ok _ _ _ _ _ Hpre)|].
  split; [exact Hf1|].
  split; [|apply chord_of_target; assumption].
  rewrite (world_bbox_size_shift _ _ _ Hwb), Hsz'. do 3 f_equal.
  subst K. rewrite HcurX in *. field. lra.
Qed.

(** ** The filter of the object pickers *)

(** X21: the references the cube operator and the place-and-join operator
    store themselves, without the picker, pass the picker's filter: the
    new cube is a mesh, and so is the object two meshes were joined
    into. *)
Theorem stored_references_pass_poll (c : Context) :
  _poll_mesh None = false /\
  (cyl_inner_r (cylsvg_props c) < cyl_outer_r (cylsvg_props c) ->
   exists c' i,
     AddCubeFromCylinder_execute c = Ok FINISHED c' /\
     cube_obj (cylsvg_props c') = Some i /\
     _poll_mesh (objects c' !! i) = true) /\
  (forall flat cube f q,
     flat_obj (cylsvg_props c) = Some flat ->
     cube_obj (cylsvg_props c) = Some cube ->
     flat <> cube ->
     objects c !! flat = Some f ->
     objects c !! cube = Some q ->
     bound_box f <> [] ->
     bound_box q <> [] ->
     type f = MESH ->
     type q = MESH ->
     exists c',
       PlaceSvgOnCubeTopJoin_execute c = Ok FINISHED c' /\
       cube_obj (cylsvg_props c') = Some cube /\
       _poll_mesh (objects c' !! cube) = true).
Proof.
  split; [reflexivity|]. split.
  - intros Hlt.
    assert (Hng : ~ _to_meters (cyl_inner_r (cylsvg_props c)) (Some (cyl_unit (cylsvg_props c))) >=
                    _to_meters (cyl_outer_r (cylsvg_props c)) (Some (cyl_unit (cylsvg_props c)))).
    { rewrite to_meters_ge_iff. lra. }
    destruct (wp_total _ _ _ (add_cube_frame c Hng))
      as (st & c' & Hrun & -> & i & cube & _ & _ & Hi & _ & Ht & _ & _ & _ & _ & Hp & _).
    exists c', i. split; [exact Hrun|]. split; [now rewrite Hp|].
    rewrite Hi. cbn. now apply bool_decide_eq_true_2.
  - intros flat cube f q Hfo Hco Hne Hf Hq Hbf Hbq Htf Htq.
    destruct (execute_frame flat cube c f q Hfo Hco Hne Hf Hq Hbf Hbq Htf Htq)
      as (c' & q' & Hrun & _ & Hq' & _ & _ & _ & Ht & _ & _ & _ & _ & _ & _ & _ & Hc).
    exists c'. split; [exact Hrun|]. split; [exact Hc|].
    rewrite Hq'. cbn. now apply bool_decide_eq_true_2.
Qed.

End Host.

(** * The example scenes *)

Lemma example_lookup_flat : example_objects !! 1%positive = Some example_flat.
Proof. unfold example_objects. apply lookup_insert_eq. Qed.

Lemma example_lookup_cube : example_objects !! 2%positive = Some example_cube.
Proof.
  unfold example_objects. rewrite lookup_insert_ne by discriminate. apply lookup_insert_eq.
Qed.

Lemma example_evaluated (a : option positive) (p : CYLSVG_Props) (r : list Report) :
  evaluated (mkContext example_objects a p r).
Proof.
  intros i o. cbn [objects]. unfold example_objects.
  rewrite lookup_insert_Some, lookup_insert_Some, lookup_empty.
  intros [[_ <-]|[_ [[_ <-]|[_ [=]]]]]; reflexivity.
Qed.

Lemma example_flat_size : _world_bbox_size example_flat = inr (1, 1, 1).
Proof.
  unfold _world_bbox_size, _world_bbox, py_max, py_min. simpl.
  unfold vdot, scale_columns; cbn [vx vy vz].
  minmax_eval. repeat f_equal; lra.
Qed.

Lemma example_flat_min_max_z : _world_bbox_min_max_z example_flat = inr (- (1 / 2), 1 / 2).
Proof.
  unfold _world_bbox_min_max_z, _world_bbox, py_max, py_min. simpl.
  unfold vdot, scale_columns; cbn [vx vy vz].
  minmax_eval. repeat f_equal; lra.
Qed.

Lemma example_in_range (a b : option positive) (f : bool) : in_range (example_props a b f).
Proof. unfold in_range, example_props; cbn. repeat split; lra. Qed.

Lemma example_nonempty_flat : bound_box example_flat <> [].
Proof. discriminate. Qed.

Lemma example_nonempty_cube : bound_box example_cube <> [].
Proof. discriminate. Qed.

Lemma example_live_flat (a : option positive) (p : CYLSVG_Props) (r : list Report) :
  live (mkContext example_objects a p r) 1%positive.
Proof. exists example_flat. split; [apply example_lookup_flat | reflexivity]. Qed.

Lemma example_live_cube (a : option positive) (p : CYLSVG_Props) (r : list Report) :
  live (mkContext example_objects a p r) 2%positive.
Proof. exists example_cube. split; [apply example_lookup_cube | reflexivity]. Qed.

(** * Instances of the theorems on the example scenes *)

(** C4 at the unit ["MM"]. *)
Lemma to_meters_mm_cm_m_witness :
  lower "MM" = "mm"%string /\ _to_meters 5 (Some "MM"%string) = 5 / 1000.
Proof.
  split; [reflexivity|].
  apply (proj1 (to_meters_mm_cm_m 5 "MM")). reflexivity.
Defined.

(** C10 at the unit ["Meters"]. *)
Lemma to_meters_default_and_case_witness : _to_meters 5 (Some "Meters"%string) = 5.
Proof.
  apply (proj1 (to_meters_default_and_case 5) (Some "Meters"%string)).
  intros s [= <-]. split; discriminate.
Defined.

(** C1 on the example scene: outer radius 1, inner radius 1/2, height 1. *)
Lemma add_cube_dimensions_from_cylinder_witness :
  in_range (cylsvg_props example_scene) /\
  _to_meters (1 / 2) (Some "m"%string) < _to_meters 1 (Some "m"%string) /\
  exists c' i cube,
    AddCubeFromCylinder_execute example_modifier_apply example_unique_name example_scene
      = Ok FINISHED c' /\
    objects c' !! i = Some cube /\
    scale cube = mkVector (2 * PI * 1) 1 (1 - 1 / 2).
Proof.
  assert (H1 : in_range (cylsvg_props example_scene)) by apply example_in_range.
  assert (H2 : _to_meters (1 / 2) (Some "m"%string) < _to_meters 1 (Some "m"%string))
    by (unfold _to_meters; simpl; lra).
  split; [exact H1|]. split; [exact H2|].
  destruct (add_cube_dimensions_from_cylinder example_modifier_apply example_unique_name
              example_scene H1 H2) as (c' & i & cube & Hrun & _ & _ & Hi & Hs & _).
  exists c', i, cube. repeat split; assumption.
Defined.

(** C2 on the example scene: [W = 1], [R = 1], current width 1. *)
Lemma place_scales_x_by_arc_over_width_witness :
  objects example_scene !! 1%positive = Some example_flat /\
  _world_bbox_size example_flat = inr (1, 1, 1) /\
  exists c1 f1,
    PlaceSvgOnCubeTopJoin_place 1 2 example_scene = Ok tt c1 /\
    objects c1 !! 1%positive = Some f1 /\
    scale f1 = mkVector (1 * (2 * 1 * asin (1 / (2 * 1)) / 1)) 1 1.
Proof.
  split; [apply example_lookup_flat|]. split; [apply example_flat_size|].
  destruct (place_scales_x_by_arc_over_width example_join_bbox 1 2 example_scene
              example_flat example_cube 1 1 1)
    as ((c1 & f1 & Hrun & _ & Hf1 & Hs) & _).
  - reflexivity.
  - reflexivity.
  - apply example_lookup_flat.
  - apply example_lookup_cube.
  - apply example_nonempty_cube.
  - apply example_flat_size.
  - reflexivity.
  - change (0 < 1 < 2 * 1). lra.
  - change (1 > 0). lra.
  - lra.
  - exists c1, f1. repeat split; assumption.
Defined.

(** C3 on the example scene. *)
Lemma place_multiplier_at_least_one_witness :
  exists c1 f1 k,
    PlaceSvgOnCubeTopJoin_place 1 2 example_scene = Ok tt c1 /\
    objects c1 !! 1%positive = Some f1 /\
    vx (scale f1) = 1 * k /\
    1 <= k.
Proof.
  destruct (place_multiplier_at_least_one 1 2 example_scene example_flat example_cube 1 1)
    as (c1 & f1 & k & Hrun & Hf1 & Hs & _ & Hk & _).
  - apply example_lookup_flat.
  - apply example_lookup_cube.
  - apply example_nonempty_cube.
  - apply example_flat_size.
  - reflexivity.
  - change (0 < 1 < 2 * 1). lra.
  - change (1 > 0). lra.
  - exists c1, f1, k. repeat split; try assumption. now rewrite Hs.
Defined.

(** C5 on the example scene. *)
Lemma place_centres_flat_on_cube_top_witness :
  1%positive <> 2%positive /\
  live example_scene 1 /\ live example_scene 2 /\ evaluated example_scene /\
  exists c1 f1 q1 lo hi lo' hi',
    PlaceSvgOnCubeTopJoin_place 1 2 example_scene = Ok tt c1 /\
    objects c1 !! 1%positive = Some f1 /\
    objects c1 !! 2%positive = Some q1 /\
    _world_bbox_center_xy f1 = _world_bbox_center_xy q1 /\
    _world_bbox_min_max_z f1 = inr (lo, hi) /\
    _world_bbox_min_max_z q1 = inr (lo', hi') /\
    lo = hi'.
Proof.
  assert (Hne : 1%positive <> 2%positive) by discriminate.
  split; [exact Hne|].
  split; [apply example_live_flat|]. split; [apply example_live_cube|].
  split; [apply example_evaluated|].
  destruct (place_centres_flat_on_cube_top example_join_bbox 1 2 example_scene
              eq_refl eq_refl Hne (example_live_flat _ _ _) (example_live_cube _ _ _)
              (example_evaluated _ _ _))
    as (c1 & f1 & q1 & lo & hi & lo' & hi' & Hrun & _ & Hrest).
  exists c1, f1, q1, lo, hi, lo', hi'. split; assumption.
Defined.

(** C6 on the example scene. *)
Lemma place_join_updates_references_witness :
  exists c',
    PlaceSvgOnCubeTopJoin_execute example_join_bbox example_scene = Ok FINISHED c' /\
    flat_obj (cylsvg_props c') = None /\
    cube_obj (cylsvg_props c') = Some 2%positive /\
    active c' = Some 2%positive /\
    objects c' !! 1%positive = None.
Proof.
  destruct (execute_total example_join_bbox 1 2 example_scene example_flat example_cube
              eq_refl eq_refl example_lookup_flat example_lookup_cube
              example_nonempty_flat example_nonempty_cube) as (c' & Hrun).
  destruct (place_join_updates_references example_join_bbox example_scene c' FINISHED
              Hrun eq_refl) as (cube & Hc & Hf & Hq & Ha & _ & Hjoined).
  exists c'. cbn in Hc. injection Hc as <-.
  assert (Hne : 1%positive <> 2%positive) by discriminate.
  destruct (Hjoined 1%positive example_flat example_cube eq_refl Hne
              example_lookup_flat example_lookup_cube example_nonempty_flat
              example_nonempty_cube eq_refl eq_refl) as (Hgone & _).
  repeat split; try assumption. now rewrite <- Ha.
Defined.

(** C7 on the example scene with the flag off. *)
Lemma place_without_flag_keeps_scale_witness :
  preserve_apparent_width (cylsvg_props example_scene_off) = false /\
  exists c1 f1,
    PlaceSvgOnCubeTopJoin_place 1 2 example_scene_off = Ok tt c1 /\
    objects c1 !! 1%positive = Some f1 /\
    scale f1 = scale example_flat.
Proof.
  split; [reflexivity|].
  destruct (place_without_flag_keeps_scale example_join_bbox 1 2 example_scene_off
              example_flat example_cube eq_refl eq_refl example_lookup_flat
              example_lookup_cube example_nonempty_flat example_nonempty_cube
              (or_introl eq_refl))
    as ((c1 & f1 & Hrun & _ & Hf1 & Hs & _) & _).
  exists c1, f1. repeat split; assumption.
Defined.

(** * Where two claims fail *)

Lemma asin_half : asin (1 / 2) = PI / 6.
Proof.
  rewrite <- sin_PI6. apply asin_sin.
  pose proof PI_RGT_0. lra.
Qed.

(** C3 as stated fails.  On the example scene the conditions of the claim
    hold ([W = 1], [R = 1], the flag set, the current width equal to [W]);
    the operator multiplies the X scale of the flat object by
    [2 asin(1/2) = pi / 3], which is not at most 1. *)
Lemma place_multiplier_exceeds_one :
  let p := cylsvg_props example_scene in
  let Rm := _to_meters (cyl_outer_r p) (Some (cyl_unit p)) in
  let W := svg_orig_x p in
  preserve_apparent_width p = true /\
  0 < W < 2 * Rm /\
  Rm > 0 /\
  _world_bbox_size example_flat = inr (W, 1, 1) /\
  exists c1 f1,
    PlaceSvgOnCubeTopJoin_place 1 2 example_scene = Ok tt c1 /\
    objects c1 !! 1%positive = Some f1 /\
    vx (scale f1) = vx (scale example_flat) * (2 * Rm * asin (W / (2 * Rm)) / W) /\
    ~ 2 * Rm * asin (W / (2 * Rm)) / W <= 1.
Proof.
  intros p Rm W.
  assert (HW : 0 < 1 < 2 * 1) by lra.
  split; [reflexivity|]. split; [exact HW|]. split; [change (1 > 0); lra|].
  split; [apply example_flat_size|].
  destruct (place_total 1 2 example_scene example_flat example_cube 1 1 1
              example_lookup_flat example_lookup_cube example_nonempty_cube
              example_flat_size) as (c1 & f1 & Hrun & Hf1 & Hs & _).
  exists c1, f1. split; [exact Hrun|]. split; [exact Hf1|]. split.
  - rewrite Hs. rewrite !bool_decide_eq_true_2; [reflexivity | lra |].
    repeat split; [exact (proj1 HW) | exact (proj2 HW) | change (1 > 0); lra].
  - change (~ 2 * 1 * asin (1 / (2 * 1)) / 1 <= 1).
    replace (1 / (2 * 1)) with (1 / 2) by lra. rewrite asin_half.
    pose proof PI2_3_2. lra.
Qed.

(** C5 as stated fails when both references denote the same object.  On
    the scene whose two references are the unit box, the operator moves
    the box up by its own height: its lowest world Z, which is the flat
    object's, is then not its highest, which is the cube's. *)
Lemma place_same_object_not_on_top :
  flat_obj (cylsvg_props alias_scene) = Some 1%positive /\
  cube_obj (cylsvg_props alias_scene) = Some 1%positive /\
  live alias_scene 1 /\
  evaluated alias_scene /\
  exists c1 f1 lo hi,
    PlaceSvgOnCubeTopJoin_place 1 1 alias_scene = Ok tt c1 /\
    objects c1 !! 1%positive = Some f1 /\
    _world_bbox_min_max_z f1 = inr (lo, hi) /\
    lo <> hi.
Proof.
  split; [reflexivity|]. split; [reflexivity|].
  split; [apply example_live_flat|]. split; [apply example_evaluated|].
  destruct (align_alias 1 alias_scene example_flat _ _ example_lookup_flat
              example_flat_min_max_z) as (c1 & f1 & Hrun & Hf1 & Hpl & _).
  destruct Hpl as (Hloc & Hmw & Hb & Hro & Hs & _).
  pose proof (world_bbox_moved example_flat f1 _ eq_refl Hmw Hb Hro Hs Hloc) as Hwb.
  pose proof (min_max_z_shift example_flat f1 _ _ _ Hwb example_flat_min_max_z) as Hz.
  eexists c1, f1, _, _. split; [|split; [exact Hf1 | split; [exact Hz|]]].
  - unfold PlaceSvgOnCubeTopJoin_place, PlaceSvgOnCubeTopJoin_prescale.
    rewrite (bind_Ok _ _ alias_scene alias_scene tt); [exact Hrun|].
    apply prescale_with_skip. intros (Hp & _). discriminate Hp.
  - cbn [vz]. lra.
Qed.

(** * Instances of the further properties *)

Lemma example_lookup_modified :
  objects example_modified_scene !! 1%positive = Some example_subsurf_flat.
Proof. apply lookup_insert_eq. Qed.

Lemma example_inner_lt_outer :
  cyl_inner_r (cylsvg_props example_scene) < cyl_outer_r (cylsvg_props example_scene).
Proof. change (1 / 2 < 1). lra. Qed.

Lemma example_width_guard : width_guard (cylsvg_props example_scene).
Proof.
  unfold width_guard. change (true = true /\ 1 > 0 /\ 1 < 2 * 1 /\ 1 > 0).
  repeat split; lra.
Qed.

(** Moving the example's flat object by [(1, 2, 3)]. *)
Lemma move_by_shows_after_update_witness :
  objects example_scene !! 1%positive = Some example_flat /\
  matrix_world example_flat = world_matrix_of example_flat /\
  exists c1 o1 c2 o2,
    _move_by 1 1 2 3 example_scene = Ok tt c1 /\
    objects c1 !! 1%positive = Some o1 /\
    _world_bbox o1 = _world_bbox example_flat /\
    view_layer_update c1 = Ok tt c2 /\
    objects c2 !! 1%positive = Some o2 /\
    _world_bbox o2 = map (fun p => vadd p (mkVector 1 2 3)) (_world_bbox example_flat).
Proof.
  split; [apply example_lookup_flat|]. split; [reflexivity|].
  destruct (move_by_shows_after_update 1 example_scene example_flat 1 2 3
              example_lookup_flat eq_refl)
    as (c1 & o1 & c2 & o2 & H1 & H2 & H3 & H4 & H5 & H6 & _).
  exists c1, o1, c2, o2. repeat split; assumption.
Defined.


(** Two calls of [_ensure_subsurf] on the same object. *)
Lemma ensure_subsurf_idempotent_witness :
  objects example_modified_scene !! 1%positive = Some example_subsurf_flat /\
  (_ensure_subsurf 1 "CYLSVG_Subd" 3 ;; _ensure_subsurf 1 "CYLSVG_Subd" 3)%op
    example_modified_scene =
  _ensure_subsurf 1 "CYLSVG_Subd" 3 example_modified_scene.
Proof.
  split; [apply example_lookup_modified|].
  apply (ensure_subsurf_idempotent 1 "CYLSVG_Subd" 3 example_modified_scene
           example_subsurf_flat example_lookup_modified).
  intros m [= <-]. reflexivity.
Defined.

(** [_apply_modifiers] on an object with one modifier, under a host that
    applies it and under a host that refuses. *)
Lemma apply_modifiers_stack_witness :
  objects example_modified_scene !! 1%positive = Some example_subsurf_flat /\
  (exists c' o',
     _apply_modifiers example_modifier_apply (Some 1%positive) example_modified_scene
       = Ok tt c' /\
     objects c' !! 1%positive = Some o' /\ modifiers o' = []) /\
  (exists c' o',
     _apply_modifiers example_refusing_host (Some 1%positive) example_modified_scene
       = Ok tt c' /\
     objects c' !! 1%positive = Some o' /\
     modifiers o' = [new_subsurf "CYLSVG_Subd"]).
Proof.
  split; [apply example_lookup_modified|]. split.
  - apply (proj1 (apply_modifiers_stack example_modifier_apply 1 example_modified_scene
                    example_subsurf_flat example_lookup_modified)).
    intros m o. eexists. reflexivity.
  - destruct (proj2 (apply_modifiers_stack example_refusing_host 1 example_modified_scene
                       example_subsurf_flat example_lookup_modified))
      as (c' & o' & Hrun & Ho' & Hm & _); [reflexivity|].
    exists c', o'. repeat split; assumption.
Defined.

(** The cube operator on the example scene. *)
Lemma add_cube_keeps_existing_objects_witness :
  cyl_inner_r (cylsvg_props example_scene) < cyl_outer_r (cylsvg_props example_scene) /\
  exists c' i cube,
    AddCubeFromCylinder_execute example_modifier_apply example_unique_name example_scene
      = Ok FINISHED c' /\
    objects example_scene !! i = None /\
    objects c' !! i = Some cube /\
    active c' = Some i /\
    name cube = "CYLSVG_Cube"%string /\
    others_kept i example_scene c'.
Proof.
  split; [apply example_inner_lt_outer|].
  destruct (add_cube_keeps_existing_objects example_modifier_apply example_unique_name
              example_scene example_inner_lt_outer)
    as (c' & i & cube & Hrun & Hf & Hi & Ha & _ & _ & _ & _ & Hn & Hoth).
  exists c', i, cube. repeat split; assumption.
Defined.

(** The cube operator twice on the example scene. *)
Lemma add_cube_twice_makes_two_cubes_witness :
  cyl_inner_r (cylsvg_props example_scene) < cyl_outer_r (cylsvg_props example_scene) /\
  exists c1 c2 i1 i2,
    AddCubeFromCylinder_execute example_modifier_apply example_unique_name example_scene
      = Ok FINISHED c1 /\
    AddCubeFromCylinder_execute example_modifier_apply example_unique_name c1
      = Ok FINISHED c2 /\
    i1 <> i2 /\
    is_Some (objects c2 !! i1) /\
    is_Some (objects c2 !! i2) /\
    cube_obj (cylsvg_props c2) = Some i2.
Proof.
  split; [apply example_inner_lt_outer|].
  destruct (add_cube_twice_makes_two_cubes example_modifier_apply example_unique_name
              example_scene example_inner_lt_outer)
    as (c1 & c2 & i1 & i2 & cube1 & cube1' & H1 & H2 & Hne & _ & Hc2 & _ & Hi1 & _ & _ & Hi2 & _).
  exists c1, c2, i1, i2. repeat split; eauto.
Defined.

(** The cube operator on the example scene, under a host that applies
    the modifier and under a host that refuses. *)
Lemma add_cube_says_applied_regardless_witness :
  cyl_inner_r (cylsvg_props example_scene) < cyl_outer_r (cylsvg_props example_scene) /\
  (exists c' i cube,
     AddCubeFromCylinder_execute example_modifier_apply example_unique_name example_scene
       = Ok FINISHED c' /\
     objects c' !! i = Some cube /\ modifiers cube = []) /\
  (exists c' i cube,
     AddCubeFromCylinder_execute example_refusing_host example_unique_name example_scene
       = Ok FINISHED c' /\
     objects c' !! i = Some cube /\
     modifiers cube = [mkModifier "CYLSVG_CubeSubd" SUBSURF 7 7 SIMPLE]).
Proof.
  split; [apply example_inner_lt_outer|]. split.
  - destruct (add_cube_says_applied_regardless example_modifier_apply example_unique_name
                example_scene example_inner_lt_outer)
      as (c' & i & cube & r & Hrun & _ & Hi & _ & _ & _ & Happ & _).
    exists c', i, cube. repeat split; try assumption.
    apply Happ. intros m o. eexists. reflexivity.
  - destruct (add_cube_says_applied_regardless example_refusing_host example_unique_name
                example_scene example_inner_lt_outer)
      as (c' & i & cube & r & Hrun & _ & Hi & _ & _ & _ & _ & Hrefuse).
    exists c', i, cube. repeat split; try assumption.
    destruct Hrefuse as [Hm _]; [reflexivity|]. rewrite Hm.
    change (py_int (cyl_subdiv (cylsvg_props example_scene))) with (py_int 7).
    assert (Hint : py_int 7 = 7%Z).
    { unfold py_int. rewrite bool_decide_eq_true_2 by lra.
      symmetry. apply Int_part_spec. lra. }
    now rewrite Hint.
Defined.

(** The place-and-join operator twice on the example scene. *)
Lemma place_join_second_run_cancelled_witness :
  exists c1,
    PlaceSvgOnCubeTopJoin_execute example_join_bbox example_scene = Ok FINISHED c1 /\
    PlaceSvgOnCubeTopJoin_execute example_join_bbox c1 =
      Ok CANCELLED
         (with_reports (reports c1 ++ [mkReport ERROR "SVG or Cube not set." []]) c1).
Proof.
  destruct (execute_total example_join_bbox 1 2 example_scene example_flat example_cube
              eq_refl eq_refl example_lookup_flat example_lookup_cube
              example_nonempty_flat example_nonempty_cube) as (c1 & Hrun).
  exists c1. split; [exact Hrun|].
  exact (place_join_second_run_cancelled example_join_bbox example_scene c1 Hrun).
Defined.

(** The place-and-join operator on the example scene. *)
Lemma place_join_touches_only_the_two_witness :
  1%positive <> 2%positive /\
  type example_flat = MESH /\ type example_cube = MESH /\
  exists c' q',
    PlaceSvgOnCubeTopJoin_execute example_join_bbox example_scene = Ok FINISHED c' /\
    objects c' !! 1%positive = None /\
    objects c' !! 2%positive = Some q' /\
    location q' = location example_cube /\
    scale q' = scale example_cube /\
    reports c' = [mkReport INFO "SVG aligned on cube and joined." []].
Proof.
  assert (Hne : 1%positive <> 2%positive) by discriminate.
  split; [exact Hne|]. split; [reflexivity|]. split; [reflexivity|].
  destruct (place_join_touches_only_the_two example_join_bbox 1 2 example_scene
              example_flat example_cube eq_refl eq_refl Hne example_lookup_flat
              example_lookup_cube example_nonempty_flat example_nonempty_cube
              eq_refl eq_refl)
    as (c' & q' & Hrun & Hgone & Hq' & _ & _ & _ & _ & Hl & _ & Hs & _ & _ & Hrep).
  exists c', q'. repeat split; assumption.
Defined.

(** A stored width of 3 against a diameter of 2: no scaling. *)
Lemma place_guards_leave_scale_witness :
  objects example_wide_scene !! 1%positive = Some example_flat /\
  svg_orig_x (cylsvg_props example_wide_scene) >= 2 * 1 /\
  exists c1 f1,
    PlaceSvgOnCubeTopJoin_place 1 2 example_wide_scene = Ok tt c1 /\
    objects c1 !! 1%positive = Some f1 /\
    scale f1 = scale example_flat.
Proof.
  assert (HW : svg_orig_x (cylsvg_props example_wide_scene) >= 2 * 1).
  { change (3 >= 2 * 1). lra. }
  split; [apply example_lookup_flat|]. split; [exact HW|].
  apply (proj2 (place_guards_leave_scale 1 2 example_wide_scene example_flat example_cube
                  1 1 1 example_lookup_flat example_lookup_cube example_nonempty_cube
                  example_flat_size)).
  left. exact HW.
Defined.

(** On the example scene the flat object is as wide as the arc
    [2 asin(1/2)] at the time of the join. *)
Lemma place_makes_width_the_arc_witness :
  width_guard (cylsvg_props example_scene) /\
  _world_bbox_size example_flat = inr (1, 1, 1) /\
  exists c1 f1 sy' sz',
    PlaceSvgOnCubeTopJoin_place 1 2 example_scene = Ok tt c1 /\
    objects c1 !! 1%positive = Some f1 /\
    _world_bbox_size f1 = inr (2 * 1 * asin (1 / (2 * 1)), sy', sz').
Proof.
  split; [apply example_width_guard|]. split; [apply example_flat_size|].
  destruct (place_makes_width_the_arc 1 2 example_scene example_flat example_cube 1 1 1
              example_lookup_flat example_lookup_cube example_nonempty_cube
              eq_refl eq_refl eq_refl example_flat_size example_width_guard)
    as (c1 & f1 & sy' & sz' & Hrun & Hf1 & Hsz & _); [lra|].
  exists c1, f1, sy', sz'. repeat split; assumption.
Defined.
